(** * Object handles of the CoreCLR garbage collector

    A shallow embedding of [src/coreclr/gc/objecthandle.cpp]: the scan
    callbacks that give every handle type its meaning, the walk over the
    handle-table map that every [Ref_*] entry point repeats, the
    dependent-handle promotion loop and the start-up routine.

    Conventions.
    - An [Object*], an [OBJECTREF] and a [uintptr_t] are machine words,
      kept as [Z]; [NULL] is [0].
    - A callback of type [HANDLESCANPROC] receives pointers to the object
      slot and to the extra-info word of one handle.  Here it receives the
      two words and returns their new values together with the new state.
    - The collector ([g_theGCHeap]), the execution engine
      ([GCToEEInterface]) and the build configuration are outside the
      file; they are the fields of the class [GCEnv].
    - Loops of the source that can run forever (a stride of zero, the
      [do ... while] of the dependent scan) take fuel and return [None]
      when it runs out. *)

From Stdlib Require Import ZArith Lia.
From stdpp Require Import base tactics option list gmap.

(** ** Words and handle types *)

Definition ptr := Z.
Definition NULL : ptr := 0%Z.

(** The handle types, in the order of [s_rgTypeFlags]. *)
Inductive HandleType :=
  | HNDTYPE_WEAK_SHORT
  | HNDTYPE_WEAK_LONG
  | HNDTYPE_STRONG
  | HNDTYPE_PINNED
  | HNDTYPE_VARIABLE
  | HNDTYPE_REFCOUNTED
  | HNDTYPE_DEPENDENT
  | HNDTYPE_ASYNCPINNED
  | HNDTYPE_SIZEDREF
  | HNDTYPE_WEAK_NATIVE_COM
  | HNDTYPE_WEAK_INTERIOR_POINTER
  | HNDTYPE_CROSSREFERENCE.

#[global] Instance HandleType_eq_dec : EqDecision HandleType.
Proof. solve_decision. Defined.

(** ** The handle-table map *)

(** One slot of a handle table: its type, the object word ([*pObjRef]) and
    the adjacent extra-info word ([*pExtraInfo]). *)
Record Handle := mkHandle {
  hType : HandleType;
  hObj : ptr;
  hExtra : ptr
}.
Arguments mkHandle _ _%_Z _%_Z.

(** What an [HHANDLETABLE] holds. *)
Definition HandleTable := list Handle.

(** [struct HandleTableBucket]: [pTable] has one entry per slot, a [NULL]
    entry is [None]. *)
Record HandleTableBucket := mkBucket {
  pTable : list (option HandleTable);
  HandleTableIndex : nat
}.

(** One node of [struct HandleTableMap]; the chain through [pNext] is the
    list [HandleTableMap].  [pBuckets] is the array of
    [INITIAL_HANDLE_TABLE_ARRAY_SIZE] bucket pointers. *)
Record HandleTableMapNode := mkNode {
  pBuckets : list (option HandleTableBucket);
  dwMaxIndex : nat
}.

Definition HandleTableMap := list HandleTableMapNode.

(** [struct ScanContext] (gcinterface.h), with the fields this file reads.
    The two [int] fields number the workers; they are never negative and
    are kept as [nat]. *)
Record ScanContext := mkScanContext {
  thread_number : nat;
  thread_count : nat;
  concurrent : bool
}.

(** ** The environment of the file *)

Class GCEnv := {
  (** the collector's state, read through [g_theGCHeap] *)
  heap_t : Type;
  IsPromoted : heap_t -> ptr -> bool;
  IsConcurrentGCInProgress : heap_t -> bool;
  (** [GCToEEInterface::RefCountedHandleCallbacks] *)
  RefCountedHandleCallbacks : heap_t -> ptr -> bool;
  IsServerHeap : bool;
  (** [GCToOSInterface::GetTotalProcessorCount] *)
  GetTotalProcessorCount : nat;
  (** the value test behind [HndIsNullOrDestroyedHandle] for a destroyed
      handle (declared in handletable.h) *)
  IsDestroyedHandleValue : ptr -> bool;
  (** width of [uintptr_t] in bits *)
  ptr_bits : Z;
  (** conditional compilation *)
  FEATURE_VARIABLE_HANDLES : bool;
  FEATURE_REFCOUNTED_HANDLES : bool;
  FEATURE_SIZED_REF_HANDLES : bool;
  FEATURE_WEAK_NATIVE_COM_HANDLES : bool;
  (** strength bits of a variable handle and scan flags (gcinterface.h,
      handletable.h) *)
  VHT_WEAK_SHORT : Z;
  VHT_WEAK_LONG : Z;
  VHT_STRONG : Z;
  HNDGCF_NORMAL : Z;
  HNDGCF_ASYNC : Z;
  HNDGCF_EXTRAINFO : Z
}.

Arguments IsPromoted {_} _ _%_Z.

(** The calls that leave the file, most recent first: each call of the
    [promote_func] and each [RefCountedHandleCallbacks] query.  It is a
    history that the model keeps so that "the callback was called on this
    object" can be stated; the source keeps none. *)
Inductive HostCall :=
  | CallPromote (obj : ptr) (flags : Z)
  | CallRefCountedHandleCallbacks (obj : ptr).

Arguments CallPromote _%_Z _%_Z.
Arguments CallRefCountedHandleCallbacks _%_Z.

#[global] Instance HostCall_eq_dec : EqDecision HostCall.
Proof. solve_decision. Defined.

Section Model.
Context `{GCEnv}.

(** [promote_func]: the slot word it is given, the scan context and the
    flags; it returns the slot word it leaves and the collector's state. *)
Definition promote_func := ptr -> ScanContext -> Z -> heap_t -> ptr * heap_t.

(** [struct DhContext] (objecthandle.h), with the fields this file uses. *)
Record DhContext := mkDhContext {
  m_fUnpromotedPrimaries : bool;
  m_fPromoted : bool;
  m_pfnPromoteFunction : promote_func;
  m_iCondemned : nat;
  m_iMaxGen : nat;
  m_pScanContext : ScanContext
}.

(** Everything a callback can reach besides its slot. *)
Record GcState := mkGcState {
  gc_heap : heap_t;
  (** the array [g_pDependentHandleContexts] *)
  g_pDependentHandleContexts : list DhContext;
  (** memory outside the handle table (the words interior pointers live in) *)
  native_mem : gmap Z Z;
  host_calls : list HostCall
}.

Definition set_heap (g : heap_t) (st : GcState) : GcState :=
  mkGcState g (g_pDependentHandleContexts st) (native_mem st) (host_calls st).
Definition set_contexts (c : list DhContext) (st : GcState) : GcState :=
  mkGcState (gc_heap st) c (native_mem st) (host_calls st).
Definition set_mem (m : gmap Z Z) (st : GcState) : GcState :=
  mkGcState (gc_heap st) (g_pDependentHandleContexts st) m (host_calls st).
Definition record_call (c : HostCall) (st : GcState) : GcState :=
  mkGcState (gc_heap st) (g_pDependentHandleContexts st) (native_mem st)
            (c :: host_calls st).

Definition set_fPromoted (b : bool) (c : DhContext) : DhContext :=
  mkDhContext (m_fUnpromotedPrimaries c) b (m_pfnPromoteFunction c)
              (m_iCondemned c) (m_iMaxGen c) (m_pScanContext c).
Definition set_fUnpromotedPrimaries (b : bool) (c : DhContext) : DhContext :=
  mkDhContext b (m_fPromoted c) (m_pfnPromoteFunction c)
              (m_iCondemned c) (m_iMaxGen c) (m_pScanContext c).

(** [callback(ppObject, sc, flags)] *)
Definition call_promote (callback : promote_func) (o : ptr) (sc : ScanContext)
    (flags : Z) (st : GcState) : ptr * GcState :=
  let r := callback o sc flags (gc_heap st) in
  (r.1, record_call (CallPromote o flags) (set_heap r.2 st)).

Definition wrap (x : Z) : Z := (x mod 2 ^ ptr_bits)%Z.

(** Modelled from the spec: [HndIsNullOrDestroyedHandle] of handletable.h,
    which is not among the sources: the referent is null or the
    destroyed-handle value. *)
Definition HndIsNullOrDestroyedHandle (value : ptr) : bool :=
  (value =? NULL)%Z || IsDestroyedHandleValue value.

Definition getNumberOfSlots : nat :=
  if negb IsServerHeap then 1 else GetTotalProcessorCount.

Definition getSlotNumber (sc : ScanContext) : nat :=
  if IsServerHeap then thread_number sc else 0.

Definition getThreadCount (sc : ScanContext) : nat := thread_count sc.

(** A pointer into [g_pDependentHandleContexts] is the index of its
    element. *)
Definition Ref_GetDependentHandleContext (sc : ScanContext) : nat :=
  getSlotNumber sc.

(** ** Scan callbacks *)

Definition HANDLESCANPROC (LP2 : Type) :=
  ptr -> ptr -> ScanContext -> LP2 -> GcState -> ptr * ptr * GcState.

Record VARSCANINFO (LP2 : Type) := mkVARSCANINFO {
  lEnableMask : Z;
  pfnTrace : HANDLESCANPROC LP2;
  vsi_lp2 : LP2
}.
Arguments mkVARSCANINFO {LP2} _ _ _.
Arguments lEnableMask {LP2} _.
Arguments pfnTrace {LP2} _.
Arguments vsi_lp2 {LP2} _.

(** The traced callback is handed [NULL] for the extra info, so the word
    stays as it is. *)
Definition VariableTraceDispatcher {LP2} : HANDLESCANPROC (VARSCANINFO LP2) :=
  fun pObjRef pExtraInfo lp1 pInfo st =>
    if negb (Z.land pExtraInfo (lEnableMask pInfo) =? 0)%Z then
      let '(o, _, st') := pfnTrace pInfo pObjRef NULL lp1 (vsi_lp2 pInfo) st in
      (o, pExtraInfo, st')
    else (pObjRef, pExtraInfo, st).

Definition PromoteRefCounted : HANDLESCANPROC promote_func :=
  fun pObjRef pExtraInfo lp1 lp2 st =>
    let pObj := pObjRef in
    if negb (HndIsNullOrDestroyedHandle pObj) && negb (IsPromoted (gc_heap st) pObj)
    then
      let st1 := record_call (CallRefCountedHandleCallbacks pObj) st in
      if RefCountedHandleCallbacks (gc_heap st) pObj then
        (* the callback works on the local [pObj], not on the slot *)
        let '(_, st2) := call_promote lp2 pObj lp1 0 st1 in
        (pObjRef, pExtraInfo, st2)
      else (pObjRef, pExtraInfo, st1)
    else (pObjRef, pExtraInfo, st).

(** The extra info of a weak interior pointer handle is the address of the
    word that holds the interior pointer. *)
Definition UpdateWeakInteriorHandle : HANDLESCANPROC promote_func :=
  fun pObjRef pExtraInfo lp1 lp2 st =>
    let pOldPrimary := pObjRef in
    let '(pNewPrimary, st1) := call_promote lp2 pObjRef lp1 0 st in
    if negb (pNewPrimary =? NULL)%Z then
      let pOldInterior := native_mem st1 !!! pExtraInfo in
      let delta := wrap (pNewPrimary - pOldPrimary) in
      let pNewInterior := wrap (pOldInterior + delta) in
      (pNewPrimary, pExtraInfo,
       set_mem (<[pExtraInfo := pNewInterior]> (native_mem st1)) st1)
    else (pNewPrimary, pExtraInfo, st1).

Definition PromoteDependentHandle : HANDLESCANPROC promote_func :=
  fun pObjRef pExtraInfo lp1 lp2 st =>
    let sc := lp1 in
    let pDhContext := Ref_GetDependentHandleContext sc in
    if negb (pObjRef =? NULL)%Z && IsPromoted (gc_heap st) pObjRef then
      if negb (IsPromoted (gc_heap st) pExtraInfo) then
        let '(s, st1) := call_promote lp2 pExtraInfo lp1 0 st in
        (pObjRef, s,
         set_contexts (alter (set_fPromoted true) pDhContext
                             (g_pDependentHandleContexts st1)) st1)
      else (pObjRef, pExtraInfo, st)
    else if negb (pObjRef =? NULL)%Z then
      (pObjRef, pExtraInfo,
       set_contexts (alter (set_fUnpromotedPrimaries true) pDhContext
                           (g_pDependentHandleContexts st)) st)
    else (pObjRef, pExtraInfo, st).

Definition ClearDependentHandle {LP2} : HANDLESCANPROC LP2 :=
  fun pObjRef pExtraInfo _ _ st =>
    if negb (IsPromoted (gc_heap st) pObjRef) then (NULL, NULL, st)
    else (pObjRef, pExtraInfo, st).

Definition PromoteObject : HANDLESCANPROC promote_func :=
  fun pObjRef pExtraInfo lp1 lp2 st =>
    let '(o, st1) := call_promote lp2 pObjRef lp1 0 st in
    (o, pExtraInfo, st1).

Definition CheckPromoted {LP2} : HANDLESCANPROC LP2 :=
  fun pObjRef pExtraInfo _ _ st =>
    if negb (IsPromoted (gc_heap st) pObjRef) then (NULL, pExtraInfo, st)
    else (pObjRef, pExtraInfo, st).

Definition UpdatePointer : HANDLESCANPROC promote_func :=
  fun pObjRef pExtraInfo lp1 lp2 st =>
    let '(o, st1) := call_promote lp2 pObjRef lp1 0 st in
    (o, pExtraInfo, st1).

(** ** The handle-table primitive *)

(** One visit of the scan: the callback runs on a handle whose type is one
    of [types], any other handle is passed over. *)
Definition scan_handle {LP2} (pfnScan : HANDLESCANPROC LP2) (lp1 : ScanContext)
    (lp2 : LP2) (types : list HandleType) (h : Handle) (st : GcState)
    : Handle * GcState :=
  if bool_decide (hType h ∈ types) then
    let '(o, e, st') := pfnScan (hObj h) (hExtra h) lp1 lp2 st in
    (mkHandle (hType h) o e, st')
  else (h, st).

Fixpoint scan_table (visit : Handle -> GcState -> Handle * GcState)
    (hTable : HandleTable) (st : GcState) : HandleTable * GcState :=
  match hTable with
  | [] => ([], st)
  | h :: rest =>
      let '(h', st1) := visit h st in
      let '(rest', st2) := scan_table visit rest st1 in
      (h' :: rest', st2)
  end.

(** Modelled from the spec: [HndScanHandlesForGC] of the handle-table
    primitive (handletable.cpp and handletablescan.cpp are not among the
    sources).  It visits every handle of the table whose type is among the
    first [uTypeCount] entries of [types] and calls [pfnScan] on it exactly
    once; the generations and the flags do not select handles here. *)
Definition HndScanHandlesForGC {LP2} (hTable : HandleTable)
    (pfnScan : HANDLESCANPROC LP2) (lp1 : ScanContext) (lp2 : LP2)
    (types : list HandleType) (uTypeCount : nat)
    (condemned maxgen : nat) (flags : Z) (st : GcState)
    : HandleTable * GcState :=
  scan_table (scan_handle pfnScan lp1 lp2 (take uTypeCount types)) hTable st.

(** ** The walk every [Ref_*] function repeats *)

Definition table_scan := HandleTable -> GcState -> HandleTable * GcState.

(** [for ( ; uCPUindex < uCPUlimit; uCPUindex += uCPUstep)]
    [{ hTable = pTable[uCPUindex]; if (hTable) ... }]
    The array [pTable] has [getNumberOfSlots] entries (so
    [Ref_InitializeHandleTableBucket] allocates it); an index past the end
    of the list reads as [NULL].  With [uCPUstep = 0] the loop of the
    source never ends, and the fuel runs out. *)
Fixpoint scan_slots (fuel : nat) (act : table_scan)
    (uCPUindex uCPUlimit uCPUstep : nat)
    (pTable : list (option HandleTable)) (st : GcState)
    : option (list (option HandleTable) * GcState) :=
  if uCPUlimit <=? uCPUindex then Some (pTable, st)
  else match fuel with
       | 0 => None
       | S fuel' =>
           let '(pTable', st') :=
             match pTable !! uCPUindex with
             | Some (Some hTable) =>
                 let '(hTable', st') := act hTable st in
                 (<[uCPUindex := Some hTable']> pTable, st')
             | _ => (pTable, st)
             end in
           scan_slots fuel' act (uCPUindex + uCPUstep) uCPUlimit uCPUstep
                      pTable' st'
       end.

(** The body under [if (walk->pBuckets[i] != NULL)].  A stride of at least
    one ends within [uCPUlimit] rounds, which is the fuel. *)
Definition scan_bucket (act : table_scan) (sc : ScanContext)
    (b : HandleTableBucket) (st : GcState)
    : option (HandleTableBucket * GcState) :=
  let uCPUindex := getSlotNumber sc in
  let uCPUlimit := getNumberOfSlots in
  let uCPUstep := getThreadCount sc in
  '(t, st') ← scan_slots uCPUlimit act uCPUindex uCPUlimit uCPUstep (pTable b) st;
  Some (mkBucket t (HandleTableIndex b), st').

Fixpoint scan_list {A} (f : A -> GcState -> option (A * GcState))
    (l : list A) (st : GcState) : option (list A * GcState) :=
  match l with
  | [] => Some ([], st)
  | a :: l' =>
      '(a', st1) ← f a st;
      '(l'', st2) ← scan_list f l' st1;
      Some (a' :: l'', st2)
  end.

Definition scan_opt {A} (f : A -> GcState -> option (A * GcState))
    (oa : option A) (st : GcState) : option (option A * GcState) :=
  match oa with
  | None => Some (None, st)
  | Some a => '(a', st') ← f a st; Some (Some a', st')
  end.

(** [for (i = 0; i < INITIAL_HANDLE_TABLE_ARRAY_SIZE; i++)] over the array
    of one node. *)
Definition scan_node (act : table_scan) (sc : ScanContext)
    (n : HandleTableMapNode) (st : GcState)
    : option (HandleTableMapNode * GcState) :=
  '(bs, st') ← scan_list (scan_opt (scan_bucket act sc)) (pBuckets n) st;
  Some (mkNode bs (dwMaxIndex n), st').

(** [walk = &g_HandleTableMap; while (walk) { ...; walk = walk->pNext; }] *)
Definition scan_handle_tables (act : table_scan) (sc : ScanContext)
    (map : HandleTableMap) (st : GcState) : option (HandleTableMap * GcState) :=
  scan_list (scan_node act sc) map st.

(** ** Entry points *)

Definition scan_flags (sc : ScanContext) : Z :=
  if concurrent sc then HNDGCF_ASYNC else HNDGCF_NORMAL.

Definition TraceVariableHandles {LP2} (pfnTrace : HANDLESCANPROC LP2)
    (sc : ScanContext) (lp2 : LP2) (uEnableMask : Z)
    (condemned maxgen : nat) (flags : Z)
    (map : HandleTableMap) (st : GcState) : option (HandleTableMap * GcState) :=
  let type := [HNDTYPE_VARIABLE] in
  let info := mkVARSCANINFO uEnableMask pfnTrace lp2 in
  scan_handle_tables
    (fun hTable => HndScanHandlesForGC hTable VariableTraceDispatcher sc info
                     type 1 condemned maxgen (Z.lor HNDGCF_EXTRAINFO flags))
    sc map st.

Definition Ref_TraceNormalRoots_types : list HandleType :=
  [HNDTYPE_STRONG] ++ (if FEATURE_SIZED_REF_HANDLES then [HNDTYPE_SIZEDREF] else []).

Definition Ref_TraceNormalRoots_uTypeCount (condemned maxgen : nat)
    (st : GcState) : nat :=
  if (maxgen <=? condemned) && negb (IsConcurrentGCInProgress (gc_heap st))
  then 1 else length Ref_TraceNormalRoots_types.

Definition Ref_TraceNormalRoots (condemned maxgen : nat) (sc : ScanContext)
    (fn : promote_func) (map : HandleTableMap) (st : GcState)
    : option (HandleTableMap * GcState) :=
  let types := Ref_TraceNormalRoots_types in
  let uTypeCount := Ref_TraceNormalRoots_uTypeCount condemned maxgen st in
  let flags := scan_flags sc in
  '(map1, st1) ← scan_handle_tables
      (fun hTable => HndScanHandlesForGC hTable PromoteObject sc fn
                       types uTypeCount condemned maxgen flags) sc map st;
  '(map2, st2) ←
      (if FEATURE_VARIABLE_HANDLES
       then TraceVariableHandles PromoteObject sc fn VHT_STRONG
                                 condemned maxgen flags map1 st1
       else Some (map1, st1));
  if FEATURE_REFCOUNTED_HANDLES then
    if negb (concurrent sc) then
      let type := [HNDTYPE_REFCOUNTED] in
      scan_handle_tables
        (fun hTable => HndScanHandlesForGC hTable PromoteRefCounted sc fn
                         type 1 condemned maxgen flags) sc map2 st2
    else Some (map2, st2)
  else Some (map2, st2).

Definition Ref_CheckReachable_types : list HandleType :=
  [HNDTYPE_WEAK_LONG]
  ++ (if FEATURE_REFCOUNTED_HANDLES then [HNDTYPE_REFCOUNTED] else [])
  ++ [HNDTYPE_WEAK_INTERIOR_POINTER].

Definition Ref_CheckReachable (condemned maxgen : nat) (sc : ScanContext)
    (map : HandleTableMap) (st : GcState) : option (HandleTableMap * GcState) :=
  let types := Ref_CheckReachable_types in
  let flags := scan_flags sc in
  '(map1, st1) ← scan_handle_tables
      (fun hTable => HndScanHandlesForGC hTable CheckPromoted sc tt
                       types (length types) condemned maxgen flags) sc map st;
  if FEATURE_VARIABLE_HANDLES
  then TraceVariableHandles CheckPromoted sc tt VHT_WEAK_LONG
                            condemned maxgen flags map1 st1
  else Some (map1, st1).

Definition Ref_CheckAlive_types : list HandleType :=
  [HNDTYPE_WEAK_SHORT]
  ++ (if FEATURE_WEAK_NATIVE_COM_HANDLES then [HNDTYPE_WEAK_NATIVE_COM] else []).

Definition Ref_CheckAlive (condemned maxgen : nat) (sc : ScanContext)
    (map : HandleTableMap) (st : GcState) : option (HandleTableMap * GcState) :=
  let types := Ref_CheckAlive_types in
  let flags := scan_flags sc in
  '(map1, st1) ← scan_handle_tables
      (fun hTable => HndScanHandlesForGC hTable CheckPromoted sc tt
                       types (length types) condemned maxgen flags) sc map st;
  if FEATURE_VARIABLE_HANDLES
  then TraceVariableHandles CheckPromoted sc tt VHT_WEAK_SHORT
                            condemned maxgen flags map1 st1
  else Some (map1, st1).

(** One round of the [do ... while] of the dependent scan: both flags are
    cleared, then the dependent handles are scanned. *)
Definition dependent_scan_round (pDhContext : nat) (ctx : DhContext)
    (flags : Z) (map : HandleTableMap) (st : GcState)
    : option (HandleTableMap * GcState) :=
  let st0 :=
    set_contexts
      (alter (fun c => set_fPromoted false (set_fUnpromotedPrimaries false c))
             pDhContext (g_pDependentHandleContexts st)) st in
  let type := [HNDTYPE_DEPENDENT] in
  scan_handle_tables
    (fun hTable => HndScanHandlesForGC hTable PromoteDependentHandle
                     (m_pScanContext ctx) (m_pfnPromoteFunction ctx)
                     type 1 (m_iCondemned ctx) (m_iMaxGen ctx) flags)
    (m_pScanContext ctx) map st0.

Fixpoint dependent_scan_loop (fuel : nat) (pDhContext : nat) (flags : Z)
    (fAnyPromotions : bool) (map : HandleTableMap) (st : GcState)
    : option (bool * HandleTableMap * GcState) :=
  match fuel with
  | 0 => None
  | S fuel' =>
      ctx ← g_pDependentHandleContexts st !! pDhContext;
      '(map1, st1) ← dependent_scan_round pDhContext ctx flags map st;
      ctx1 ← g_pDependentHandleContexts st1 !! pDhContext;
      let fAnyPromotions1 :=
        if m_fPromoted ctx1 then true else fAnyPromotions in
      if m_fUnpromotedPrimaries ctx1 && m_fPromoted ctx1
      then dependent_scan_loop fuel' pDhContext flags fAnyPromotions1 map1 st1
      else Some (fAnyPromotions1, map1, st1)
  end.

(** [pDhContext] points into [g_pDependentHandleContexts]; a pointer
    outside the array gives no result. *)
Definition Ref_ScanDependentHandlesForPromotion (fuel : nat) (pDhContext : nat)
    (map : HandleTableMap) (st : GcState)
    : option (bool * HandleTableMap * GcState) :=
  ctx ← g_pDependentHandleContexts st !! pDhContext;
  let flags :=
    Z.lor (if concurrent (m_pScanContext ctx) then HNDGCF_ASYNC else HNDGCF_NORMAL)
          HNDGCF_EXTRAINFO in
  let fAnyPromotions := false in
  dependent_scan_loop fuel pDhContext flags fAnyPromotions map st.

Definition Ref_ScanDependentHandlesForClearing (condemned maxgen : nat)
    (sc : ScanContext) (map : HandleTableMap) (st : GcState)
    : option (HandleTableMap * GcState) :=
  let type := [HNDTYPE_DEPENDENT] in
  let flags := Z.lor (scan_flags sc) HNDGCF_EXTRAINFO in
  scan_handle_tables
    (fun hTable => HndScanHandlesForGC hTable ClearDependentHandle sc tt
                     type 1 condemned maxgen flags) sc map st.

Definition Ref_ScanWeakInteriorPointersForRelocation (condemned maxgen : nat)
    (sc : ScanContext) (fn : promote_func)
    (map : HandleTableMap) (st : GcState) : option (HandleTableMap * GcState) :=
  let type := [HNDTYPE_WEAK_INTERIOR_POINTER] in
  let flags := Z.lor (scan_flags sc) HNDGCF_EXTRAINFO in
  scan_handle_tables
    (fun hTable => HndScanHandlesForGC hTable UpdateWeakInteriorHandle sc fn
                     type 1 condemned maxgen flags) sc map st.

Definition Ref_UpdatePointers_types : list HandleType :=
  [HNDTYPE_WEAK_SHORT; HNDTYPE_WEAK_LONG; HNDTYPE_STRONG]
  ++ (if FEATURE_REFCOUNTED_HANDLES then [HNDTYPE_REFCOUNTED] else [])
  ++ (if FEATURE_WEAK_NATIVE_COM_HANDLES then [HNDTYPE_WEAK_NATIVE_COM] else [])
  ++ (if FEATURE_SIZED_REF_HANDLES then [HNDTYPE_SIZEDREF] else []).

End Model.

Arguments PromoteDependentHandle {_} _%_Z _%_Z _ _ _.
Arguments UpdateWeakInteriorHandle {_} _%_Z _%_Z _ _ _.
Arguments PromoteRefCounted {_} _%_Z _%_Z _ _ _.
Arguments mkVARSCANINFO {_ LP2} _ _ _.
Arguments lEnableMask {_ LP2} _.
Arguments pfnTrace {_ LP2} _.
Arguments vsi_lp2 {_ LP2} _.

(** ** Addresses of handles and what a scan visits *)

Section Specification.
Context `{GCEnv}.

(** A handle is addressed by the path to it: node of the chain, entry of
    [pBuckets], entry of [pTable], slot of the table. *)
Definition lk_table (t : HandleTable) (p : list nat) : option Handle :=
  match p with
  | [j] => t !! j
  | _ => None
  end.

Definition lk_opt {A} (lk : A -> list nat -> option Handle)
    (oa : option A) (p : list nat) : option Handle :=
  match oa with
  | Some a => lk a p
  | None => None
  end.

Definition lk_list {A} (lk : A -> list nat -> option Handle)
    (l : list A) (p : list nat) : option Handle :=
  match p with
  | n :: p' => match l !! n with Some a => lk a p' | None => None end
  | [] => None
  end.

Definition lk_pTable : list (option HandleTable) -> list nat -> option Handle :=
  lk_list (lk_opt lk_table).
Definition lk_bucket (b : HandleTableBucket) : list nat -> option Handle :=
  lk_pTable (pTable b).
Definition lk_node (n : HandleTableMapNode) : list nat -> option Handle :=
  lk_list (lk_opt lk_bucket) (pBuckets n).
Definition lk_map : HandleTableMap -> list nat -> option Handle :=
  lk_list lk_node.

Definition handle_at (map : HandleTableMap) (c i k j : nat) : option Handle :=
  lk_map map [c; i; k; j].

(** The entries of [pTable] that the stride starting at [start] reaches. *)
Definition on_stride (start limit step k : nat) : Prop :=
  exists q, k = start + q * step /\ k < limit.

(** The tables of a bucket that the worker of [sc] scans. *)
Definition visited (sc : ScanContext) (k : nat) : Prop :=
  on_stride (getSlotNumber sc) getNumberOfSlots (getThreadCount sc) k.

Definition V_all (p : list nat) : Prop := True.
Definition V_head (P : nat -> Prop) (p : list nat) : Prop :=
  match p with
  | k :: _ => P k
  | [] => False
  end.
Definition V_tail (V : list nat -> Prop) (p : list nat) : Prop :=
  match p with
  | _ :: p' => V p'
  | [] => False
  end.
Definition V_map (sc : ScanContext) : list nat -> Prop :=
  V_tail (V_tail (V_head (visited sc))).

(** Sums over the structure, for counting arguments. *)
Definition pot_list {A} (pa : A -> GcState -> nat) (l : list A) (st : GcState) : nat :=
  sum_list_with (fun a => pa a st) l.
Definition pot_opt {A} (pa : A -> GcState -> nat) (oa : option A) (st : GcState) : nat :=
  match oa with
  | Some a => pa a st
  | None => 0
  end.
Definition pot_pTable (ph : Handle -> GcState -> nat) :=
  pot_list (pot_opt (pot_list ph)).
Definition pot_bucket (ph : Handle -> GcState -> nat) (b : HandleTableBucket) :=
  pot_pTable ph (pTable b).
Definition pot_node (ph : Handle -> GcState -> nat) (n : HandleTableMapNode) :=
  pot_list (pot_opt (pot_bucket ph)) (pBuckets n).
Definition pot_map (ph : Handle -> GcState -> nat) : HandleTableMap -> GcState -> nat :=
  pot_list (pot_node ph).

(** What a scan promises.  [R] orders the states a scan goes through,
    [visit] is what it does to one handle, [ph] and [cost] are a potential
    on handles and on states. *)
Section Promise.
Variable R : GcState -> GcState -> Prop.
Variable visit : Handle -> GcState -> Handle * GcState.
Variable ph : Handle -> GcState -> nat.
Variable cost : GcState -> nat.

(** [h] was visited once, at some state between [st] and [st']. *)
Definition Visit (h h' : Handle) (st st' : GcState) : Prop :=
  exists s1, R st s1 /\ h' = (visit h s1).1 /\ R (visit h s1).2 st'.

Definition rel_at (V : Prop) (oh oh' : option Handle) (st st' : GcState) : Prop :=
  match oh, oh' with
  | None, None => True
  | Some h, Some h' => (V -> Visit h h' st st') /\ (~ V -> h' = h)
  | _, _ => False
  end.

Definition ScanSpec {A} (lk : A -> list nat -> option Handle)
    (pot : A -> GcState -> nat) (V : list nat -> Prop)
    (f : A -> GcState -> option (A * GcState)) : Prop :=
  forall a st a' st', f a st = Some (a', st') ->
    R st st' /\
    pot a' st' + cost st' <= pot a st + cost st /\
    forall p, rel_at (V p) (lk a p) (lk a' p) st st'.

Definition antitone {A} (pot : A -> GcState -> nat) : Prop :=
  forall a s s', R s s' -> pot a s' <= pot a s.

(** What the proofs need of [R], [visit], [ph] and [cost]. *)
Record Lawful : Prop := {
  law_refl : forall s, R s s;
  law_trans : forall s1 s2 s3, R s1 s2 -> R s2 s3 -> R s1 s3;
  law_visit : forall h s, R s (visit h s).2;
  law_ph : forall h s s', R s s' -> ph h s' <= ph h s;
  law_cost : forall h s,
    ph (visit h s).1 (visit h s).2 + cost (visit h s).2 <= ph h s + cost s
}.
End Promise.

Definition no_pot : Handle -> GcState -> nat := fun _ _ => 0.
Definition no_cost : GcState -> nat := fun _ => 0.

(** ** The promotion oracle of the dependent scan *)

(** A monotone oracle: the word a promotion leaves in the slot is promoted,
    and what was promoted stays promoted. *)
Record monotone_oracle (fn : promote_func) : Prop := {
  promote_marks : forall o sc fl g,
    IsPromoted (fn o sc fl g).2 (fn o sc fl g).1 = true;
  promoted_stays : forall o sc fl g x,
    IsPromoted g x = true -> IsPromoted (fn o sc fl g).2 x = true
}.

Definition fUnpromotedPrimaries_at (d : nat) (st : GcState) : bool :=
  from_option m_fUnpromotedPrimaries false (g_pDependentHandleContexts st !! d).
Definition fPromoted_at (d : nat) (st : GcState) : bool :=
  from_option m_fPromoted false (g_pDependentHandleContexts st !! d).

(** The context apart from its two flags. *)
Definition context_params (c : DhContext) :=
  (m_pfnPromoteFunction c, m_iCondemned c, m_iMaxGen c, m_pScanContext c).

(** How the state moves inside one round of the dependent scan of the
    context [d]. *)
Record R_dep (d : nat) (st st' : GcState) : Prop := {
  dep_promoted : forall o, IsPromoted (gc_heap st) o = true ->
                           IsPromoted (gc_heap st') o = true;
  dep_fU : fUnpromotedPrimaries_at d st = true ->
           fUnpromotedPrimaries_at d st' = true;
  dep_fP : fPromoted_at d st = true -> fPromoted_at d st' = true;
  dep_quiet : is_Some (g_pDependentHandleContexts st !! d) ->
              fPromoted_at d st' = false ->
              gc_heap st' = gc_heap st /\ host_calls st' = host_calls st;
  dep_loud : fPromoted_at d st' = true ->
             fPromoted_at d st = true \/
             length (host_calls st) < length (host_calls st');
  dep_calls : exists new, host_calls st' = new ++ host_calls st /\
                          forall c, c ∈ new -> exists o, c = CallPromote o 0;
  dep_params : context_params <$> (g_pDependentHandleContexts st' !! d)
               = context_params <$> (g_pDependentHandleContexts st !! d)
}.

(** A dependent handle whose secondary is not promoted counts one. *)
Definition dep_pot (h : Handle) (st : GcState) : nat :=
  if bool_decide (hType h = HNDTYPE_DEPENDENT)
     && negb (IsPromoted (gc_heap st) (hExtra h)) then 1 else 0.
Definition calls_made (st : GcState) : nat := length (host_calls st).

(** What holds of a dependent handle once a round has visited it. *)
Definition dep_settled (d : nat) (h : Handle) (st : GcState) : Prop :=
  (hObj h = NULL \/ IsPromoted (gc_heap st) (hExtra h) = true
   \/ fUnpromotedPrimaries_at d st = true) /\
  (fPromoted_at d st = true \/
   (hObj h <> NULL -> IsPromoted (gc_heap st) (hObj h) = true ->
    IsPromoted (gc_heap st) (hExtra h) = true)).

(** What the dependent scan makes of a handle [h] of the map it is given.
    The handle is as it was; or it is a dependent handle in a scanned
    table ([V]) with a primary that is not null and a secondary that was
    not promoted, the promote callback has been called on the secondary
    (the call is among [new]), and the handle holds the primary it held
    and the word the callback left, which is promoted. *)
Definition dep_scanned (V : Prop) (fn : promote_func) (sc : ScanContext)
    (st st' : GcState) (new : list HostCall) (h h' : Handle) : Prop :=
  h' = h \/
  (V /\ hType h = HNDTYPE_DEPENDENT /\ hObj h <> NULL /\
   IsPromoted (gc_heap st) (hExtra h) = false /\
   CallPromote (hExtra h) 0 ∈ new /\
   IsPromoted (gc_heap st') (hExtra h') = true /\
   exists g, h' = mkHandle HNDTYPE_DEPENDENT (hObj h)
                           (fn (hExtra h) sc 0%Z g).1).

Definition R_any (st st' : GcState) : Prop := True.
Definition R_more_calls (st st' : GcState) : Prop :=
  host_calls st `suffix_of` host_calls st'.



(** The handles a weak check clears, as the amended reading of the spec
    lists them: the types of the phase, and a variable handle whose
    strength bits meet the mask of the phase. *)
Definition weak_checked (types : list HandleType) (mask : Z) (h : Handle) : bool :=
  bool_decide (hType h ∈ types)
  || (FEATURE_VARIABLE_HANDLES && bool_decide (hType h = HNDTYPE_VARIABLE)
      && negb (Z.land (hExtra h) mask =? 0)%Z).

Definition weak_class (t : HandleType) : bool :=
  match t with
  | HNDTYPE_WEAK_SHORT | HNDTYPE_WEAK_LONG
  | HNDTYPE_WEAK_NATIVE_COM | HNDTYPE_WEAK_INTERIOR_POINTER => true
  | _ => false
  end.

Definition check_promoted_result (st : GcState) (h : Handle) : Handle :=
  if IsPromoted (gc_heap st) (hObj h) then h
  else mkHandle (hType h) NULL (hExtra h).

End Specification.

(** ** Start-up: [Ref_Initialize] *)

(** An allocation of the C++ heap, named by a number. *)
Definition block := nat.

(** The C++ heap and the globals as [Ref_Initialize] sees them.  The
    outcomes of the allocations still to come are given in advance
    ([INJECT_FAULT]): [false] is a failed [new (nothrow)] or a
    [HndCreateHandleTable] that returns [NULL]; past the end of the list
    every allocation succeeds. *)
Record InitState := mkInitState {
  live_blocks : list block;
  next_block : block;
  alloc_results : list bool;
  (** [g_HandleTableMap] *)
  map_pBuckets : option block;
  map_dwMaxIndex : nat;
  map_pNext : option block;
  g_gcGlobalHandleStore : option block;
  (** the pointer [g_pDependentHandleContexts] *)
  dh_contexts_ptr : option block;
  (** what the bucket array holds *)
  bucket_array : list (option block);
  (** [_underlyingBucket] of the store: [pTable], the entries of the array
      it points to, and [HandleTableIndex] *)
  underlying_pTable : option block;
  underlying_tables : list (option block);
  underlying_index : nat
}.

Section Init.
Context `{GCEnv}.

Definition set_alloc (live : list block) (next : block) (results : list bool)
    (st : InitState) : InitState :=
  mkInitState live next results
    (map_pBuckets st) (map_dwMaxIndex st) (map_pNext st)
    (g_gcGlobalHandleStore st) (dh_contexts_ptr st) (bucket_array st)
    (underlying_pTable st) (underlying_tables st) (underlying_index st).

(** [new (nothrow) ...] and [HndCreateHandleTable]. *)
Definition alloc (st : InitState) : option block * InitState :=
  match alloc_results st with
  | false :: rest => (None, set_alloc (live_blocks st) (next_block st) rest st)
  | true :: rest =>
      (Some (next_block st),
       set_alloc (next_block st :: live_blocks st) (S (next_block st)) rest st)
  | [] =>
      (Some (next_block st),
       set_alloc (next_block st :: live_blocks st) (S (next_block st)) [] st)
  end.

(** [delete], [delete[]] and [HndDestroyHandleTable]. *)
Definition release (b : block) (st : InitState) : InitState :=
  set_alloc (filter (fun x => x <> b) (live_blocks st)) (next_block st)
            (alloc_results st) st.

Definition set_map (pB : option block) (max : nat) (next : option block)
    (st : InitState) : InitState :=
  mkInitState (live_blocks st) (next_block st) (alloc_results st)
    pB max next
    (g_gcGlobalHandleStore st) (dh_contexts_ptr st) (bucket_array st)
    (underlying_pTable st) (underlying_tables st) (underlying_index st).

Definition set_store (s : option block) (st : InitState) : InitState :=
  mkInitState (live_blocks st) (next_block st) (alloc_results st)
    (map_pBuckets st) (map_dwMaxIndex st) (map_pNext st)
    s (dh_contexts_ptr st) (bucket_array st)
    (underlying_pTable st) (underlying_tables st) (underlying_index st).

Definition set_dh_contexts (c : option block) (st : InitState) : InitState :=
  mkInitState (live_blocks st) (next_block st) (alloc_results st)
    (map_pBuckets st) (map_dwMaxIndex st) (map_pNext st)
    (g_gcGlobalHandleStore st) c (bucket_array st)
    (underlying_pTable st) (underlying_tables st) (underlying_index st).

Definition set_bucket_array (a : list (option block)) (st : InitState) : InitState :=
  mkInitState (live_blocks st) (next_block st) (alloc_results st)
    (map_pBuckets st) (map_dwMaxIndex st) (map_pNext st)
    (g_gcGlobalHandleStore st) (dh_contexts_ptr st) a
    (underlying_pTable st) (underlying_tables st) (underlying_index st).

Definition set_underlying (pT : option block) (tables : list (option block))
    (index : nat) (st : InitState) : InitState :=
  mkInitState (live_blocks st) (next_block st) (alloc_results st)
    (map_pBuckets st) (map_dwMaxIndex st) (map_pNext st)
    (g_gcGlobalHandleStore st) (dh_contexts_ptr st) (bucket_array st)
    pT tables index.

(** [~HandleTableBucketHolder].  The holder points into the store
    ([m_bucket = &g_gcGlobalHandleStore->_underlyingBucket]); [m_bucket]
    is given here by the block of the store.  Unless the release is
    suppressed the destructor reads [m_bucket->pTable]: when the store
    has been deleted this is a read of freed memory, which has no defined
    behaviour and gives no result. *)
Definition HandleTableBucketHolder_dtor (m_bucket : block)
    (m_SuppressRelease : bool) (st : InitState) : option InitState :=
  if m_SuppressRelease then Some st
  else if bool_decide (m_bucket ∈ live_blocks st) then
    match underlying_pTable st with
    | Some pT =>
        let st' :=
          foldl (fun s t => match t with
                            | Some tb => release tb s
                            | None => s
                            end) st (underlying_tables st) in
        Some (release pT st')
    | None => Some st
    end
  else None.

(** The code under the label [CleanupAndFail], and the destructor of the
    holder that runs at its [return false], after the two [delete]s.  The
    destructor of [GCHandleStore] is in gchandletable.cpp, which is not
    among the sources: [delete g_gcGlobalHandleStore] releases the object
    here and nothing more.  Neither [delete] resets a pointer. *)
Definition CleanupAndFail (pBuckets : option block) (m_bucket : block)
    (m_SuppressRelease : bool) (st : InitState) : option (bool * InitState) :=
  let st1 := match pBuckets with
             | Some pB => release pB st
             | None => st
             end in
  let st2 := match g_gcGlobalHandleStore st1 with
             | Some s => release s st1
             | None => st1
             end in
  st3 ← HandleTableBucketHolder_dtor m_bucket m_SuppressRelease st2;
  Some (false, st3).

(** The loop over [uCPUindex] that creates the handle tables of the first
    bucket; [false] is the jump to [CleanupAndFail]. *)
Fixpoint create_handle_tables (count uCPUindex : nat) (st : InitState)
    : bool * InitState :=
  match count with
  | 0 => (true, st)
  | S count' =>
      let '(t, st1) := alloc st in
      let st2 := set_underlying (underlying_pTable st1)
                   (<[uCPUindex := t]> (underlying_tables st1))
                   (underlying_index st1) st1 in
      match t with
      | None => (false, st2)
      | Some _ => create_handle_tables count' (S uCPUindex) st2
      end
  end.

(** [INITIAL_HANDLE_TABLE_ARRAY_SIZE] is a constant of objecthandle.h.
    [ZeroMemory] fills an array with null entries; [HndSetHandleTableIndex]
    writes inside a handle table and leaves no trace here.  The holder is
    constructed once the store is allocated, and its destructor runs at
    every [return] after that.  No result is a run with no defined
    behaviour. *)
Definition Ref_Initialize (INITIAL_HANDLE_TABLE_ARRAY_SIZE : nat)
    (st : InitState) : option (bool * InitState) :=
  let '(pBuckets, st) := alloc st in
  match pBuckets with
  | None => Some (false, st)
  | Some pB =>
      let st := set_bucket_array
                  (replicate INITIAL_HANDLE_TABLE_ARRAY_SIZE None) st in
      let '(store, st) := alloc st in
      let st := set_store store st in
      match store with
      | None => Some (false, release pB st)
      | Some s =>
          let st := set_underlying (underlying_pTable st)
                      (underlying_tables st) 0 st in
          let n_slots := getNumberOfSlots in
          let '(pT, st) := alloc st in
          let st := set_underlying pT (underlying_tables st)
                      (underlying_index st) st in
          match pT with
          | None => CleanupAndFail pBuckets s false st
          | Some _ =>
              let st := set_underlying pT (replicate n_slots None)
                          (underlying_index st) st in
              match create_handle_tables n_slots 0 st with
              | (false, st) => CleanupAndFail pBuckets s false st
              | (true, st) =>
                  let st := set_bucket_array
                              (<[0 := Some s]> (bucket_array st)) st in
                  let st := set_map pBuckets INITIAL_HANDLE_TABLE_ARRAY_SIZE
                                    None st in
                  let '(dh, st) := alloc st in
                  let st := set_dh_contexts dh st in
                  match dh with
                  | None => CleanupAndFail pBuckets s true st
                  | Some _ =>
                      st ← HandleTableBucketHolder_dtor s true st;
                      Some (true, st)
                  end
              end
          end
      end
  end.

(** The state [Ref_Initialize] is called in: nothing allocated, every
    global pointer null ([_ASSERTE(g_HandleTableMap.pBuckets == NULL)]). *)
Definition before_Ref_Initialize (results : list bool) : InitState :=
  mkInitState [] 0 results None 0 None None None [] None [] 0.

(** A pointer is dangling when it is not null and its block is released. *)
Definition dangling (p : option block) (st : InitState) : Prop :=
  match p with
  | Some b => b ∉ live_blocks st
  | None => False
  end.

End Init.

(** ** A concrete collector, for examples *)

(** A server heap on two processors.  The collector's state is the list of
    marked objects; null counts as promoted, as it lies outside the
    condemned range.  The engine keeps even objects alive. *)
Definition example_env : GCEnv := {|
  heap_t := list Z;
  IsPromoted := fun g o => (o =? 0)%Z || existsb (Z.eqb o) g;
  IsConcurrentGCInProgress := fun _ => false;
  RefCountedHandleCallbacks := fun _ o => Z.even o;
  IsServerHeap := true;
  GetTotalProcessorCount := 2;
  IsDestroyedHandleValue := fun o => (o =? 1)%Z;
  ptr_bits := 64;
  FEATURE_VARIABLE_HANDLES := true;
  FEATURE_REFCOUNTED_HANDLES := true;
  FEATURE_SIZED_REF_HANDLES := true;
  FEATURE_WEAK_NATIVE_COM_HANDLES := true;
  VHT_WEAK_SHORT := 0x100;
  VHT_WEAK_LONG := 0x200;
  VHT_STRONG := 0x400;
  HNDGCF_NORMAL := 0;
  HNDGCF_ASYNC := 2;
  HNDGCF_EXTRAINFO := 4
|}.

(** Marking: the slot keeps its word, the object joins the marked ones. *)
Definition example_mark : @promote_func example_env :=
  fun o _ _ g => (o, o :: g).

(** Relocation: every object moves up by [0x1000]. *)
Definition example_relocate : @promote_func example_env :=
  fun o _ _ g => (if (o =? 0)%Z then 0%Z else (o + 0x1000)%Z, g).

Definition example_sc : ScanContext := mkScanContext 0 1 false.
Definition example_sc_concurrent : ScanContext := mkScanContext 0 1 true.

Definition example_ctx : @DhContext example_env :=
  @mkDhContext example_env false false example_mark 0 2 example_sc.

Definition example_state (marked : list Z) : @GcState example_env :=
  @mkGcState example_env marked [example_ctx; example_ctx] ∅ [].

(** Dependent handles 20 -> 30 and 10 -> 20, scanned in that order, and
    one with a null primary; a second table with 60 -> 70. *)
Definition example_dependents : HandleTableMap :=
  [ mkNode
      [ Some (mkBucket
                [ Some [ mkHandle HNDTYPE_DEPENDENT 20 30;
                         mkHandle HNDTYPE_DEPENDENT 10 20;
                         mkHandle HNDTYPE_DEPENDENT 0 0 ];
                  Some [ mkHandle HNDTYPE_DEPENDENT 60 70 ] ]
                0);
        None ]
      10 ].

(** One handle of every kind the strong and weak phases look at. *)
Definition example_handles : HandleTableMap :=
  [ mkNode
      [ None;
        Some (mkBucket
                [ Some [ mkHandle HNDTYPE_STRONG 10 0;
                         mkHandle HNDTYPE_SIZEDREF 20 0;
                         mkHandle HNDTYPE_REFCOUNTED 30 0;
                         mkHandle HNDTYPE_REFCOUNTED 31 0;
                         mkHandle HNDTYPE_VARIABLE 40 0x400;
                         mkHandle HNDTYPE_VARIABLE 41 0x200 ];
                  Some [ mkHandle HNDTYPE_WEAK_SHORT 50 0;
                         mkHandle HNDTYPE_WEAK_LONG 51 0;
                         mkHandle HNDTYPE_WEAK_NATIVE_COM 52 0;
                         mkHandle HNDTYPE_WEAK_INTERIOR_POINTER 53 0;
                         mkHandle HNDTYPE_WEAK_SHORT 54 0 ] ]
                1) ]
      10 ].

(** A table with a single handle. *)
Definition example_single (h : Handle) : HandleTableMap :=
  [ mkNode [ Some (mkBucket [ Some [ h ]; None ] 0) ] 10 ].

(** ** Start-up: what a failure leaves *)

(** What an allocation does not touch. *)
Definition same_globals (st st' : InitState) : Prop :=
  map_pBuckets st' = map_pBuckets st /\
  map_dwMaxIndex st' = map_dwMaxIndex st /\
  map_pNext st' = map_pNext st /\
  g_gcGlobalHandleStore st' = g_gcGlobalHandleStore st /\
  dh_contexts_ptr st' = dh_contexts_ptr st /\
  bucket_array st' = bucket_array st.


(** ** Pinning, relocation and the single-threaded walks *)

(** What the remaining entry points read from outside the file. *)
Class GCHost `{GCEnv} := {
  (** flag of a [promote_func] call (gcinterface.h) *)
  GC_CALL_PINNED : Z;
  (** the fourth strength of a variable handle *)
  VHT_PINNED : Z;
  FEATURE_ASYNC_PINNED_HANDLES : bool;
  FEATURE_JAVAMARSHAL : bool;
  (** [GCToEEInterface::WalkAsyncPinnedForPromotion]: the engine traces the
      buffers of an overlapped object with the callback it is given *)
  WalkAsyncPinnedForPromotion :
    ptr -> ScanContext -> promote_func -> heap_t -> heap_t;
  (** [g_theGCHeap->GetPromotedBytes], a [size_t] *)
  GetPromotedBytes : heap_t -> nat -> Z;
  (** [g_theGCHeap->GetNumberOfHeaps] *)
  GetNumberOfHeaps : nat;
  (** [GCToEEInterface::SyncBlockCacheWeakPtrScan] *)
  SyncBlockCacheWeakPtrScan :
    HANDLESCANPROC promote_func -> ScanContext -> promote_func ->
    GcState -> GcState
}.

Section MoreModel.
Context `{GCHost}.

Definition PinObject : HANDLESCANPROC promote_func :=
  fun pObjRef pExtraInfo lp1 lp2 st =>
    let '(o, st1) := call_promote lp2 pObjRef lp1 GC_CALL_PINNED st in
    (o, pExtraInfo, st1).

Definition AsyncPinObject : HANDLESCANPROC promote_func :=
  fun pObjRef pExtraInfo lp1 lp2 st =>
    let '(pPinnedObj, st1) := call_promote lp2 pObjRef lp1 0 st in
    if negb (HndIsNullOrDestroyedHandle pPinnedObj) then
      (pPinnedObj, pExtraInfo,
       set_heap (WalkAsyncPinnedForPromotion pPinnedObj lp1 lp2 (gc_heap st1)) st1)
    else (pPinnedObj, pExtraInfo, st1).

Definition UpdatePointerPinned : HANDLESCANPROC promote_func :=
  fun pObjRef pExtraInfo lp1 lp2 st =>
    let '(o, st1) := call_promote lp2 pObjRef lp1 GC_CALL_PINNED st in
    (o, pExtraInfo, st1).

(** The extra info of a dependent handle is its secondary; both words are
    handed to the callback, the primary first. *)
Definition UpdateDependentHandle : HANDLESCANPROC promote_func :=
  fun pObjRef pExtraInfo lp1 lp2 st =>
    let '(pPrimary, st1) := call_promote lp2 pObjRef lp1 0 st in
    let '(pSecondary, st2) := call_promote lp2 pExtraInfo lp1 0 st1 in
    (pPrimary, pSecondary, st2).

(** The extra info of a sized-ref handle receives the bytes that tracing
    the handle promoted; the subtraction is on [size_t]. *)
Definition CalculateSizedRefSize : HANDLESCANPROC promote_func :=
  fun pObjRef pExtraInfo lp1 lp2 st =>
    let sc := lp1 in
    let sizeBegin := GetPromotedBytes (gc_heap st) (thread_number sc) in
    let '(o, st1) := call_promote lp2 pObjRef lp1 0 st in
    let sizeEnd := GetPromotedBytes (gc_heap st1) (thread_number sc) in
    (o, wrap (sizeEnd - sizeBegin), st1).

(** *** Pinning roots *)

Definition Ref_TracePinningRoots_types : list HandleType :=
  [HNDTYPE_PINNED]
  ++ (if FEATURE_ASYNC_PINNED_HANDLES then [HNDTYPE_ASYNCPINNED] else []).

(** The two scans of one table, [&types[0]] and [&types[1]] with a count
    of one each. *)
Definition Ref_TracePinningRoots_table (condemned maxgen : nat)
    (sc : ScanContext) (fn : promote_func) (flags : Z) : table_scan :=
  fun hTable st =>
    let types := Ref_TracePinningRoots_types in
    let '(hTable1, st1) :=
      HndScanHandlesForGC hTable PinObject sc fn types 1
                          condemned maxgen flags st in
    if FEATURE_ASYNC_PINNED_HANDLES then
      HndScanHandlesForGC hTable1 AsyncPinObject sc fn (drop 1 types) 1
                          condemned maxgen flags st1
    else (hTable1, st1).

Definition Ref_TracePinningRoots (condemned maxgen : nat) (sc : ScanContext)
    (fn : promote_func) (map : HandleTableMap) (st : GcState)
    : option (HandleTableMap * GcState) :=
  let flags := scan_flags sc in
  '(map1, st1) ← scan_handle_tables
      (Ref_TracePinningRoots_table condemned maxgen sc fn flags) sc map st;
  if FEATURE_VARIABLE_HANDLES
  then TraceVariableHandles PinObject sc fn VHT_PINNED
                            condemned maxgen flags map1 st1
  else Some (map1, st1).

(** *** Relocation *)

Definition Ref_UpdatePinnedPointers (condemned maxgen : nat) (sc : ScanContext)
    (fn : promote_func) (map : HandleTableMap) (st : GcState)
    : option (HandleTableMap * GcState) :=
  let types := Ref_TracePinningRoots_types in
  let flags := scan_flags sc in
  '(map1, st1) ← scan_handle_tables
      (fun hTable => HndScanHandlesForGC hTable UpdatePointerPinned sc fn
                       types (length types) condemned maxgen flags) sc map st;
  if FEATURE_VARIABLE_HANDLES
  then TraceVariableHandles UpdatePointerPinned sc fn VHT_PINNED
                            condemned maxgen flags map1 st1
  else Some (map1, st1).

Definition Ref_ScanDependentHandlesForRelocation (condemned maxgen : nat)
    (sc : ScanContext) (fn : promote_func)
    (map : HandleTableMap) (st : GcState) : option (HandleTableMap * GcState) :=
  let type := [HNDTYPE_DEPENDENT] in
  let flags := Z.lor (scan_flags sc) HNDGCF_EXTRAINFO in
  scan_handle_tables
    (fun hTable => HndScanHandlesForGC hTable UpdateDependentHandle sc fn
                     type 1 condemned maxgen flags) sc map st.

(** The types of [Ref_UpdatePointers], with the one [FEATURE_JAVAMARSHAL]
    adds. *)
Definition Ref_UpdatePointers_all_types : list HandleType :=
  Ref_UpdatePointers_types
  ++ (if FEATURE_JAVAMARSHAL then [HNDTYPE_CROSSREFERENCE] else []).

(** [int32_t] arithmetic, and the two interlocked operations on
    [uCount]: each gives the new content of the cell and what it
    returns. *)
Definition int32 (x : Z) : Z := ((x + 2 ^ 31) mod 2 ^ 32 - 2 ^ 31)%Z.

Definition Interlocked_Increment (cell : Z) : Z * Z :=
  (int32 (cell + 1), int32 (cell + 1)).

Definition Interlocked_CompareExchange (cell exchange comparand : Z) : Z * Z :=
  (if (cell =? comparand)%Z then exchange else cell, cell).

(** [Ref_UpdatePointers], run by one worker without interruption.  The
    static [uCount] is passed in and handed back. *)
Definition Ref_UpdatePointers (condemned maxgen : nat) (sc : ScanContext)
    (fn : promote_func) (uCount : Z) (map : HandleTableMap) (st : GcState)
    : option (Z * HandleTableMap * GcState) :=
  let '(uCount, bDo) :=
    if IsServerHeap then
      let '(uCount, r) := Interlocked_Increment uCount in
      let bDo := (r =? 1)%Z in
      let '(uCount, _) :=
        Interlocked_CompareExchange uCount 0 (Z.of_nat GetNumberOfHeaps) in
      (uCount, bDo)
    else (uCount, true) in
  let st := if bDo then SyncBlockCacheWeakPtrScan UpdatePointer sc fn st
            else st in
  let types := Ref_UpdatePointers_all_types in
  let flags := scan_flags sc in
  '(map1, st1) ← scan_handle_tables
      (fun hTable => HndScanHandlesForGC hTable UpdatePointer sc fn
                       types (length types) condemned maxgen flags) sc map st;
  '(map2, st2) ←
      (if FEATURE_VARIABLE_HANDLES
       then TraceVariableHandles UpdatePointer sc fn
              (Z.lor (Z.lor VHT_WEAK_SHORT VHT_WEAK_LONG) VHT_STRONG)
              condemned maxgen flags map1 st1
       else Some (map1, st1));
  Some (uCount, map2, st2).

(** The start of [Ref_UpdatePointers] when the workers of a server heap
    run it at the same time: each worker performs the increment and then
    the compare-exchange, and the operations of different workers
    interleave.  [el_pc] counts the operations a worker has performed,
    [el_bDo] lists the workers whose [bDo] is true. *)
Record Election := mkElection {
  el_uCount : Z;
  el_pc : list nat;
  el_bDo : list nat
}.

(** The next operation of worker [w]. *)
Definition election_step (w : nat) (s : Election) : option Election :=
  match el_pc s !! w with
  | Some 0 =>
      let '(uCount, r) := Interlocked_Increment (el_uCount s) in
      Some (mkElection uCount (<[w := 1]> (el_pc s))
                       (if (r =? 1)%Z then w :: el_bDo s else el_bDo s))
  | Some 1 =>
      let '(uCount, _) :=
        Interlocked_CompareExchange (el_uCount s) 0 (Z.of_nat GetNumberOfHeaps) in
      Some (mkElection uCount (<[w := 2]> (el_pc s)) (el_bDo s))
  | _ => None
  end.

(** A schedule names the worker that moves next. *)
Fixpoint run_election (schedule : list nat) (s : Election) : option Election :=
  match schedule with
  | [] => Some s
  | w :: rest => s' ← election_step w s; run_election rest s'
  end.

(** Before any worker has entered [Ref_UpdatePointers]. *)
Definition election_start : Election :=
  mkElection 0 (replicate GetNumberOfHeaps 0) [].

(** The workers that have performed the increment, and those among them
    that have not yet performed the compare-exchange. *)
Definition el_started (s : Election) : nat :=
  sum_list_with (fun pc => if decide (1 <= pc) then 1 else 0) (el_pc s).
Definition el_pending (s : Election) : nat :=
  sum_list_with (fun pc => if decide (pc = 1) then 1 else 0) (el_pc s).

(** What holds of [uCount] at every point of every interleaving. *)
Record election_inv (s : Election) : Prop := {
  inv_workers : length (el_pc s) = GetNumberOfHeaps;
  inv_counting : el_started s < GetNumberOfHeaps ->
                 el_uCount s = Z.of_nat (el_started s);
  inv_full : el_started s = GetNumberOfHeaps ->
             (el_uCount s = Z.of_nat GetNumberOfHeaps /\ 1 <= el_pending s)
             \/ el_uCount s = 0%Z;
  inv_nobody : el_started s = 0 -> el_bDo s = [];
  inv_elected : 1 <= el_started s ->
                exists w, w < GetNumberOfHeaps /\ el_bDo s = [w]
}.

(** *** Sized references *)

Definition ScanSizedRefByCPU (maxgen : nat)
    (scanProc : HANDLESCANPROC promote_func) (sc : ScanContext)
    (fn : promote_func) (flags : Z)
    (map : HandleTableMap) (st : GcState) : option (HandleTableMap * GcState) :=
  let type := [HNDTYPE_SIZEDREF] in
  scan_handle_tables
    (fun hTable => HndScanHandlesForGC hTable scanProc sc fn
                     type 1 maxgen maxgen flags) sc map st.

Definition Ref_ScanSizedRefHandles (condemned maxgen : nat) (sc : ScanContext)
    (fn : promote_func) (map : HandleTableMap) (st : GcState)
    : option (HandleTableMap * GcState) :=
  let flags := Z.lor (scan_flags sc) HNDGCF_EXTRAINFO in
  ScanSizedRefByCPU maxgen CalculateSizedRefSize sc fn flags map st.

(** *** Walks by a single thread *)

(** [for (int uCPUindex = 0; uCPUindex < getNumberOfSlots(); uCPUindex++)]:
    [count] is the number of rounds still to go. *)
Fixpoint scan_every_slot (count : nat) (act : table_scan) (uCPUindex : nat)
    (pTable : list (option HandleTable)) (st : GcState)
    : list (option HandleTable) * GcState :=
  match count with
  | 0 => (pTable, st)
  | S count' =>
      let '(pTable', st') :=
        match pTable !! uCPUindex with
        | Some (Some hTable) =>
            let '(hTable', st') := act hTable st in
            (<[uCPUindex := Some hTable']> pTable, st')
        | _ => (pTable, st)
        end in
      scan_every_slot count' act (S uCPUindex) pTable' st'
  end.

Definition scan_bucket_by_single_thread (act : table_scan)
    (b : HandleTableBucket) (st : GcState)
    : option (HandleTableBucket * GcState) :=
  let '(t, st') := scan_every_slot getNumberOfSlots act 0 (pTable b) st in
  Some (mkBucket t (HandleTableIndex b), st').

Definition scan_handle_tables_by_single_thread (act : table_scan)
    (map : HandleTableMap) (st : GcState) : option (HandleTableMap * GcState) :=
  scan_list
    (fun n st =>
       '(bs, st') ← scan_list (scan_opt (scan_bucket_by_single_thread act))
                              (pBuckets n) st;
       Some (mkNode bs (dwMaxIndex n), st'))
    map st.

Definition TraceVariableHandlesBySingleThread {LP2}
    (pfnTrace : HANDLESCANPROC LP2) (lp1 : ScanContext) (lp2 : LP2)
    (uEnableMask : Z) (condemned maxgen : nat) (flags : Z)
    (map : HandleTableMap) (st : GcState) : option (HandleTableMap * GcState) :=
  let type := [HNDTYPE_VARIABLE] in
  let info := mkVARSCANINFO uEnableMask pfnTrace lp2 in
  scan_handle_tables_by_single_thread
    (fun hTable => HndScanHandlesForGC hTable VariableTraceDispatcher lp1 info
                     type 1 condemned maxgen (Z.lor HNDGCF_EXTRAINFO flags))
    map st.

(** [HANDLESCANPROC] as [HndEnumHandles] uses it, where the first
    parameter is any word. *)
Definition HNDENUMPROC (LP1 LP2 : Type) :=
  ptr -> ptr -> LP1 -> LP2 -> GcState -> ptr * ptr * GcState.

Definition enum_handle {LP1 LP2} (pfnEnum : HNDENUMPROC LP1 LP2) (lp1 : LP1)
    (lp2 : LP2) (types : list HandleType) (h : Handle) (st : GcState)
    : Handle * GcState :=
  if bool_decide (hType h ∈ types) then
    let '(o, e, st') := pfnEnum (hObj h) (hExtra h) lp1 lp2 st in
    (mkHandle (hType h) o e, st')
  else (h, st).

(** Modelled from the spec: [HndEnumHandles] of the handle-table primitive
    (handletablescan.cpp is not among the sources).  It calls [pfnEnum]
    once on every handle of the table whose type is among the first
    [uTypeCount] entries of [types]. *)
Definition HndEnumHandles {LP1 LP2} (hTable : HandleTable)
    (types : list HandleType) (uTypeCount : nat)
    (pfnEnum : HNDENUMPROC LP1 LP2) (lParam1 : LP1) (lParam2 : LP2)
    (fAsync : bool) (st : GcState) : HandleTable * GcState :=
  scan_table (enum_handle pfnEnum lParam1 lParam2 (take uTypeCount types))
             hTable st.

Definition Ref_TraceRefCountHandles {LP1 LP2} (callback : HNDENUMPROC LP1 LP2)
    (lParam1 : LP1) (lParam2 : LP2)
    (map : HandleTableMap) (st : GcState) : option (HandleTableMap * GcState) :=
  if FEATURE_REFCOUNTED_HANDLES then
    let handleType := [HNDTYPE_REFCOUNTED] in
    scan_handle_tables_by_single_thread
      (fun hTable => HndEnumHandles hTable handleType 1 callback
                       lParam1 lParam2 false)
      map st
  else Some (map, st).

(** [param2] points to an array of pointers to handles.  Those are the
    cross-reference handles of the bridge objects, which the enumeration
    does not write, so the objects they hold are read here once: the
    parameter is the list of these objects. *)
Definition NullBridgeObjectWeakRef : HNDENUMPROC nat (list ptr) :=
  fun handle pExtraInfo param1 param2 st =>
    let length := param1 in
    let bridgeHandleArray := param2 in
    let weakRef := handle in
    (foldl (fun slot bridgeRef =>
              if (weakRef =? bridgeRef)%Z then NULL else slot)
           handle (take length bridgeHandleArray),
     pExtraInfo, st).

Definition Ref_NullBridgeObjectsWeakRefs (length : nat)
    (unreachableObjectHandles : list ptr)
    (map : HandleTableMap) (st : GcState) : option (HandleTableMap * GcState) :=
  let handleType := [HNDTYPE_WEAK_SHORT; HNDTYPE_WEAK_LONG] in
  scan_handle_tables_by_single_thread
    (fun hTable => HndEnumHandles hTable handleType 2 NullBridgeObjectWeakRef
                     length unreachableObjectHandles false)
    map st.

(** *** What the pinning scan does to a handle *)




(** *** What the relocation entry points do to a handle *)

(** A callback whose answer is [F] of the two words rewrites a handle of
    one of [types] so. *)
Definition rewrite_words (b : bool) (types : list HandleType)
    (F : ptr -> ptr -> ptr * ptr) (h : Handle) : Handle :=
  if b && bool_decide (hType h ∈ types)
  then mkHandle (hType h) (F (hObj h) (hExtra h)).1 (F (hObj h) (hExtra h)).2
  else h.

(** The words a variable handle is left with when the traced callback
    answers [F] and the strength mask is [mask]. *)
Definition variable_words (mask : Z) (F : ptr -> ptr -> ptr * ptr)
    (o e : ptr) : ptr * ptr :=
  if negb (Z.land e mask =? 0)%Z then ((F o NULL).1, e) else (o, e).

(** The strengths [Ref_UpdatePointers] relocates. *)
Definition VHT_not_pinned : Z :=
  Z.lor (Z.lor VHT_WEAK_SHORT VHT_WEAK_LONG) VHT_STRONG.

(** A handle whose objects have moved as [f] says: the referent of every
    handle type that is compiled in, and the secondary of a dependent
    handle.  A variable handle moves when it has a strength. *)
Definition relocate_handle (f : ptr -> ptr) (h : Handle) : Handle :=
  let moved := mkHandle (hType h) (f (hObj h)) (hExtra h) in
  match hType h with
  | HNDTYPE_WEAK_SHORT | HNDTYPE_WEAK_LONG | HNDTYPE_STRONG
  | HNDTYPE_PINNED | HNDTYPE_WEAK_INTERIOR_POINTER => moved
  | HNDTYPE_DEPENDENT => mkHandle (hType h) (f (hObj h)) (f (hExtra h))
  | HNDTYPE_REFCOUNTED => if FEATURE_REFCOUNTED_HANDLES then moved else h
  | HNDTYPE_WEAK_NATIVE_COM =>
      if FEATURE_WEAK_NATIVE_COM_HANDLES then moved else h
  | HNDTYPE_SIZEDREF => if FEATURE_SIZED_REF_HANDLES then moved else h
  | HNDTYPE_CROSSREFERENCE => if FEATURE_JAVAMARSHAL then moved else h
  | HNDTYPE_ASYNCPINNED => if FEATURE_ASYNC_PINNED_HANDLES then moved else h
  | HNDTYPE_VARIABLE =>
      if FEATURE_VARIABLE_HANDLES
         && (negb (Z.land (hExtra h) VHT_not_pinned =? 0)%Z
             || negb (Z.land (hExtra h) VHT_PINNED =? 0)%Z)
      then moved else h
  end.

End MoreModel.

Arguments PinObject {_ _} _%_Z _%_Z _ _ _.
Arguments UpdateDependentHandle {_} _%_Z _%_Z _ _ _.
Arguments CalculateSizedRefSize {_ _} _%_Z _%_Z _ _ _.
Arguments mkElection _%_Z _ _.

(** ** The bucket directory: install, remove, destroy, shut down *)

(** One node of the chain as memory has it.  The first node is the global
    [g_HandleTableMap]; the others are allocated, and [node_self] is their
    block.  [node_pBuckets] is the block of the array [pBuckets] points
    to, [node_slots] are its entries: addresses of buckets. *)
Record MapNode := mkMapNode {
  node_self : option block;
  node_pBuckets : block;
  node_slots : list (option nat);
  node_dwMaxIndex : nat
}.

(** A [HandleTableBucket] object.  It belongs to the caller and is named
    by its address.  [bo_tables] are the entries of the array [pTable]
    points to. *)
Record BucketObject := mkBucketObject {
  bo_pTable : option block;
  bo_tables : list (option block);
  bo_HandleTableIndex : nat
}.

(** The C++ heap, the chain that starts at [g_HandleTableMap] (the empty
    list when [g_HandleTableMap.pBuckets] is null), the bucket objects and
    the pointer [g_pDependentHandleContexts].  Allocations fail as
    [dir_results] says, as for [InitState]. *)
Record Directory := mkDirectory {
  dir_live : list block;
  dir_next : block;
  dir_results : list bool;
  dir_chain : list MapNode;
  dir_buckets : gmap nat BucketObject;
  dir_contexts : option block
}.

Section DirectoryModel.
Context `{GCEnv}.

Definition dir_set_alloc (live : list block) (next : block)
    (results : list bool) (d : Directory) : Directory :=
  mkDirectory live next results (dir_chain d) (dir_buckets d) (dir_contexts d).

Definition dir_set_chain (chain : list MapNode) (d : Directory) : Directory :=
  mkDirectory (dir_live d) (dir_next d) (dir_results d) chain
              (dir_buckets d) (dir_contexts d).

Definition dir_set_contexts (c : option block) (d : Directory) : Directory :=
  mkDirectory (dir_live d) (dir_next d) (dir_results d) (dir_chain d)
              (dir_buckets d) c.

(** A bucket the directory has not seen reads as zeroed memory. *)
Definition bucket_object (bucket : nat) (d : Directory) : BucketObject :=
  default (mkBucketObject None [] 0) (dir_buckets d !! bucket).

Definition set_bucket_object (bucket : nat) (bo : BucketObject)
    (d : Directory) : Directory :=
  mkDirectory (dir_live d) (dir_next d) (dir_results d) (dir_chain d)
              (<[bucket := bo]> (dir_buckets d)) (dir_contexts d).

(** [new (nothrow) ...] and [HndCreateHandleTable]. *)
Definition dir_alloc (d : Directory) : option block * Directory :=
  match dir_results d with
  | false :: rest => (None, dir_set_alloc (dir_live d) (dir_next d) rest d)
  | true :: rest =>
      (Some (dir_next d),
       dir_set_alloc (dir_next d :: dir_live d) (S (dir_next d)) rest d)
  | [] =>
      (Some (dir_next d),
       dir_set_alloc (dir_next d :: dir_live d) (S (dir_next d)) [] d)
  end.

(** [delete], [delete[]] and [HndDestroyHandleTable].  Releasing a block
    that is not live has no defined behaviour and gives no result. *)
Definition dir_release (b : block) (d : Directory) : option Directory :=
  if bool_decide (b ∈ dir_live d)
  then Some (dir_set_alloc (filter (fun x => x <> b) (dir_live d))
                           (dir_next d) (dir_results d) d)
  else None.

(** [for (int n = 0; n < m_slots; n++) if (pTable[n]) HndDestroyHandleTable(pTable[n])] *)
Fixpoint destroy_created_tables (tables : list (option block)) (d : Directory)
    : option Directory :=
  match tables with
  | [] => Some d
  | Some t :: rest => d' ← dir_release t d; destroy_created_tables rest d'
  | None :: rest => destroy_created_tables rest d
  end.

(** [~HandleTableBucketHolder] for the bucket at [m_bucket]. *)
Definition dir_HandleTableBucketHolder_dtor (m_bucket : nat) (m_slots : nat)
    (m_SuppressRelease : bool) (d : Directory) : option Directory :=
  if m_SuppressRelease then Some d
  else
    let bo := bucket_object m_bucket d in
    match bo_pTable bo with
    | Some pT =>
        d' ← destroy_created_tables (take m_slots (bo_tables bo)) d;
        dir_release pT d'
    | None => Some d
    end.

(** The loop that creates the handle tables of a bucket; [false] is the
    [return false] inside it. *)
Fixpoint dir_create_handle_tables (count uCPUindex : nat) (result : nat)
    (d : Directory) : bool * Directory :=
  match count with
  | 0 => (true, d)
  | S count' =>
      let '(t, d1) := dir_alloc d in
      let bo := bucket_object result d1 in
      let d2 := set_bucket_object result
                  (mkBucketObject (bo_pTable bo)
                     (<[uCPUindex := t]> (bo_tables bo))
                     (bo_HandleTableIndex bo)) d1 in
      match t with
      | None => (false, d2)
      | Some _ => dir_create_handle_tables count' (S uCPUindex) result d2
      end
  end.

(** [Interlocked::CompareExchangePointer] on a cell that holds the address
    of a bucket, or of a node: the new content of the cell and what the
    call returns. *)
Definition CompareExchangePointer {A} `{EqDecision A}
    (cell exchange comparand : option A) : option A * option A :=
  (if decide (cell = comparand) then exchange else cell, cell).

(** [for (i = 0; i < INITIAL_HANDLE_TABLE_ARRAY_SIZE; i++)] over the array
    of one node: the first entry that reads null and that the
    compare-exchange finds null receives [result].  [count] is the number
    of rounds still to go; the walk stops at the end of the list. *)
Fixpoint claim_slot (count i : nat) (result : nat)
    (slots : list (option nat)) : option (nat * list (option nat)) :=
  match count with
  | 0 => None
  | S count' =>
      match slots !! i with
      | Some None =>
          let '(cell, old) :=
            CompareExchangePointer (A := nat) None (Some result) None in
          match old with
          | None => Some (i, <[i := cell]> slots)
          | Some _ => claim_slot count' (S i) result slots
          end
      | Some (Some _) => claim_slot count' (S i) result slots
      | None => None
      end
  end.

Definition set_node_slots (n : MapNode) (slots : list (option nat)) : MapNode :=
  mkMapNode (node_self n) (node_pBuckets n) slots (node_dwMaxIndex n).

(** [while (walk) { ...; offset = walk->dwMaxIndex; walk = walk->pNext; }]:
    the chain with [result] installed and the index it received, or
    nothing when no node has a free slot. *)
Fixpoint claim_slot_in_chain (INITIAL_HANDLE_TABLE_ARRAY_SIZE : nat)
    (result : nat) (walk : list MapNode) (offset : nat)
    : option (list MapNode * nat) :=
  match walk with
  | [] => None
  | n :: rest =>
      match claim_slot INITIAL_HANDLE_TABLE_ARRAY_SIZE 0 result (node_slots n) with
      | Some (i, slots) => Some (set_node_slots n slots :: rest, i + offset)
      | None =>
          '(rest', index) ←
            claim_slot_in_chain INITIAL_HANDLE_TABLE_ARRAY_SIZE result rest
                                (node_dwMaxIndex n);
          Some (n :: rest', index)
      end
  end.

(** The [for (;;)] of [Ref_InitializeHandleTableBucket], run by one thread
    with no other thread at work: each compare-exchange finds what was
    just read.  [walk] is given by the number of nodes before it.  A
    round that finds no free slot appends a node; with an array size of
    zero this never ends, and the fuel runs out. *)
Fixpoint install_bucket (fuel : nat) (INITIAL_HANDLE_TABLE_ARRAY_SIZE : nat)
    (result n_slots : nat) (walk offset : nat) (d : Directory)
    : option (bool * Directory) :=
  match fuel with
  | 0 => None
  | S fuel' =>
      let chain := dir_chain d in
      match claim_slot_in_chain INITIAL_HANDLE_TABLE_ARRAY_SIZE result
                                (drop walk chain) offset with
      | Some (walk', index) =>
          let bo := bucket_object result d in
          let d1 := set_bucket_object result
                      (mkBucketObject (bo_pTable bo) (bo_tables bo) index) d in
          (* bucketHolder.SuppressRelease() *)
          Some (true, dir_set_chain (take walk chain ++ walk') d1)
      | None =>
          (* [last] is the node the walk ended at *)
          last ← last chain;
          let '(newMap, d1) := dir_alloc d in
          match newMap with
          | None =>
              d2 ← dir_HandleTableBucketHolder_dtor result n_slots false d1;
              Some (false, d2)
          | Some nm =>
              let '(pBuckets, d2) := dir_alloc d1 in
              match pBuckets with
              | None =>
                  d3 ← dir_release nm d2;
                  d4 ← dir_HandleTableBucketHolder_dtor result n_slots false d3;
                  Some (false, d4)
              | Some pB =>
                  let node :=
                    mkMapNode (Some nm) pB
                      (replicate INITIAL_HANDLE_TABLE_ARRAY_SIZE None)
                      (node_dwMaxIndex last + INITIAL_HANDLE_TABLE_ARRAY_SIZE) in
                  (* [last->pNext] is null: the compare-exchange links the node *)
                  let d3 := dir_set_chain (chain ++ [node]) d2 in
                  install_bucket fuel' INITIAL_HANDLE_TABLE_ARRAY_SIZE
                    result n_slots (length chain) (node_dwMaxIndex last) d3
              end
          end
      end
  end.

(** [HndSetHandleTableIndex] writes inside a handle table and leaves no
    trace here.  With the chain empty ([g_HandleTableMap.pBuckets] null)
    the first read of the walk has no defined behaviour. *)
Definition Ref_InitializeHandleTableBucket (fuel : nat)
    (INITIAL_HANDLE_TABLE_ARRAY_SIZE : nat) (bucket : nat) (d : Directory)
    : option (bool * Directory) :=
  let result := bucket in
  let bo := bucket_object result d in
  let d := set_bucket_object result
             (mkBucketObject None (bo_tables bo) (bo_HandleTableIndex bo)) d in
  let n_slots := getNumberOfSlots in
  let '(pT, d) := dir_alloc d in
  let bo := bucket_object result d in
  let d := set_bucket_object result
             (mkBucketObject pT (bo_tables bo) (bo_HandleTableIndex bo)) d in
  match pT with
  | None => Some (false, d)
  | Some _ =>
      let bo := bucket_object result d in
      let d := set_bucket_object result
                 (mkBucketObject pT (replicate n_slots None)
                                 (bo_HandleTableIndex bo)) d in
      match dir_create_handle_tables n_slots 0 result d with
      | (false, d) =>
          d' ← dir_HandleTableBucketHolder_dtor result n_slots false d;
          Some (false, d')
      | (true, d) =>
          match dir_chain d with
          | [] => None
          | _ => install_bucket fuel INITIAL_HANDLE_TABLE_ARRAY_SIZE
                                result n_slots 0 0 d
          end
      end
  end.

(** The walk of [Ref_RemoveHandleTableBucket]. *)
Fixpoint remove_from_chain (pBucket index : nat) (walk : list MapNode)
    (offset : nat) : list MapNode :=
  match walk with
  | [] => []
  | n :: rest =>
      if (index <? node_dwMaxIndex n) && (offset <=? index)
         && bool_decide (node_slots n !! (index - offset) = Some (Some pBucket))
      then set_node_slots n (<[index - offset := None]> (node_slots n)) :: rest
      else n :: remove_from_chain pBucket index rest (node_dwMaxIndex n)
  end.

Definition Ref_RemoveHandleTableBucket (pBucket : nat) (d : Directory)
    : Directory :=
  let index := bo_HandleTableIndex (bucket_object pBucket d) in
  dir_set_chain (remove_from_chain pBucket index (dir_chain d) 0) d.

(** [HndDestroyHandleTable(pBucket->pTable[uCPUindex])] for every index
    below [getNumberOfSlots]; an entry that is missing or null gives no
    result. *)
Fixpoint destroy_tables (count uCPUindex : nat) (tables : list (option block))
    (d : Directory) : option Directory :=
  match count with
  | 0 => Some d
  | S count' =>
      t ← mjoin (tables !! uCPUindex);
      d' ← dir_release t d;
      destroy_tables count' (S uCPUindex) tables d'
  end.

Definition Ref_DestroyHandleTableBucket (pBucket : nat) (d : Directory)
    : option Directory :=
  let d := Ref_RemoveHandleTableBucket pBucket d in
  let bo := bucket_object pBucket d in
  pT ← bo_pTable bo;
  d' ← destroy_tables getNumberOfSlots 0 (bo_tables bo) d;
  dir_release pT d'.

(** [while (walk) { delete [] walk->pBuckets; walk = walk->pNext; }] *)
Fixpoint delete_bucket_arrays (walk : list MapNode) (d : Directory)
    : option Directory :=
  match walk with
  | [] => Some d
  | n :: rest => d' ← dir_release (node_pBuckets n) d;
                 delete_bucket_arrays rest d'
  end.

Definition Ref_Shutdown (d : Directory) : option Directory :=
  d1 ← match dir_contexts d with
       | Some c => d' ← dir_release c d; Some (dir_set_contexts None d')
       | None => Some d
       end;
  match dir_chain d1 with
  | [] => Some d1
  | chain =>
      d2 ← delete_bucket_arrays chain d1;
      Some (dir_set_chain [] d2)
  end.

(** *** Reading the directory *)

(** Every array has [size] entries and [dwMaxIndex] counts the entries up
    to the end of its node, as [Ref_Initialize] and the growth of the
    chain set them. *)
Fixpoint chain_ok (size offset : nat) (chain : list MapNode) : Prop :=
  match chain with
  | [] => True
  | n :: rest =>
      length (node_slots n) = size /\ node_dwMaxIndex n = offset + size /\
      chain_ok size (offset + size) rest
  end.

(** The entries of all arrays, in the order of their indices. *)
Definition directory_slots (chain : list MapNode) : list (option nat) :=
  concat (node_slots <$> chain).

End DirectoryModel.

(** ** More of the concrete collector *)

(** The rest of what the example collector and engine provide: the pinned
    strength and flag, two heaps, a count of promoted bytes of eight for
    each marked object, and an engine with an empty sync-block cache. *)
Definition example_promoted_bytes : @heap_t example_env -> nat -> Z :=
  fun g _ => (8 * Z.of_nat (length (g : list Z)))%Z.

Definition example_host : @GCHost example_env :=
  @Build_GCHost example_env
    2 (* GC_CALL_PINNED *)
    0x800 (* VHT_PINNED *)
    true (* FEATURE_ASYNC_PINNED_HANDLES *)
    true (* FEATURE_JAVAMARSHAL *)
    (fun _ _ _ g => g) (* WalkAsyncPinnedForPromotion *)
    example_promoted_bytes (* GetPromotedBytes *)
    2 (* GetNumberOfHeaps *)
    (fun _ _ _ st => st) (* SyncBlockCacheWeakPtrScan *).

(** The same collector built as a workstation collector. *)
Definition example_workstation : GCEnv := {|
  heap_t := list Z;
  IsPromoted := fun g o => (o =? 0)%Z || existsb (Z.eqb o) g;
  IsConcurrentGCInProgress := fun _ => false;
  RefCountedHandleCallbacks := fun _ o => Z.even o;
  IsServerHeap := false;
  GetTotalProcessorCount := 2;
  IsDestroyedHandleValue := fun o => (o =? 1)%Z;
  ptr_bits := 64;
  FEATURE_VARIABLE_HANDLES := true;
  FEATURE_REFCOUNTED_HANDLES := true;
  FEATURE_SIZED_REF_HANDLES := true;
  FEATURE_WEAK_NATIVE_COM_HANDLES := true;
  VHT_WEAK_SHORT := 0x100;
  VHT_WEAK_LONG := 0x200;
  VHT_STRONG := 0x400;
  HNDGCF_NORMAL := 0;
  HNDGCF_ASYNC := 2;
  HNDGCF_EXTRAINFO := 4
|}.

Definition example_workstation_state : @GcState example_workstation :=
  @mkGcState example_workstation [] [] ∅ [].

(** A visit that moves every object up by [0x1000] and counts nothing. *)
Definition example_workstation_visit (h : Handle)
    (s : @GcState example_workstation) : Handle * @GcState example_workstation :=
  (mkHandle (hType h) (hObj h + 0x1000) (hExtra h), s).

(** Where [example_relocate] moves an object. *)
Definition example_moved (o : Z) : Z :=
  if (o =? 0)%Z then 0%Z else (o + 0x1000)%Z.

(** One handle of every pinning kind, a strong handle, and a variable
    handle that is both strong and pinned. *)
Definition example_pinned : HandleTableMap :=
  [ mkNode
      [ Some (mkBucket
                [ Some [ mkHandle HNDTYPE_PINNED 10 0;
                         mkHandle HNDTYPE_ASYNCPINNED 20 0;
                         mkHandle HNDTYPE_VARIABLE 30 0x800;
                         mkHandle HNDTYPE_VARIABLE 40 0xC00;
                         mkHandle HNDTYPE_STRONG 50 0;
                         mkHandle HNDTYPE_SIZEDREF 60 0 ];
                  Some [ mkHandle HNDTYPE_PINNED 70 0 ] ]
                0) ]
      10 ].

(** The two workers of the election, the second being the faster at the
    compare-exchange. *)
Definition example_schedule : list nat := [0; 1; 1; 0].

(** A directory of one node with two entries, both taken; the bucket at
    address 9 has index 1, its table array is block 1 and its handle
    tables are blocks 2 and 3.  Block 0 is the bucket array of the node
    and block 4 the array of dependent handle contexts. *)
Definition example_directory : Directory :=
  mkDirectory [4; 3; 2; 1; 0] 5 []
    [mkMapNode None 0 [Some 7; Some 9] 2]
    {[ 9 := mkBucketObject (Some 1) [Some 2; Some 3] 1 ]}
    (Some 4).

(** The same directory when the third allocation will fail. *)
Definition example_directory_failing : Directory :=
  mkDirectory [4; 3; 2; 1; 0] 5 [true; true; false]
    [mkMapNode None 0 [Some 7; Some 9] 2]
    {[ 9 := mkBucketObject (Some 1) [Some 2; Some 3] 1 ]}
    (Some 4).

(** * Proofs *)

(** ** The walk visits every handle on the stride exactly once *)

Lemma on_stride_start start limit step :
  start < limit -> on_stride start limit step start.
Proof. intros Hlt. exists 0. lia. Qed.

Lemma on_stride_next start limit step k :
  0 < step -> k <> start ->
  on_stride (start + step) limit step k <-> on_stride start limit step k.
Proof.
  intros Hstep Hne. split; intros [q [Hk Hlt]].
  - exists (S q). lia.
  - destruct q as [|q]; [lia|]. exists q. lia.
Qed.

Lemma on_stride_past start limit step k :
  0 < step -> k < start -> ~ on_stride start limit step k.
Proof. intros Hstep Hlt [q [Hk _]]. lia. Qed.

Lemma on_stride_beyond start limit step k :
  limit <= start -> ~ on_stride start limit step k.
Proof. intros Hle [q [Hk Hlt]]. lia. Qed.

Lemma pot_list_app `{GCEnv} {A} (pa : A -> GcState -> nat) l1 l2 s :
  pot_list pa (l1 ++ l2) s = pot_list pa l1 s + pot_list pa l2 s.
Proof. apply sum_list_with_app. Qed.

Lemma pot_list_cons `{GCEnv} {A} (pa : A -> GcState -> nat) a l s :
  pot_list pa (a :: l) s = pa a s + pot_list pa l s.
Proof. reflexivity. Qed.

Section Framework.
Context `{GCEnv}.
Variable R : GcState -> GcState -> Prop.
Variable visit : Handle -> GcState -> Handle * GcState.
Variable ph : Handle -> GcState -> nat.
Variable cost : GcState -> nat.
Hypothesis law : Lawful R visit ph cost.

Local Abbreviation rel := (rel_at R visit).
Local Abbreviation Spec := (ScanSpec R visit cost).
Local Abbreviation antitone := (antitone R).

Lemma R_refl s : R s s.
Proof. apply (law_refl _ _ _ _ law). Qed.

Lemma R_trans s1 s2 s3 : R s1 s2 -> R s2 s3 -> R s1 s3.
Proof. apply (law_trans _ _ _ _ law). Qed.

Lemma rel_at_weaken V oh oh' s0 s s' s1 :
  R s0 s -> R s' s1 -> rel V oh oh' s s' -> rel V oh oh' s0 s1.
Proof.
  intros H0 H1. destruct oh as [h|], oh' as [h'|]; simpl; try done.
  intros [Hv Hn]. split; [|done].
  intros HV. destruct (Hv HV) as (s2 & Ha & Hb & Hc).
  exists s2. split_and!; [|done|]; eapply R_trans; eauto.
Qed.

Lemma rel_at_same (V : Prop) oh s s' : ~ V -> rel V oh oh s s'.
Proof. intros HV. destruct oh; simpl; [|done]. split; [done|done]. Qed.

Lemma rel_at_None (V V' : Prop) oh' s s' t t' :
  rel V None oh' s s' -> rel V' None oh' t t'.
Proof. by destruct oh'. Qed.

Lemma rel_at_iff (V V' : Prop) oh oh' s s' :
  (V <-> V') -> rel V oh oh' s s' -> rel V' oh oh' s s'.
Proof.
  intros HVV. destruct oh, oh'; simpl; try done.
  intros [Hv Hn]. split; intros ?; [apply Hv|apply Hn]; tauto.
Qed.

Lemma rel_at_then_same (V V2 : Prop) oh oh1 oh' s s1 s' :
  rel V oh oh1 s s1 -> rel V2 oh1 oh' s1 s' -> ~ V2 -> R s1 s' ->
  rel V oh oh' s s'.
Proof.
  intros H1 H2 HV2 HR.
  destruct oh as [h|], oh1 as [h1|], oh' as [h'|]; simpl in *; try done.
  destruct H2 as [_ H2]. rewrite (H2 HV2).
  apply (rel_at_weaken V (Some h) (Some h1) s s s1 s');
    [apply R_refl|done|done].
Qed.

Lemma pot_list_antitone {A} (pa : A -> GcState -> nat) :
  antitone pa -> antitone (pot_list pa).
Proof.
  intros Hpa l s s' HR. induction l as [|a l IH]; [done|].
  rewrite !pot_list_cons. specialize (Hpa a s s' HR). lia.
Qed.

Lemma pot_opt_antitone {A} (pa : A -> GcState -> nat) :
  antitone pa -> antitone (pot_opt pa).
Proof. intros Hpa [a|] s s' HR; simpl; [by apply Hpa|done]. Qed.

Lemma ph_antitone : antitone ph.
Proof. intros h s s' HR. by apply (law_ph _ _ _ _ law). Qed.

Lemma pot_bucket_antitone : antitone (pot_bucket ph).
Proof.
  intros b s s' HR. unfold pot_bucket, pot_pTable.
  apply pot_list_antitone; [|done].
  apply pot_opt_antitone, pot_list_antitone, ph_antitone.
Qed.

Lemma pot_node_antitone : antitone (pot_node ph).
Proof.
  intros b s s' HR. unfold pot_node.
  apply pot_list_antitone; [|done].
  apply pot_opt_antitone, pot_bucket_antitone.
Qed.

(** A table: every handle is visited, in order. *)
Lemma scan_table_spec :
  Spec lk_table (pot_list ph) V_all (fun t st => Some (scan_table visit t st)).
Proof.
  intros t. induction t as [|h t IH]; intros st t' st' Hscan; simpl in Hscan.
  - simplify_eq. split_and!; [apply R_refl|done|].
    intros [|j [|]]; done.
  - destruct (visit h st) as [h1 st1] eqn:Hv.
    destruct (scan_table visit t st1) as [t1 st2] eqn:Ht.
    injection Hscan as <- <-.
    destruct (IH st1 t1 st2) as (HR & Hpot & Hrel); [by rewrite Ht|].
    pose proof (law_visit _ _ _ _ law h st) as HR1.
    pose proof (law_cost _ _ _ _ law h st) as Hc.
    rewrite Hv in HR1, Hc. simpl in HR1, Hc.
    split_and!.
    + eapply R_trans; eauto.
    + rewrite !pot_list_cons.
      pose proof (ph_antitone h1 st1 st2 HR).
      pose proof (pot_list_antitone ph ph_antitone t st st1 HR1). lia.
    + intros [|[|j] [|]]; simpl; try done.
      * split; [|done]. intros _. exists st.
        rewrite Hv. split_and!; [apply R_refl|done|done].
      * specialize (Hrel [j]). simpl in Hrel.
        eapply rel_at_weaken; [exact HR1|apply R_refl|exact Hrel].
Qed.

Lemma scan_list_spec {A} (lk : A -> list nat -> option Handle)
    (pot : A -> GcState -> nat) V f :
  antitone pot -> Spec lk pot V f ->
  Spec (lk_list lk) (pot_list pot) (V_tail V) (scan_list f).
Proof.
  intros Hanti Hf l. induction l as [|a l IH]; intros st l' st' Hscan; simpl in Hscan.
  - simplify_eq. split_and!; [apply R_refl|done|].
    intros [|n p]; simpl; done.
  - destruct (f a st) as [[a1 st1]|] eqn:Hfa; simpl in Hscan; [|done].
    destruct (scan_list f l st1) as [[l1 st2]|] eqn:Hl; simpl in Hscan; [|done].
    simplify_eq.
    destruct (Hf _ _ _ _ Hfa) as (HR1 & Hp1 & Hrel1).
    destruct (IH _ _ _ Hl) as (HR2 & Hp2 & Hrel2).
    split_and!.
    + eapply R_trans; eauto.
    + rewrite !pot_list_cons.
      pose proof (Hanti a1 st1 st' HR2).
      pose proof (pot_list_antitone pot Hanti l st st1 HR1). lia.
    + intros [|[|n] p]; simpl; [done| |].
      * eapply rel_at_weaken; [apply R_refl|exact HR2|apply Hrel1].
      * specialize (Hrel2 (n :: p)). simpl in Hrel2.
        eapply rel_at_weaken; [exact HR1|apply R_refl|exact Hrel2].
Qed.

Lemma scan_opt_spec {A} (lk : A -> list nat -> option Handle)
    (pot : A -> GcState -> nat) V f :
  Spec lk pot V f -> Spec (lk_opt lk) (pot_opt pot) V (scan_opt f).
Proof.
  intros Hf [a|] st oa' st' Hscan; simpl in Hscan.
  - destruct (f a st) as [[a1 st1]|] eqn:Hfa; simpl in Hscan; [|done].
    simplify_eq. simpl. by apply Hf.
  - simplify_eq. split_and!; [apply R_refl|done|done].
Qed.

Lemma pot_list_insert {A} (pa : A -> GcState -> nat) l i x y s :
  l !! i = Some x ->
  pot_list pa (<[i:=y]> l) s + pa x s = pot_list pa l s + pa y s.
Proof.
  intros Hl. pose proof (lookup_lt_Some _ _ _ Hl) as Hlt.
  rewrite insert_take_drop; [|done].
  assert (pot_list pa l s = pot_list pa (take i l ++ x :: drop (S i) l) s)
    as -> by (by rewrite take_drop_middle).
  rewrite !pot_list_app, !pot_list_cons. lia.
Qed.

Section Stride.
Variable act : table_scan.
Hypothesis act_spec :
  Spec lk_table (pot_list ph) V_all (fun t st => Some (act t st)).

(** The tables of a bucket: the ones on the stride are scanned once, the
    others are left alone. *)
Lemma scan_slots_spec fuel : forall start limit step, 0 < step ->
  Spec lk_pTable (pot_pTable ph) (V_head (on_stride start limit step))
       (scan_slots fuel act start limit step).
Proof.
  induction fuel as [|fuel IH]; intros start limit step Hstep pT st pT' st' Hscan;
    simpl in Hscan; destruct (limit <=? start) eqn:Hle.
  1,3: apply Nat.leb_le in Hle; simplify_eq;
       (split_and!; [apply R_refl|done|]);
       intros [|k p]; [done|]; apply rel_at_same; simpl;
       by apply on_stride_beyond.
  - done.
  - apply Nat.leb_gt in Hle.
    destruct (pT !! start) as [[t|]|] eqn:Hlk.
    + destruct (act t st) as [t1 st1] eqn:Hact.
      destruct (act_spec t st t1 st1) as (HR1 & Hp1 & Hrel1); [by rewrite Hact|].
      destruct (IH _ _ _ Hstep _ _ _ _ Hscan) as (HR2 & Hp2 & Hrel2).
      split_and!.
      * eapply R_trans; eauto.
      * unfold pot_pTable in *.
        pose proof (pot_list_insert (pot_opt (pot_list ph)) pT start
                      (Some t) (Some t1) st1 Hlk) as Hins. simpl in Hins.
        pose proof (pot_list_insert (pot_opt (pot_list ph)) pT start
                      (Some t) (Some t) st1 Hlk) as Hins1.
        pose proof (pot_list_insert (pot_opt (pot_list ph)) pT start
                      (Some t) (Some t) st Hlk) as Hins0.
        simpl in Hins1, Hins0.
        assert (Hrest : pot_list (pot_opt (pot_list ph)) pT st1 + pot_list ph t st
                        <= pot_list (pot_opt (pot_list ph)) pT st + pot_list ph t st1).
        { assert (Hmid : forall s, pot_list (pot_opt (pot_list ph)) pT s
                    = pot_list (pot_opt (pot_list ph))
                        (take start pT ++ Some t :: drop (S start) pT) s)
            by (intros s; by rewrite take_drop_middle).
          rewrite !Hmid, !pot_list_app, !pot_list_cons. simpl.
          pose proof (pot_list_antitone _
                        (pot_opt_antitone _ (pot_list_antitone _ ph_antitone))
                        (take start pT) st st1 HR1).
          pose proof (pot_list_antitone _
                        (pot_opt_antitone _ (pot_list_antitone _ ph_antitone))
                        (drop (S start) pT) st st1 HR1).
          lia. }
        unfold HandleTable in *. lia.
      * intros [|k p]; [by specialize (Hrel2 [])|].
        specialize (Hrel2 (k :: p)). simpl in Hrel2 |- *.
        destruct (decide (k = start)) as [->|Hne].
        -- rewrite list_lookup_insert_eq in Hrel2
             by (by eapply lookup_lt_Some).
           rewrite Hlk. simpl in *.
           eapply (rel_at_then_same _ _ _ (lk_table t1 p)); [|exact Hrel2| |done].
           ++ eapply rel_at_iff; [|apply (Hrel1 p)].
              unfold V_all. split; [intros _; by apply on_stride_start|done].
           ++ apply on_stride_past; lia.
        -- rewrite list_lookup_insert_ne in Hrel2 by done.
           eapply rel_at_weaken; [exact HR1|apply R_refl|].
           eapply rel_at_iff; [|exact Hrel2]. by apply on_stride_next.
    + destruct (IH _ _ _ Hstep _ _ _ _ Hscan) as (HR2 & Hp2 & Hrel2).
      split_and!; [done|done|].
      intros [|k p]; [by specialize (Hrel2 [])|].
      specialize (Hrel2 (k :: p)).
      destruct (decide (k = start)) as [->|Hne].
      * assert (lk_pTable pT (start :: p) = None) as HN
          by (simpl; by rewrite Hlk).
        rewrite HN in Hrel2 |- *. eapply rel_at_None, Hrel2.
      * eapply rel_at_iff; [|exact Hrel2]. by apply on_stride_next.
    + destruct (IH _ _ _ Hstep _ _ _ _ Hscan) as (HR2 & Hp2 & Hrel2).
      split_and!; [done|done|].
      intros [|k p]; [by specialize (Hrel2 [])|].
      specialize (Hrel2 (k :: p)).
      destruct (decide (k = start)) as [->|Hne].
      * assert (lk_pTable pT (start :: p) = None) as HN
          by (simpl; by rewrite Hlk).
        rewrite HN in Hrel2 |- *. eapply rel_at_None, Hrel2.
      * eapply rel_at_iff; [|exact Hrel2]. by apply on_stride_next.
Qed.

Lemma scan_slots_total fuel : forall start limit step pT st,
  0 < step -> limit <= start + fuel ->
  is_Some (scan_slots fuel act start limit step pT st).
Proof.
  induction fuel as [|fuel IH]; intros start limit step pT st Hstep Hfuel;
    simpl; destruct (limit <=? start) eqn:Hle; try done.
  - apply Nat.leb_gt in Hle. lia.
  - apply Nat.leb_gt in Hle.
    destruct (pT !! start) as [[t|]|]; [destruct (act t st)| |];
      apply IH; lia.
Qed.

Lemma scan_bucket_spec sc : 0 < thread_count sc ->
  Spec lk_bucket (pot_bucket ph) (V_head (visited sc)) (scan_bucket act sc).
Proof.
  intros Hstep b st b' st' Hscan. unfold scan_bucket in Hscan.
  destruct (scan_slots _ _ _ _ _ _ _) as [[t st1]|] eqn:Hs; simpl in Hscan; [|done].
  simplify_eq.
  destruct (scan_slots_spec _ _ _ _ Hstep _ _ _ _ Hs) as (HR & Hp & Hrel).
  split_and!; done.
Qed.

Lemma scan_node_spec sc : 0 < thread_count sc ->
  Spec lk_node (pot_node ph) (V_tail (V_head (visited sc))) (scan_node act sc).
Proof.
  intros Hstep n st n' st' Hscan. unfold scan_node in Hscan.
  destruct (scan_list _ _ _) as [[bs st1]|] eqn:Hs; simpl in Hscan; [|done].
  simplify_eq.
  eapply (scan_list_spec (lk_opt lk_bucket) (pot_opt (pot_bucket ph))) in Hs.
  - destruct Hs as (HR & Hp & Hrel). split_and!; done.
  - apply pot_opt_antitone, pot_bucket_antitone.
  - apply scan_opt_spec, scan_bucket_spec, Hstep.
Qed.

(** The whole map. *)
Lemma scan_handle_tables_spec sc : 0 < thread_count sc ->
  Spec lk_map (pot_map ph) (V_map sc) (scan_handle_tables act sc).
Proof.
  intros Hstep. unfold scan_handle_tables, lk_map, pot_map, V_map.
  apply scan_list_spec; [apply pot_node_antitone|by apply scan_node_spec].
Qed.

End Stride.
End Framework.

Section Totality.
Context `{GCEnv}.

Lemma scan_list_total {A} (f : A -> GcState -> option (A * GcState)) :
  (forall a st, is_Some (f a st)) -> forall l st, is_Some (scan_list f l st).
Proof.
  intros Hf l. induction l as [|a l IH]; intros st; simpl; [done|].
  destruct (Hf a st) as [[a1 st1] ->]. simpl.
  destruct (IH st1) as [[l1 st2] ->]. done.
Qed.

(** With a stride of at least one the walk returns. *)
Lemma scan_handle_tables_total act sc map st :
  0 < thread_count sc -> is_Some (scan_handle_tables act sc map st).
Proof.
  intros Hstep. apply scan_list_total. clear map st. intros n st.
  unfold scan_node.
  destruct (scan_list_total (scan_opt (scan_bucket act sc))) with (l := pBuckets n) (st := st)
    as [[bs st1] ->]; [|done].
  intros [b|] st0; simpl; [|done]. unfold scan_bucket.
  destruct (scan_slots_total act getNumberOfSlots (getSlotNumber sc)
              getNumberOfSlots (getThreadCount sc) (pTable b) st0)
    as [[t st1] ->]; [done|lia|done].
Qed.

End Totality.

(** ** The callbacks, one handle at a time *)

Section Callbacks.
Context `{GCEnv}.

Lemma wrap_offset (interior old new : Z) :
  wrap (wrap (interior + wrap (new - old)) - new) = wrap (interior - old).
Proof.
  unfold wrap.
  rewrite Zminus_mod_idemp_l.
  replace (interior + (new - old) mod 2 ^ ptr_bits - new)%Z
    with ((new - old) mod 2 ^ ptr_bits + (interior - new))%Z by lia.
  rewrite Zplus_mod_idemp_l. f_equal. lia.
Qed.

Lemma PromoteRefCounted_slot o e sc fn st :
  (PromoteRefCounted o e sc fn st).1 = (o, e).
Proof.
  unfold PromoteRefCounted.
  destruct (negb (HndIsNullOrDestroyedHandle o) && negb (IsPromoted (gc_heap st) o));
    [|done].
  destruct (RefCountedHandleCallbacks (gc_heap st) o); [|done].
  destruct (call_promote _ _ _ _ _). done.
Qed.

Lemma scan_handle_type {LP2} (cb : HANDLESCANPROC LP2) sc lp2 types h st :
  hType (scan_handle cb sc lp2 types h st).1 = hType h.
Proof.
  unfold scan_handle. case_bool_decide; [|done].
  destruct (cb _ _ _ _ _) as [[o e] st']. done.
Qed.

Lemma scan_handle_skip {LP2} (cb : HANDLESCANPROC LP2) sc lp2 types h st :
  hType h ∉ types -> scan_handle cb sc lp2 types h st = (h, st).
Proof. intros Hn. unfold scan_handle. by rewrite bool_decide_eq_false_2. Qed.

Lemma scan_handle_hit {LP2} (cb : HANDLESCANPROC LP2) sc lp2 types h st :
  hType h ∈ types ->
  scan_handle cb sc lp2 types h st =
  (mkHandle (hType h) (cb (hObj h) (hExtra h) sc lp2 st).1.1
                      (cb (hObj h) (hExtra h) sc lp2 st).1.2,
   (cb (hObj h) (hExtra h) sc lp2 st).2).
Proof.
  intros Hn. unfold scan_handle. rewrite bool_decide_eq_true_2 by done.
  destruct (cb _ _ _ _ _) as [[o e] st']. done.
Qed.

Lemma CheckPromoted_state {LP2} o e sc (lp2 : LP2) st :
  (CheckPromoted o e sc lp2 st).2 = st.
Proof. unfold CheckPromoted. by destruct (IsPromoted _ _). Qed.

Lemma ClearDependentHandle_state {LP2} o e sc (lp2 : LP2) st :
  (ClearDependentHandle o e sc lp2 st).2 = st.
Proof. unfold ClearDependentHandle. by destruct (IsPromoted _ _). Qed.

Lemma VariableTraceDispatcher_state {LP2} (info : VARSCANINFO LP2) o e sc st :
  (forall o e, (pfnTrace info o e sc (vsi_lp2 info) st).2 = st) ->
  (VariableTraceDispatcher o e sc info st).2 = st.
Proof.
  intros Hp. unfold VariableTraceDispatcher.
  destruct (negb _); [|done].
  specialize (Hp o NULL). destruct (pfnTrace _ _ _ _ _ _) as [[o' e'] st']. done.
Qed.

Lemma scan_handle_state {LP2} (cb : HANDLESCANPROC LP2) sc lp2 types :
  (forall o e st, (cb o e sc lp2 st).2 = st) ->
  forall h st, (scan_handle cb sc lp2 types h st).2 = st.
Proof.
  intros Hcb h st. unfold scan_handle. case_bool_decide; [|done].
  specialize (Hcb (hObj h) (hExtra h) st).
  destruct (cb _ _ _ _ _) as [[o e] st']. done.
Qed.

(** ** Orders on states that the scans respect *)

Lemma lawful_eq visit :
  (forall h s, (visit h s).2 = s) -> Lawful eq visit no_pot no_cost.
Proof.
  intros Hv. split; try done; intros; subst; done.
Qed.

Lemma lawful_any visit : Lawful R_any visit no_pot no_cost.
Proof. split; done. Qed.

Lemma on_stride_dec start limit step k :
  0 < step -> on_stride start limit step k \/ ~ on_stride start limit step k.
Proof.
  intros Hstep.
  destruct (decide (start <= k /\ k < limit /\ (k - start) mod step = 0))
    as [(H1 & H2 & H3)|Hn].
  - left. exists ((k - start) / step). split; [|done].
    pose proof (Nat.div_mod (k - start) step). lia.
  - right. intros [q [Hk Hlt]]. apply Hn. split_and!; [lia|done|].
    replace (k - start) with (q * step) by lia. apply Nat.Div0.mod_mul.
Qed.

(** Under a server heap the strides of the workers [0 .. count - 1] split
    the tables of a bucket: each table is on the stride of exactly one
    worker. *)
Lemma stride_partition (count k : nat) (conc : bool) :
  IsServerHeap = true -> 0 < count -> k < getNumberOfSlots ->
  exists w, w < count /\ visited (mkScanContext w count conc) k /\
    forall w', w' < count -> visited (mkScanContext w' count conc) k -> w' = w.
Proof.
  intros Hserver Hcount Hk. exists (k mod count).
  unfold visited, on_stride, getSlotNumber, getThreadCount. rewrite Hserver.
  simpl. split_and!.
  - apply Nat.mod_upper_bound. lia.
  - exists (k / count). split; [|done].
    pose proof (Nat.div_mod_eq k count). lia.
  - intros w' Hw' [q [Hq _]]. rewrite Hq.
    rewrite Nat.Div0.mod_add. by rewrite Nat.mod_small.
Qed.

Lemma V_map_dec sc p : 0 < thread_count sc -> V_map sc p \/ ~ V_map sc p.
Proof.
  intros Hstep. destruct p as [|c [|i [|k p]]]; simpl; try tauto.
  by apply on_stride_dec.
Qed.

End Callbacks.

(** ** Scans that leave the collector alone *)

Section PureScans.
Context `{GCEnv}.

Lemma act_spec_of_eq R visit ph cost act :
  Lawful R visit ph cost ->
  (forall t s, act t s = scan_table visit t s) ->
  ScanSpec R visit cost lk_table (pot_list ph) V_all
           (fun t st => Some (act t st)).
Proof.
  intros law Heq t st t' st' Hs. rewrite Heq in Hs.
  by apply (scan_table_spec R visit ph cost law).
Qed.

(** Such a scan rewrites each handle on the worker's stride with the
    callback's answer at the one state there is. *)
Lemma pure_scan visit act sc map st :
  (forall h s, (visit h s).2 = s) ->
  (forall t s, act t s = scan_table visit t s) ->
  0 < thread_count sc ->
  exists map', scan_handle_tables act sc map st = Some (map', st) /\
    forall p,
      match lk_map map p with
      | None => lk_map map' p = None
      | Some h => (V_map sc p -> lk_map map' p = Some (visit h st).1) /\
                  (~ V_map sc p -> lk_map map' p = Some h)
      end.
Proof.
  intros Hpure Hact Hstep.
  destruct (scan_handle_tables_total act sc map st Hstep) as [[map' st'] Hs].
  destruct (scan_handle_tables_spec eq visit no_pot no_cost
              (lawful_eq visit Hpure) act
              (act_spec_of_eq _ _ _ _ _ (lawful_eq visit Hpure) Hact)
              sc Hstep map st map' st' Hs) as (HR & _ & Hrel).
  subst st'. exists map'. split; [done|]. intros p. specialize (Hrel p).
  destruct (lk_map map p) as [h|], (lk_map map' p) as [h'|];
    simpl in Hrel; try done.
  destruct Hrel as [Hv Hn]. split.
  - intros HV. destruct (Hv HV) as (s1 & <- & -> & _). done.
  - intros HV. by rewrite (Hn HV).
Qed.

Lemma CheckPromoted_visit {LP2} sc (lp2 : LP2) types h st :
  hType h ∈ types ->
  (scan_handle CheckPromoted sc lp2 types h st).1 = check_promoted_result st h.
Proof.
  intros Hin. rewrite scan_handle_hit by done.
  unfold CheckPromoted, check_promoted_result.
  destruct h as [t o e]; simpl. by destruct (IsPromoted _ _).
Qed.

Lemma VariableTraceDispatcher_CheckPromoted_visit {LP2} sc (lp2 : LP2) mask h st :
  (scan_handle VariableTraceDispatcher sc
     (mkVARSCANINFO mask CheckPromoted lp2) [HNDTYPE_VARIABLE] h st).1 =
  if bool_decide (hType h = HNDTYPE_VARIABLE)
     && negb (Z.land (hExtra h) mask =? 0)%Z
  then check_promoted_result st h else h.
Proof.
  destruct (decide (hType h = HNDTYPE_VARIABLE)) as [Hv|Hv].
  - rewrite scan_handle_hit by (rewrite Hv; apply list_elem_of_here).
    rewrite (bool_decide_eq_true_2 _ Hv).
    unfold VariableTraceDispatcher, CheckPromoted, check_promoted_result. simpl.
    destruct h as [t o e]; simpl in *.
    destruct (negb (Z.land e mask =? 0)%Z); simpl; [|by subst].
    by destruct (IsPromoted _ _).
  - rewrite scan_handle_skip
      by (rewrite list_elem_of_singleton; exact Hv).
    by rewrite (bool_decide_eq_false_2 _ Hv).
Qed.

(** The two passes of a weak check: the typed scan, then the variable
    handles whose strength meets [mask]. *)
Lemma weak_check_phase types mask condemned maxgen flags sc map st :
  HNDTYPE_VARIABLE ∉ types -> 0 < thread_count sc ->
  exists map',
    ('(map1, st1) ← scan_handle_tables
        (fun hTable => HndScanHandlesForGC hTable CheckPromoted sc tt
                         types (length types) condemned maxgen flags) sc map st;
     if FEATURE_VARIABLE_HANDLES
     then TraceVariableHandles CheckPromoted sc tt mask
                               condemned maxgen flags map1 st1
     else Some (map1, st1)) = Some (map', st) /\
    forall c i k j h, handle_at map c i k j = Some h ->
      (visited sc k ->
       handle_at map' c i k j =
       Some (if weak_checked types mask h then check_promoted_result st h else h)) /\
      (~ visited sc k -> handle_at map' c i k j = Some h).
Proof.
  intros Hnv Hstep.
  destruct (pure_scan (scan_handle CheckPromoted sc tt types)
              (fun hTable => HndScanHandlesForGC hTable CheckPromoted sc tt
                               types (length types) condemned maxgen flags)
              sc map st) as (map1 & Hs1 & Hrel1); [| |done|].
  { apply scan_handle_state. intros. apply CheckPromoted_state. }
  { intros t s. unfold HndScanHandlesForGC. by rewrite firstn_all. }
  rewrite Hs1. simpl.
  assert (Hfirst : forall c i k j h, handle_at map c i k j = Some h ->
            (visited sc k -> handle_at map1 c i k j =
               Some (if bool_decide (hType h ∈ types)
                     then check_promoted_result st h else h)) /\
            (~ visited sc k -> handle_at map1 c i k j = Some h)).
  { intros c i k j h Hh. specialize (Hrel1 [c; i; k; j]).
    unfold handle_at in *. rewrite Hh in Hrel1. destruct Hrel1 as [Hv Hn].
    split; [|done]. intros HV. rewrite (Hv HV). f_equal.
    case_bool_decide as Hin; [by apply CheckPromoted_visit|].
    by rewrite scan_handle_skip. }
  destruct FEATURE_VARIABLE_HANDLES eqn:Hfeat.
  - unfold TraceVariableHandles.
    destruct (pure_scan
                (scan_handle VariableTraceDispatcher sc
                   (mkVARSCANINFO mask CheckPromoted tt) [HNDTYPE_VARIABLE])
                (fun hTable => HndScanHandlesForGC hTable VariableTraceDispatcher sc
                                 (mkVARSCANINFO mask CheckPromoted tt)
                                 [HNDTYPE_VARIABLE] 1 condemned maxgen
                                 (Z.lor HNDGCF_EXTRAINFO flags))
                sc map1 st) as (map2 & Hs2 & Hrel2); [| |done|].
    { apply scan_handle_state. intros. apply VariableTraceDispatcher_state.
      intros. apply CheckPromoted_state. }
    { done. }
    exists map2. split; [done|].
    intros c i k j h Hh. destruct (Hfirst c i k j h Hh) as [Hv1 Hn1].
    specialize (Hrel2 [c; i; k; j]). unfold handle_at in *.
    split.
    + intros HV. rewrite (Hv1 HV) in Hrel2. destruct Hrel2 as [Hv2 _].
      rewrite (Hv2 HV). f_equal.
      rewrite VariableTraceDispatcher_CheckPromoted_visit.
      unfold weak_checked. rewrite Hfeat.
      case_bool_decide as Hin; simpl.
      * assert (hType h <> HNDTYPE_VARIABLE) as Hne by (intros Heq; by rewrite Heq in Hin).
        assert (hType (check_promoted_result st h) = hType h) as Ht
          by (unfold check_promoted_result; by destruct (IsPromoted _ _)).
        rewrite Ht. by rewrite (bool_decide_eq_false_2 _ Hne).
      * done.
    + intros HV. rewrite (Hn1 HV) in Hrel2. by apply Hrel2.
  - exists map1. split; [done|].
    intros c i k j h Hh. destruct (Hfirst c i k j h Hh) as [Hv1 Hn1].
    split; [|done]. intros HV. rewrite (Hv1 HV).
    unfold weak_checked. rewrite Hfeat. simpl. by rewrite orb_false_r.
Qed.

Lemma Ref_CheckAlive_types_spec t :
  t ∈ Ref_CheckAlive_types <->
  t = HNDTYPE_WEAK_SHORT \/
  (FEATURE_WEAK_NATIVE_COM_HANDLES = true /\ t = HNDTYPE_WEAK_NATIVE_COM).
Proof.
  unfold Ref_CheckAlive_types.
  destruct FEATURE_WEAK_NATIVE_COM_HANDLES; simpl;
    rewrite ?elem_of_cons, elem_of_nil; intuition congruence.
Qed.

Lemma Ref_CheckReachable_types_spec t :
  t ∈ Ref_CheckReachable_types <->
  t = HNDTYPE_WEAK_LONG \/
  (FEATURE_REFCOUNTED_HANDLES = true /\ t = HNDTYPE_REFCOUNTED) \/
  t = HNDTYPE_WEAK_INTERIOR_POINTER.
Proof.
  unfold Ref_CheckReachable_types.
  destruct FEATURE_REFCOUNTED_HANDLES; simpl;
    rewrite ?elem_of_cons, elem_of_nil; intuition congruence.
Qed.

Lemma Ref_CheckAlive_result condemned maxgen sc map st :
  0 < thread_count sc ->
  exists map', Ref_CheckAlive condemned maxgen sc map st = Some (map', st) /\
    forall c i k j h, handle_at map c i k j = Some h ->
      (visited sc k ->
       handle_at map' c i k j =
       Some (if weak_checked Ref_CheckAlive_types VHT_WEAK_SHORT h
             then check_promoted_result st h else h)) /\
      (~ visited sc k -> handle_at map' c i k j = Some h).
Proof.
  intros Hstep. apply weak_check_phase; [|done].
  rewrite Ref_CheckAlive_types_spec. intros [?|[_ ?]]; done.
Qed.

Lemma Ref_CheckReachable_result condemned maxgen sc map st :
  0 < thread_count sc ->
  exists map', Ref_CheckReachable condemned maxgen sc map st = Some (map', st) /\
    forall c i k j h, handle_at map c i k j = Some h ->
      (visited sc k ->
       handle_at map' c i k j =
       Some (if weak_checked Ref_CheckReachable_types VHT_WEAK_LONG h
             then check_promoted_result st h else h)) /\
      (~ visited sc k -> handle_at map' c i k j = Some h).
Proof.
  intros Hstep. apply weak_check_phase; [|done].
  rewrite Ref_CheckReachable_types_spec. intros [?|[[_ ?]|?]]; done.
Qed.

End PureScans.

(** ** Scans that call the collector *)

Section TracingScans.
Context `{GCEnv}.

Lemma lawful_scan_handle {LP2} (R : GcState -> GcState -> Prop)
    (cb : HANDLESCANPROC LP2) sc lp2 types :
  (forall s, R s s) -> (forall s1 s2 s3, R s1 s2 -> R s2 s3 -> R s1 s3) ->
  (forall o e st, R st (cb o e sc lp2 st).2) ->
  Lawful R (scan_handle cb sc lp2 types) no_pot no_cost.
Proof.
  intros Hrefl Htrans Hcb. split; try done.
  intros h s. unfold scan_handle. case_bool_decide; [|apply Hrefl].
  specialize (Hcb (hObj h) (hExtra h) s).
  destruct (cb _ _ _ _ _) as [[o e] st']. done.
Qed.

Lemma VariableTraceDispatcher_R {LP2} (R : GcState -> GcState -> Prop)
    (info : VARSCANINFO LP2) sc :
  (forall s, R s s) ->
  (forall o e st, R st (pfnTrace info o e sc (vsi_lp2 info) st).2) ->
  forall o e st, R st (VariableTraceDispatcher o e sc info st).2.
Proof.
  intros Hrefl Hp o e st. unfold VariableTraceDispatcher.
  destruct (negb _); [|apply Hrefl].
  specialize (Hp o NULL st). destruct (pfnTrace _ _ _ _ _ _) as [[o' e'] st']. done.
Qed.

(** One pass of an entry point, which a build or a scan context can switch
    off: what becomes of a handle. *)
Lemma pass_facts {LP2} (R : GcState -> GcState -> Prop) (b : bool)
    (cb : HANDLESCANPROC LP2) lp2 types act sc map st :
  (forall s, R s s) -> (forall s1 s2 s3, R s1 s2 -> R s2 s3 -> R s1 s3) ->
  (b = true -> forall o e s, R s (cb o e sc lp2 s).2) ->
  (forall t s, act t s = scan_table (scan_handle cb sc lp2 types) t s) ->
  0 < thread_count sc ->
  exists map' st',
    (if b then scan_handle_tables act sc map st else Some (map, st))
    = Some (map', st') /\
    R st st' /\
    forall p h, lk_map map p = Some h ->
      exists h', lk_map map' p = Some h' /\ hType h' = hType h /\
        (b = true -> V_map sc p -> hType h ∈ types ->
         exists s1, R st s1 /\
           h' = mkHandle (hType h) (cb (hObj h) (hExtra h) sc lp2 s1).1.1
                         (cb (hObj h) (hExtra h) sc lp2 s1).1.2 /\
           R (cb (hObj h) (hExtra h) sc lp2 s1).2 st') /\
        (b = false \/ ~ V_map sc p \/ hType h ∉ types -> h' = h).
Proof.
  intros Hrefl Htrans Hcb Hact Hstep. destruct b.
  - pose proof (lawful_scan_handle R cb sc lp2 types Hrefl Htrans (Hcb eq_refl))
      as law.
    destruct (scan_handle_tables_total act sc map st Hstep) as [[map' st'] Hs].
    destruct (scan_handle_tables_spec R _ no_pot no_cost law act
                (act_spec_of_eq _ _ _ _ _ law Hact)
                sc Hstep map st map' st' Hs) as (HR & _ & Hrel).
    exists map', st'. split_and!; [done|done|].
    intros p h Hh. specialize (Hrel p). rewrite Hh in Hrel.
    destruct (lk_map map' p) as [h'|]; simpl in Hrel; [|done].
    destruct Hrel as [Hv Hn]. exists h'. split; [done|].
    destruct (V_map_dec sc p Hstep) as [HV|HV].
    + destruct (Hv HV) as (s1 & HR1 & -> & HR2). split_and!.
      * apply scan_handle_type.
      * intros _ _ Hin. exists s1. rewrite scan_handle_hit in HR2 |- * by done.
        done.
      * intros [?|[?|Hnin]]; [done|done|]. by rewrite scan_handle_skip.
    + rewrite (Hn HV). split_and!; done.
  - exists map, st. split_and!; [done|apply Hrefl|].
    intros p h Hh. exists h. split_and!; done.
Qed.

Lemma Ref_TraceNormalRoots_unfold condemned maxgen sc fn map st :
  Ref_TraceNormalRoots condemned maxgen sc fn map st =
  '(map1, st1) ←
     (if true then
        scan_handle_tables
          (fun hTable => HndScanHandlesForGC hTable PromoteObject sc fn
             Ref_TraceNormalRoots_types
             (Ref_TraceNormalRoots_uTypeCount condemned maxgen st)
             condemned maxgen (scan_flags sc)) sc map st
      else Some (map, st));
  '(map2, st2) ←
     (if FEATURE_VARIABLE_HANDLES then
        scan_handle_tables
          (fun hTable => HndScanHandlesForGC hTable VariableTraceDispatcher sc
             (mkVARSCANINFO VHT_STRONG PromoteObject fn) [HNDTYPE_VARIABLE] 1
             condemned maxgen (Z.lor HNDGCF_EXTRAINFO (scan_flags sc)))
          sc map1 st1
      else Some (map1, st1));
  (if FEATURE_REFCOUNTED_HANDLES && negb (concurrent sc) then
     scan_handle_tables
       (fun hTable => HndScanHandlesForGC hTable PromoteRefCounted sc fn
          [HNDTYPE_REFCOUNTED] 1 condemned maxgen (scan_flags sc)) sc map2 st2
   else Some (map2, st2)).
Proof.
  unfold Ref_TraceNormalRoots, TraceVariableHandles.
  destruct (scan_handle_tables _ sc map st) as [[map1 st1]|]; simpl; [|done].
  destruct FEATURE_VARIABLE_HANDLES; simpl.
  - destruct (scan_handle_tables _ sc map1 st1) as [[map2 st2]|]; simpl; [|done].
    by destruct FEATURE_REFCOUNTED_HANDLES, (concurrent sc).
  - by destruct FEATURE_REFCOUNTED_HANDLES, (concurrent sc).
Qed.

Lemma Ref_TraceNormalRoots_scanned_types condemned maxgen st t :
  t ∈ take (Ref_TraceNormalRoots_uTypeCount condemned maxgen st)
           Ref_TraceNormalRoots_types <->
  t = HNDTYPE_STRONG \/
  (t = HNDTYPE_SIZEDREF /\ FEATURE_SIZED_REF_HANDLES = true /\
   (maxgen <=? condemned) && negb (IsConcurrentGCInProgress (gc_heap st)) = false).
Proof.
  unfold Ref_TraceNormalRoots_uTypeCount, Ref_TraceNormalRoots_types.
  destruct ((maxgen <=? condemned) && negb (IsConcurrentGCInProgress (gc_heap st)));
    destruct FEATURE_SIZED_REF_HANDLES; simpl;
    rewrite ?elem_of_cons, elem_of_nil; intuition congruence.
Qed.

(** The three passes of [Ref_TraceNormalRoots] under one order on states. *)
Lemma Ref_TraceNormalRoots_facts (R : GcState -> GcState -> Prop)
    condemned maxgen sc fn map st :
  (forall s, R s s) -> (forall s1 s2 s3, R s1 s2 -> R s2 s3 -> R s1 s3) ->
  (forall o e s, R s (PromoteObject o e sc fn s).2) ->
  (FEATURE_REFCOUNTED_HANDLES && negb (concurrent sc) = true ->
   forall o e s, R s (PromoteRefCounted o e sc fn s).2) ->
  0 < thread_count sc ->
  exists map' st',
    Ref_TraceNormalRoots condemned maxgen sc fn map st = Some (map', st') /\
    R st st' /\
    forall p h, lk_map map p = Some h ->
      exists h', lk_map map' p = Some h' /\
        (V_map sc p ->
         hType h ∈ take (Ref_TraceNormalRoots_uTypeCount condemned maxgen st)
                        Ref_TraceNormalRoots_types ->
         exists s1, R st s1 /\
           h' = mkHandle (hType h) (fn (hObj h) sc 0%Z (gc_heap s1)).1 (hExtra h) /\
           R (PromoteObject (hObj h) (hExtra h) sc fn s1).2 st') /\
        (hType h = HNDTYPE_REFCOUNTED -> h' = h) /\
        (hType h = HNDTYPE_SIZEDREF ->
         hType h ∉ take (Ref_TraceNormalRoots_uTypeCount condemned maxgen st)
                        Ref_TraceNormalRoots_types -> h' = h).
Proof.
  intros Hrefl Htrans Hpo Hrc Hstep. rewrite Ref_TraceNormalRoots_unfold.
  destruct (pass_facts R true PromoteObject fn
              (take (Ref_TraceNormalRoots_uTypeCount condemned maxgen st)
                    Ref_TraceNormalRoots_types)
              (fun hTable => HndScanHandlesForGC hTable PromoteObject sc fn
                 Ref_TraceNormalRoots_types
                 (Ref_TraceNormalRoots_uTypeCount condemned maxgen st)
                 condemned maxgen (scan_flags sc)) sc map st)
    as (map1 & st1 & -> & HR1 & Hf1); [done|done|done|done|done|].
  simpl.
  destruct (pass_facts R FEATURE_VARIABLE_HANDLES VariableTraceDispatcher
              (mkVARSCANINFO VHT_STRONG PromoteObject fn) [HNDTYPE_VARIABLE]
              (fun hTable => HndScanHandlesForGC hTable VariableTraceDispatcher sc
                 (mkVARSCANINFO VHT_STRONG PromoteObject fn) [HNDTYPE_VARIABLE] 1
                 condemned maxgen (Z.lor HNDGCF_EXTRAINFO (scan_flags sc)))
              sc map1 st1)
    as (map2 & st2 & -> & HR2 & Hf2); [done|done| |done|done|].
  { intros _. by apply VariableTraceDispatcher_R. }
  simpl.
  destruct (pass_facts R (FEATURE_REFCOUNTED_HANDLES && negb (concurrent sc))
              PromoteRefCounted fn [HNDTYPE_REFCOUNTED]
              (fun hTable => HndScanHandlesForGC hTable PromoteRefCounted sc fn
                 [HNDTYPE_REFCOUNTED] 1 condemned maxgen (scan_flags sc))
              sc map2 st2)
    as (map3 & st3 & -> & HR3 & Hf3); [done|done|done|done|done|].
  exists map3, st3. split_and!; [done|by eauto|].
  intros p h Hh.
  destruct (Hf1 p h Hh) as (h1 & Hh1 & Ht1 & Hv1 & Hn1).
  destruct (Hf2 p h1 Hh1) as (h2 & Hh2 & Ht2 & Hv2 & Hn2).
  destruct (Hf3 p h2 Hh2) as (h3 & Hh3 & Ht3 & Hv3 & Hn3).
  exists h3. split; [done|].
  assert (Hstrong : forall t,
            t ∈ take (Ref_TraceNormalRoots_uTypeCount condemned maxgen st)
                     Ref_TraceNormalRoots_types ->
            t <> HNDTYPE_VARIABLE /\ t <> HNDTYPE_REFCOUNTED).
  { intros t Ht. apply Ref_TraceNormalRoots_scanned_types in Ht.
    destruct Ht as [->|[-> _]]; done. }
  split_and!.
  - intros HV Hin. destruct (Hstrong _ Hin) as [Hnv Hnr].
    destruct (Hv1 eq_refl HV Hin) as (s1 & HRs & -> & HRe).
    rewrite Hn3, Hn2.
    + exists s1. split; [done|]. unfold PromoteObject, call_promote in *.
      simpl in *. split; [done|]. eauto.
    + right; right. rewrite list_elem_of_singleton. done.
    + right; right. rewrite list_elem_of_singleton, Ht2. done.
  - intros Htype.
    assert (h1 = h) as ->.
    { apply Hn1. right; right. intros Hin.
      destruct (Hstrong _ Hin) as [_ Hnr]. done. }
    assert (h2 = h) as ->.
    { apply Hn2. right; right. rewrite list_elem_of_singleton, Htype. done. }
    destruct (bool_decide (FEATURE_REFCOUNTED_HANDLES && negb (concurrent sc) = true))
      eqn:Hb.
    + apply bool_decide_eq_true in Hb.
      destruct (V_map_dec sc p Hstep) as [HV|HV]; [|apply Hn3; auto].
      destruct (Hv3 Hb HV) as (s1 & _ & -> & _).
      { rewrite Htype. apply list_elem_of_here. }
      pose proof (PromoteRefCounted_slot (hObj h) (hExtra h) sc fn s1) as Hslot.
      destruct (PromoteRefCounted _ _ _ _ _) as [[o e] s2]. simpl in *.
      destruct h; simpl in *. congruence.
    + apply bool_decide_eq_false in Hb. apply Hn3. left.
      by destruct (FEATURE_REFCOUNTED_HANDLES && negb (concurrent sc)).
  - intros Htype Hnin.
    assert (h1 = h) as -> by (apply Hn1; auto).
    assert (h2 = h) as ->.
    { apply Hn2. right; right. rewrite list_elem_of_singleton, Htype. done. }
    apply Hn3. right; right. rewrite list_elem_of_singleton, Htype. done.
Qed.

Lemma R_more_calls_refl (s : GcState) : R_more_calls s s.
Proof. unfold R_more_calls. done. Qed.

Lemma R_more_calls_trans (s1 s2 s3 : GcState) :
  R_more_calls s1 s2 -> R_more_calls s2 s3 -> R_more_calls s1 s3.
Proof. unfold R_more_calls. intros. by etrans. Qed.

Lemma call_promote_more_calls fn o sc fl st :
  R_more_calls st (call_promote fn o sc fl st).2.
Proof. unfold R_more_calls, call_promote. simpl. by apply suffix_cons_r. Qed.











End TracingScans.

(** ** The dependent scan *)

Section DependentScan.
Context `{GCEnv}.

Lemma R_dep_refl d s : R_dep d s s.
Proof.
  split; try done.
  - intros ?. by left.
  - exists []. split; [done|]. intros c Hc. by apply elem_of_nil in Hc.
Qed.

Lemma R_dep_in_range d s s' :
  R_dep d s s' -> is_Some (g_pDependentHandleContexts s !! d) ->
  is_Some (g_pDependentHandleContexts s' !! d).
Proof.
  intros HR [c Hc]. pose proof (dep_params _ _ _ HR) as Hp.
  rewrite Hc in Hp. destruct (g_pDependentHandleContexts s' !! d); [eauto|done].
Qed.

Lemma R_dep_trans d s1 s2 s3 : R_dep d s1 s2 -> R_dep d s2 s3 -> R_dep d s1 s3.
Proof.
  intros H12 H23. split.
  - intros o Ho. by apply (dep_promoted _ _ _ H23), (dep_promoted _ _ _ H12).
  - intros Hu. by apply (dep_fU _ _ _ H23), (dep_fU _ _ _ H12).
  - intros Hu. by apply (dep_fP _ _ _ H23), (dep_fP _ _ _ H12).
  - intros Hin Hq.
    destruct (dep_quiet _ _ _ H23 (R_dep_in_range _ _ _ H12 Hin) Hq) as [Hh Hc].
    assert (fPromoted_at d s2 = false) as Hq2.
    { destruct (fPromoted_at d s2) eqn:E; [|done].
      rewrite (dep_fP _ _ _ H23 E) in Hq. done. }
    destruct (dep_quiet _ _ _ H12 Hin Hq2) as [Hh' Hc']. split; congruence.
  - intros Hl. destruct (dep_calls _ _ _ H12) as (n1 & Hn1 & _).
    destruct (dep_calls _ _ _ H23) as (n2 & Hn2 & _).
    destruct (dep_loud _ _ _ H23 Hl) as [Hl2|Hlen].
    + destruct (dep_loud _ _ _ H12 Hl2) as [?|Hlen]; [by left|right].
      rewrite Hn2, length_app. lia.
    + right. rewrite Hn1, length_app in Hlen. lia.
  - destruct (dep_calls _ _ _ H12) as (n1 & Hn1 & Hp1).
    destruct (dep_calls _ _ _ H23) as (n2 & Hn2 & Hp2).
    exists (n2 ++ n1). split; [by rewrite Hn2, Hn1, app_assoc|].
    intros c Hc. apply elem_of_app in Hc. destruct Hc; eauto.
  - by rewrite (dep_params _ _ _ H23), (dep_params _ _ _ H12).
Qed.

Lemma PromoteDependentHandle_R_dep sc fn o e s :
  monotone_oracle fn ->
  R_dep (getSlotNumber sc) s (PromoteDependentHandle o e sc fn s).2.
Proof.
  intros Hmono. unfold PromoteDependentHandle, Ref_GetDependentHandleContext.
  set (d := getSlotNumber sc).
  destruct (negb (o =? NULL)%Z) eqn:Hnull; simpl; [|apply R_dep_refl].
  destruct (IsPromoted (gc_heap s) o) eqn:Hp; simpl.
  - destruct (IsPromoted (gc_heap s) e) eqn:Hs; simpl; [apply R_dep_refl|].
    unfold call_promote. simpl. split; simpl.
    + intros x Hx. by apply (promoted_stays _ Hmono).
    + unfold fUnpromotedPrimaries_at. simpl. rewrite list_lookup_alter_eq.
      by destruct (g_pDependentHandleContexts s !! d).
    + unfold fPromoted_at. simpl. rewrite list_lookup_alter_eq.
      by destruct (g_pDependentHandleContexts s !! d).
    + intros [c Hc]. unfold fPromoted_at. simpl.
      rewrite list_lookup_alter_eq, Hc. done.
    + intros _. right. lia.
    + exists [CallPromote e 0]. split; [done|].
      intros c Hc. apply list_elem_of_singleton in Hc. eauto.
    + rewrite list_lookup_alter_eq.
      by destruct (g_pDependentHandleContexts s !! d).
  - split; simpl; try done.
    + unfold fUnpromotedPrimaries_at. simpl. rewrite list_lookup_alter_eq.
      by destruct (g_pDependentHandleContexts s !! d).
    + unfold fPromoted_at. simpl. rewrite list_lookup_alter_eq.
      by destruct (g_pDependentHandleContexts s !! d).
    + unfold fPromoted_at. simpl. rewrite list_lookup_alter_eq.
      destruct (g_pDependentHandleContexts s !! d); simpl; auto.
    + exists []. split; [done|]. intros c Hc. by apply elem_of_nil in Hc.
    + rewrite list_lookup_alter_eq.
      by destruct (g_pDependentHandleContexts s !! d).
Qed.

Lemma dep_pot_antitone d h s s' : R_dep d s s' -> dep_pot h s' <= dep_pot h s.
Proof.
  intros HR. unfold dep_pot.
  destruct (bool_decide (hType h = HNDTYPE_DEPENDENT)); simpl; [|done].
  destruct (IsPromoted (gc_heap s) (hExtra h)) eqn:Hp; simpl.
  - by rewrite (dep_promoted _ _ _ HR _ Hp).
  - destruct (IsPromoted (gc_heap s') (hExtra h)); simpl; lia.
Qed.

Lemma lawful_dep sc fn :
  monotone_oracle fn ->
  Lawful (R_dep (getSlotNumber sc))
         (scan_handle PromoteDependentHandle sc fn [HNDTYPE_DEPENDENT])
         dep_pot calls_made.
Proof.
  intros Hmono. split.
  - apply R_dep_refl.
  - apply R_dep_trans.
  - intros h s. unfold scan_handle. case_bool_decide; [|apply R_dep_refl].
    pose proof (PromoteDependentHandle_R_dep sc fn (hObj h) (hExtra h) s Hmono) as HR.
    destruct (PromoteDependentHandle _ _ _ _ _) as [[o e] s']. done.
  - intros h s s' HR. by eapply dep_pot_antitone.
  - intros h s. unfold scan_handle. case_bool_decide as Hty; [|done].
    apply list_elem_of_singleton in Hty.
    unfold PromoteDependentHandle, dep_pot, calls_made. rewrite Hty. simpl.
    destruct (negb (hObj h =? NULL)%Z); simpl; [|done].
    destruct (IsPromoted (gc_heap s) (hObj h)); simpl; [|done].
    destruct (IsPromoted (gc_heap s) (hExtra h)) eqn:Hs; simpl; [by rewrite Hs|].
    unfold call_promote. simpl. rewrite (promote_marks _ Hmono). simpl. lia.
Qed.

Lemma PromoteDependentHandle_settled sc fn h s :
  monotone_oracle fn ->
  is_Some (g_pDependentHandleContexts s !! getSlotNumber sc) ->
  hType h = HNDTYPE_DEPENDENT ->
  dep_settled (getSlotNumber sc)
    (scan_handle PromoteDependentHandle sc fn [HNDTYPE_DEPENDENT] h s).1
    (scan_handle PromoteDependentHandle sc fn [HNDTYPE_DEPENDENT] h s).2.
Proof.
  intros Hmono [c Hc] Hty.
  rewrite scan_handle_hit by (rewrite Hty; apply list_elem_of_here).
  unfold PromoteDependentHandle, Ref_GetDependentHandleContext, dep_settled.
  set (d := getSlotNumber sc) in *. simpl.
  destruct (Z.eqb_spec (hObj h) NULL) as [Hnull|Hnull]; simpl.
  { split; [by left|]. right. intros Hn. done. }
  destruct (IsPromoted (gc_heap s) (hObj h)) eqn:Hp; simpl.
  - destruct (IsPromoted (gc_heap s) (hExtra h)) eqn:Hs; simpl.
    + split; [right; by left|]. right. done.
    + unfold call_promote. simpl. split.
      * right; left. apply (promote_marks _ Hmono).
      * left. unfold fPromoted_at. simpl.
        by rewrite list_lookup_alter_eq, Hc.
  - split.
    + right; right. unfold fUnpromotedPrimaries_at. simpl.
      by rewrite list_lookup_alter_eq, Hc.
    + right. simpl. intros _ Hp'. congruence.
Qed.

Lemma dep_settled_stable d h s s' :
  R_dep d s s' -> is_Some (g_pDependentHandleContexts s !! d) ->
  dep_settled d h s -> dep_settled d h s'.
Proof.
  intros HR Hin [H1 H2]. split.
  - destruct H1 as [?|[Hp|Hu]]; [by left|right; left|right; right].
    + by apply (dep_promoted _ _ _ HR).
    + by apply (dep_fU _ _ _ HR).
  - destruct (fPromoted_at d s') eqn:Hq; [by left|right].
    destruct (dep_quiet _ _ _ HR Hin Hq) as [Hh _]. rewrite Hh.
    destruct H2 as [Hq'|H2]; [|done].
    rewrite (dep_fP _ _ _ HR Hq') in Hq. done.
Qed.

(** A visit either leaves the handle, or promotes its secondary. *)
Lemma PromoteDependentHandle_visit_cases sc fn h s :
  monotone_oracle fn ->
  let r := scan_handle PromoteDependentHandle sc fn [HNDTYPE_DEPENDENT] h s in
  r.1 = h \/
  (hType h = HNDTYPE_DEPENDENT /\ hObj h <> NULL /\
   IsPromoted (gc_heap s) (hExtra h) = false /\
   host_calls r.2 = CallPromote (hExtra h) 0 :: host_calls s /\
   IsPromoted (gc_heap r.2) (hExtra r.1) = true /\
   r.1 = mkHandle HNDTYPE_DEPENDENT (hObj h)
                  (fn (hExtra h) sc 0%Z (gc_heap s)).1).
Proof.
  intros Hmono r. subst r. unfold scan_handle.
  case_bool_decide as Hty; [|by left].
  apply list_elem_of_singleton in Hty.
  unfold PromoteDependentHandle.
  destruct (Z.eqb_spec (hObj h) NULL) as [Hnull|Hnull]; simpl.
  { left. by destruct h. }
  destruct (IsPromoted (gc_heap s) (hObj h)); simpl; [|left; by destruct h].
  destruct (IsPromoted (gc_heap s) (hExtra h)) eqn:Hs; simpl;
    [left; by destruct h|].
  right. unfold call_promote. simpl. rewrite Hty.
  split_and!; try done. apply (promote_marks _ Hmono).
Qed.

(** One round: it returns, it never unmarks, the calls it makes are
    promotions, [m_fPromoted] tells whether it made any, the count of
    dependent handles with an unpromoted secondary falls by the number of
    promotions at least, and every dependent handle it visited is
    settled. *)
Lemma dependent_scan_round_facts d ctx flags map st :
  g_pDependentHandleContexts st !! d = Some ctx ->
  d = getSlotNumber (m_pScanContext ctx) ->
  0 < thread_count (m_pScanContext ctx) ->
  monotone_oracle (m_pfnPromoteFunction ctx) ->
  exists map1 st1 ctx1 new,
    dependent_scan_round d ctx flags map st = Some (map1, st1) /\
    g_pDependentHandleContexts st1 !! d = Some ctx1 /\
    context_params ctx1 = context_params ctx /\
    (forall o, IsPromoted (gc_heap st) o = true ->
               IsPromoted (gc_heap st1) o = true) /\
    host_calls st1 = new ++ host_calls st /\
    (forall c, c ∈ new -> exists o, c = CallPromote o 0) /\
    (m_fPromoted ctx1 = true <-> new <> []) /\
    pot_map dep_pot map1 st1 + length new <= pot_map dep_pot map st /\
    (forall p h1, lk_map map1 p = Some h1 -> hType h1 = HNDTYPE_DEPENDENT ->
       V_map (m_pScanContext ctx) p -> dep_settled d h1 st1) /\
    (forall p,
       match lk_map map p with
       | None => lk_map map1 p = None
       | Some h =>
           exists h1, lk_map map1 p = Some h1 /\
             dep_scanned (V_map (m_pScanContext ctx) p)
               (m_pfnPromoteFunction ctx) (m_pScanContext ctx) st st1 new h h1
       end).
Proof.
  intros Hctx Hd Hstep Hmono. unfold dependent_scan_round.
  set (sc := m_pScanContext ctx) in *. set (fn := m_pfnPromoteFunction ctx) in *.
  set (st0 := set_contexts _ st).
  pose proof (lawful_dep sc fn Hmono) as law. rewrite <- Hd in law.
  destruct (scan_handle_tables_total
              (fun hTable => HndScanHandlesForGC hTable PromoteDependentHandle
                 sc fn [HNDTYPE_DEPENDENT] 1 (m_iCondemned ctx) (m_iMaxGen ctx) flags)
              sc map st0 Hstep) as [[map1 st1] Hs].
  destruct (scan_handle_tables_spec (R_dep d) _ dep_pot calls_made law _
              (act_spec_of_eq _ _ _ _ _ law (fun t s => eq_refl))
              sc Hstep map st0 map1 st1 Hs) as (HR & Hpot & Hrel).
  assert (Hctx0 : g_pDependentHandleContexts st0 !! d
                  = Some (set_fPromoted false (set_fUnpromotedPrimaries false ctx))).
  { unfold st0. simpl. by rewrite list_lookup_alter_eq, Hctx. }
  assert (Hin0 : is_Some (g_pDependentHandleContexts st0 !! d)) by eauto.
  destruct (R_dep_in_range _ _ _ HR Hin0) as [ctx1 Hctx1].
  destruct (dep_calls _ _ _ HR) as (new & Hnew & Hprom).
  exists map1, st1, ctx1, new. split_and!; try done.
  - pose proof (dep_params _ _ _ HR) as Hp. rewrite Hctx1, Hctx0 in Hp.
    change (Some (context_params ctx1) = Some (context_params ctx)) in Hp.
    congruence.
  - intros o Ho. by apply (dep_promoted _ _ _ HR).
  - assert (fPromoted_at d st1 = m_fPromoted ctx1) as Hfp
      by (unfold fPromoted_at; by rewrite Hctx1).
    assert (fPromoted_at d st0 = false) as Hfp0
      by (unfold fPromoted_at; by rewrite Hctx0).
    split.
    + intros Ht. rewrite <- Hfp in Ht.
      destruct (dep_loud _ _ _ HR Ht) as [Ht0|Hlen]; [congruence|].
      intros ->. apply (f_equal length) in Hnew. simpl in Hnew.
      change (host_calls st0) with (host_calls st) in Hlen. lia.
    + intros Hne. destruct (m_fPromoted ctx1) eqn:E; [done|].
      destruct (dep_quiet _ _ _ HR Hin0 Hfp) as [_ Hc].
      rewrite Hc in Hnew. destruct new; [done|].
      apply (f_equal length) in Hnew. rewrite length_app in Hnew.
      simpl in Hnew. lia.
  - unfold calls_made in Hpot. rewrite Hnew, length_app in Hpot.
    assert (pot_map dep_pot map st0 = pot_map dep_pot map st) as Heq by done.
    rewrite <- Heq. change (host_calls st0) with (host_calls st) in Hpot. lia.
  - intros p h1 Hh1 Hty HV. specialize (Hrel p). rewrite Hh1 in Hrel.
    destruct (lk_map map p) as [h|]; simpl in Hrel; [|done].
    destruct Hrel as [Hv _]. destruct (Hv HV) as (s1 & HR1 & -> & HR2).
    rewrite scan_handle_type in Hty.
    pose proof (R_dep_in_range _ _ _ HR1 Hin0) as Hin1.
    eapply dep_settled_stable; [exact HR2| |].
    + eapply R_dep_in_range; [|exact Hin1].
      rewrite Hd. apply (law_visit _ _ _ _ (lawful_dep sc fn Hmono)).
    + rewrite Hd. apply PromoteDependentHandle_settled; [done| |done].
      by rewrite <- Hd.
  - intros p. specialize (Hrel p).
    destruct (lk_map map p) as [h|], (lk_map map1 p) as [h1|];
      simpl in Hrel; try done.
    exists h1. split; [done|]. destruct Hrel as [Hv Hn].
    destruct (V_map_dec sc p Hstep) as [HV|HV]; [|left; by apply Hn].
    destruct (Hv HV) as (s1 & HR1 & -> & HR2).
    destruct (PromoteDependentHandle_visit_cases sc fn h s1 Hmono)
      as [Hsame|(Hty & Hnull & Hun & Hcall & Hmark & Hres)]; [by left|].
    right. split_and!; try done.
    + destruct (IsPromoted (gc_heap st) (hExtra h)) eqn:Hp; [|done].
      rewrite (dep_promoted _ _ _ HR1 (hExtra h)) in Hun; done.
    + destruct (dep_calls _ _ _ HR1) as (n1 & Hn1 & _).
      destruct (dep_calls _ _ _ HR2) as (n2 & Hn2 & _).
      rewrite Hcall, Hn1 in Hn2. rewrite Hn2 in Hnew.
      change (host_calls st0) with (host_calls st) in Hnew.
      assert (new = n2 ++ CallPromote (hExtra h) 0 :: n1) as ->.
      { apply (app_inv_tail (host_calls st)). rewrite <- Hnew.
        by rewrite <- app_assoc. }
      rewrite elem_of_app, elem_of_cons. auto.
    + by apply (dep_promoted _ _ _ HR2).
    + by eexists.
Qed.

End DependentScan.

Section DependentLoop.
Context `{GCEnv}.

(** The loop: with fuel beyond the number of dependent handles whose
    secondary is not promoted it returns, and at its return every dependent
    handle on the stride with a promoted primary has a promoted
    secondary. *)
Lemma dependent_scan_loop_facts n : forall d flags fAny map st ctx,
  pot_map dep_pot map st <= n ->
  g_pDependentHandleContexts st !! d = Some ctx ->
  d = getSlotNumber (m_pScanContext ctx) ->
  0 < thread_count (m_pScanContext ctx) ->
  monotone_oracle (m_pfnPromoteFunction ctx) ->
  exists r map' st' new,
    dependent_scan_loop (S n) d flags fAny map st = Some (r, map', st') /\
    host_calls st' = new ++ host_calls st /\
    (forall c, c ∈ new -> exists o, c = CallPromote o 0) /\
    (r = true <-> fAny = true \/ new <> []) /\
    (forall o, IsPromoted (gc_heap st) o = true ->
               IsPromoted (gc_heap st') o = true) /\
    (forall p h, lk_map map' p = Some h -> hType h = HNDTYPE_DEPENDENT ->
       V_map (m_pScanContext ctx) p -> hObj h <> NULL ->
       IsPromoted (gc_heap st') (hObj h) = true ->
       IsPromoted (gc_heap st') (hExtra h) = true) /\
    (forall p,
       match lk_map map p with
       | None => lk_map map' p = None
       | Some h =>
           exists h', lk_map map' p = Some h' /\
             dep_scanned (V_map (m_pScanContext ctx) p)
               (m_pfnPromoteFunction ctx) (m_pScanContext ctx) st st' new h h'
       end).
Proof.
  induction n as [n IH] using lt_wf_ind.
  intros d flags fAny map st ctx Hpot Hctx Hd Hstep Hmono.
  destruct (dependent_scan_round_facts d ctx flags map st Hctx Hd Hstep Hmono)
    as (map1 & st1 & ctx1 & new1 & Hround & Hctx1 & Hparams & Hprom1 & Hnew1
        & Hcalls1 & Hflag & Hpot1 & Hsettled & Hscanned1).
  assert (Hsc : m_pScanContext ctx1 = m_pScanContext ctx)
    by (unfold context_params in Hparams; congruence).
  assert (Hfn : m_pfnPromoteFunction ctx1 = m_pfnPromoteFunction ctx)
    by (unfold context_params in Hparams; congruence).
  cbn [dependent_scan_loop]. rewrite Hctx. cbn [mbind option_bind].
  rewrite Hround. cbn [mbind option_bind]. rewrite Hctx1. cbn [mbind option_bind].
  destruct (m_fUnpromotedPrimaries ctx1 && m_fPromoted ctx1) eqn:Hcond.
  - apply andb_true_iff in Hcond. destruct Hcond as [_ HfP].
    assert (new1 <> []) as Hne by (by apply Hflag).
    assert (0 < length new1) as Hlen by (destruct new1; [done|simpl; lia]).
    destruct n as [|n']; [lia|].
    destruct (IH n' (Nat.lt_succ_diag_r n') d flags
                (if m_fPromoted ctx1 then true else fAny) map1 st1 ctx1)
      as (r & map' & st' & new2 & Hloop & Hnew2 & Hcalls2 & Hr & Hprom2 & Hfix
          & Hscanned2);
      [lia|done|by rewrite Hsc|by rewrite Hsc|by rewrite Hfn|].
    exists r, map', st', (new2 ++ new1). split_and!.
    + exact Hloop.
    + by rewrite Hnew2, Hnew1, app_assoc.
    + intros c Hc. apply elem_of_app in Hc. destruct Hc; eauto.
    + rewrite HfP in Hr. split; [|intros _; apply Hr; by left].
      intros _. right. intros Happ. apply app_eq_nil in Happ. by destruct Happ.
    + intros o Ho. by apply Hprom2, Hprom1.
    + intros p h Hh Hty HV. apply (Hfix p h Hh Hty). by rewrite Hsc.
    + intros p. specialize (Hscanned1 p). specialize (Hscanned2 p).
      rewrite Hsc, Hfn in Hscanned2.
      destruct (lk_map map p) as [h|].
      2:{ by rewrite Hscanned1 in Hscanned2. }
      destruct Hscanned1 as (h1 & Hh1 & Hs1). rewrite Hh1 in Hscanned2.
      destruct Hscanned2 as (h' & Hh' & Hs2). exists h'. split; [done|].
      destruct Hs1 as [->|(HV & Hty & Hnull & Hun & Hcall & Hmark & g & Hres)].
      * destruct Hs2
          as [->|(HV & Hty & Hnull & Hun & Hcall & Hmark & g & Hres)];
          [by left|right].
        split_and!; try done.
        -- destruct (IsPromoted (gc_heap st) (hExtra h)) eqn:Hp; [|done].
           rewrite (Hprom1 _ Hp) in Hun. done.
        -- rewrite elem_of_app. by left.
        -- by eexists.
      * destruct Hs2 as [->|(_ & _ & _ & Hun2 & _)]; [right|congruence].
        split_and!; try done.
        -- rewrite elem_of_app. by right.
        -- by apply Hprom2.
        -- by eexists.
  - exists (if m_fPromoted ctx1 then true else fAny), map1, st1, new1.
    split_and!; try done.
    + destruct (m_fPromoted ctx1) eqn:HfP.
      * split; [|done]. intros _. right. by apply Hflag.
      * split; [by left|]. intros [?|Hne]; [done|].
        apply Hflag in Hne. done.
    + intros p h Hh Hty HV Hnull Hp.
      destruct (Hsettled p h Hh Hty HV) as [H1 H2].
      unfold fPromoted_at, fUnpromotedPrimaries_at in *. rewrite Hctx1 in *.
      simpl in *. apply andb_false_iff in Hcond.
      destruct H2 as [HfP|H2]; [|by apply H2].
      destruct Hcond as [HfU|?]; [|congruence].
      destruct H1 as [?|[?|?]]; [done|done|congruence].
Qed.

Lemma dependent_scan_loop_more_fuel fuel : forall fuel' d flags fAny map st res,
  dependent_scan_loop fuel d flags fAny map st = Some res -> fuel <= fuel' ->
  dependent_scan_loop fuel' d flags fAny map st = Some res.
Proof.
  induction fuel as [|fuel IH]; intros fuel' d flags fAny map st res Hrun Hle;
    [done|].
  destruct fuel' as [|fuel']; [lia|].
  cbn [dependent_scan_loop] in *.
  destruct (g_pDependentHandleContexts st !! d) as [ctx|]; [|done].
  cbn [mbind option_bind] in *.
  destruct (dependent_scan_round d ctx flags map st) as [[map1 st1]|]; [|done].
  cbn [mbind option_bind] in *.
  destruct (g_pDependentHandleContexts st1 !! d) as [ctx1|]; [|done].
  cbn [mbind option_bind] in *.
  destruct (m_fUnpromotedPrimaries ctx1 && m_fPromoted ctx1); [|done].
  apply IH; [done|lia].
Qed.


End DependentLoop.

(** ** Clearing passes *)

Section ClearingClaims.
Context `{GCEnv}.

(** C3.  After [Ref_ScanDependentHandlesForClearing], every dependent handle
    in a table the worker scans whose primary is not promoted has a null
    primary and a null secondary (read against the primary it had before
    the pass, and again against the primary it has after it), and a
    dependent handle whose primary is promoted is exactly as it was.  The
    pass returns whenever the worker count is at least one, and it leaves
    the collector's state alone. *)
Theorem Ref_ScanDependentHandlesForClearing_clears
    (condemned maxgen : nat) (sc : ScanContext)
    (map : HandleTableMap) (st : GcState) :
  0 < thread_count sc ->
  exists map',
    Ref_ScanDependentHandlesForClearing condemned maxgen sc map st
    = Some (map', st) /\
    forall c i k j h,
      handle_at map c i k j = Some h -> hType h = HNDTYPE_DEPENDENT ->
      visited sc k ->
      exists h', handle_at map' c i k j = Some h' /\
        hType h' = HNDTYPE_DEPENDENT /\
        (IsPromoted (gc_heap st) (hObj h) = false ->
         hObj h' = NULL /\ hExtra h' = NULL) /\
        (IsPromoted (gc_heap st) (hObj h) = true -> h' = h) /\
        (IsPromoted (gc_heap st) (hObj h') = false ->
         hObj h' = NULL /\ hExtra h' = NULL).
Proof.
  intros Hstep. unfold Ref_ScanDependentHandlesForClearing.
  destruct (pure_scan
              (scan_handle ClearDependentHandle sc tt [HNDTYPE_DEPENDENT])
              (fun hTable => HndScanHandlesForGC hTable ClearDependentHandle sc tt
                               [HNDTYPE_DEPENDENT] 1 condemned maxgen
                               (Z.lor (scan_flags sc) HNDGCF_EXTRAINFO))
              sc map st) as (map' & Hs & Hrel); [| |done|].
  { apply scan_handle_state. intros. apply ClearDependentHandle_state. }
  { done. }
  exists map'. split; [done|].
  intros c i k j h Hh Ht HV. specialize (Hrel [c; i; k; j]).
  unfold handle_at in *. rewrite Hh in Hrel. destruct Hrel as [Hv _].
  rewrite (Hv HV). eexists. split; [done|].
  rewrite scan_handle_hit by (rewrite Ht; apply list_elem_of_here).
  unfold ClearDependentHandle. destruct h as [t o e]. simpl in *.
  destruct (IsPromoted (gc_heap st) o) eqn:Hp; simpl; subst t.
  - split_and!; try done. intros Hp'. congruence.
  - split_and!; done.
Qed.

(** C4.  After a weak-check phase ([Ref_CheckAlive] for the short weak
    types, [Ref_CheckReachable] for the long weak ones), a weak-class
    handle that the phase visits reads null when its referent is not
    promoted and still holds its reference when the referent is promoted;
    its type and extra info are as before.  Every weak-class type is on
    the list of one of the two phases. *)
Theorem weak_check_clears_unpromoted
    (condemned maxgen : nat) (sc : ScanContext)
    (map : HandleTableMap) (st : GcState) :
  0 < thread_count sc ->
  exists mapA mapR,
    Ref_CheckAlive condemned maxgen sc map st = Some (mapA, st) /\
    Ref_CheckReachable condemned maxgen sc map st = Some (mapR, st) /\
    (forall c i k j h,
       handle_at map c i k j = Some h -> weak_class (hType h) = true ->
       visited sc k ->
       (hType h ∈ Ref_CheckAlive_types ->
        exists h', handle_at mapA c i k j = Some h' /\
          hType h' = hType h /\ hExtra h' = hExtra h /\
          (IsPromoted (gc_heap st) (hObj h) = false -> hObj h' = NULL) /\
          (IsPromoted (gc_heap st) (hObj h) = true -> hObj h' = hObj h)) /\
       (hType h ∈ Ref_CheckReachable_types ->
        exists h', handle_at mapR c i k j = Some h' /\
          hType h' = hType h /\ hExtra h' = hExtra h /\
          (IsPromoted (gc_heap st) (hObj h) = false -> hObj h' = NULL) /\
          (IsPromoted (gc_heap st) (hObj h) = true -> hObj h' = hObj h))) /\
    (forall t, weak_class t = true ->
       (t = HNDTYPE_WEAK_NATIVE_COM -> FEATURE_WEAK_NATIVE_COM_HANDLES = true) ->
       t ∈ Ref_CheckAlive_types \/ t ∈ Ref_CheckReachable_types).
Proof.
  intros Hstep.
  destruct (Ref_CheckAlive_result condemned maxgen sc map st Hstep)
    as (mapA & HsA & HrelA).
  destruct (Ref_CheckReachable_result condemned maxgen sc map st Hstep)
    as (mapR & HsR & HrelR).
  exists mapA, mapR. split_and!; [done|done| |].
  - intros c i k j h Hh Hweak HV.
    destruct (HrelA c i k j h Hh) as [HvA _].
    destruct (HrelR c i k j h Hh) as [HvR _].
    split; intros Hin.
    + rewrite (HvA HV). unfold weak_checked.
      rewrite (bool_decide_eq_true_2 _ Hin). simpl.
      eexists. split; [done|]. unfold check_promoted_result.
      destruct (IsPromoted (gc_heap st) (hObj h)); simpl; split_and!; done.
    + rewrite (HvR HV). unfold weak_checked.
      rewrite (bool_decide_eq_true_2 _ Hin). simpl.
      eexists. split; [done|]. unfold check_promoted_result.
      destruct (IsPromoted (gc_heap st) (hObj h)); simpl; split_and!; done.
  - intros t Hweak Hcom.
    rewrite Ref_CheckAlive_types_spec, Ref_CheckReachable_types_spec.
    destruct t; simpl in Hweak; try done; auto.
Qed.

(** C5, as amended.  The weak-check phases apply the weak-clearing callback
    to the handles of these types and to no others: [Ref_CheckAlive] to
    WeakShort and (where compiled in) WeakNativeCom, [Ref_CheckReachable]
    to WeakLong, WeakInteriorPointer and (where compiled in) RefCounted;
    and, through the variable dispatcher, to a Variable handle whose
    strength bits meet [VHT_WEAK_SHORT], respectively [VHT_WEAK_LONG].
    Every other handle, and every handle off the worker's stride, is left
    as it was. *)
Theorem weak_check_applies_to
    (condemned maxgen : nat) (sc : ScanContext)
    (map : HandleTableMap) (st : GcState) :
  0 < thread_count sc ->
  exists mapA mapR,
    Ref_CheckAlive condemned maxgen sc map st = Some (mapA, st) /\
    Ref_CheckReachable condemned maxgen sc map st = Some (mapR, st) /\
    (forall c i k j h, handle_at map c i k j = Some h ->
       (visited sc k ->
        handle_at mapA c i k j =
          Some (if weak_checked Ref_CheckAlive_types VHT_WEAK_SHORT h
                then check_promoted_result st h else h) /\
        handle_at mapR c i k j =
          Some (if weak_checked Ref_CheckReachable_types VHT_WEAK_LONG h
                then check_promoted_result st h else h)) /\
       (~ visited sc k ->
        handle_at mapA c i k j = Some h /\ handle_at mapR c i k j = Some h)) /\
    (forall t, t ∈ Ref_CheckAlive_types <->
       t = HNDTYPE_WEAK_SHORT \/
       (FEATURE_WEAK_NATIVE_COM_HANDLES = true /\ t = HNDTYPE_WEAK_NATIVE_COM)) /\
    (forall t, t ∈ Ref_CheckReachable_types <->
       t = HNDTYPE_WEAK_LONG \/
       (FEATURE_REFCOUNTED_HANDLES = true /\ t = HNDTYPE_REFCOUNTED) \/
       t = HNDTYPE_WEAK_INTERIOR_POINTER).
Proof.
  intros Hstep.
  destruct (Ref_CheckAlive_result condemned maxgen sc map st Hstep)
    as (mapA & HsA & HrelA).
  destruct (Ref_CheckReachable_result condemned maxgen sc map st Hstep)
    as (mapR & HsR & HrelR).
  exists mapA, mapR. split_and!; [done|done| | |].
  - intros c i k j h Hh.
    destruct (HrelA c i k j h Hh) as [HvA HnA].
    destruct (HrelR c i k j h Hh) as [HvR HnR].
    split; intros HV; split; auto.
  - apply Ref_CheckAlive_types_spec.
  - apply Ref_CheckReachable_types_spec.
Qed.

End ClearingClaims.

(** ** The strong trace *)

Section TraceClaims.
Context `{GCEnv}.



(** C10.  [PromoteRefCounted] never writes to the slot it is given: whatever
    the promote callback does with the word it receives, the handle's
    object word and extra info are the same after the callback as before.
    So [Ref_TraceNormalRoots] leaves every RefCounted handle of the map as
    it was.  The slot is rewritten in the pointer-update phase, where
    [UpdatePointer] stores what the promote callback returns and RefCounted
    is among the types of [Ref_UpdatePointers]. *)
Theorem PromoteRefCounted_leaves_slot
    (condemned maxgen : nat) (sc : ScanContext) (fn : promote_func)
    (map : HandleTableMap) (st : GcState) :
  0 < thread_count sc ->
  (forall o e s, (PromoteRefCounted o e sc fn s).1 = (o, e)) /\
  (exists map' st',
     Ref_TraceNormalRoots condemned maxgen sc fn map st = Some (map', st') /\
     forall c i k j h,
       handle_at map c i k j = Some h -> hType h = HNDTYPE_REFCOUNTED ->
       handle_at map' c i k j = Some h) /\
  (forall o e s,
     (UpdatePointer o e sc fn s).1 = ((fn o sc 0%Z (gc_heap s)).1, e)) /\
  (FEATURE_REFCOUNTED_HANDLES = true ->
   HNDTYPE_REFCOUNTED ∈ Ref_UpdatePointers_types).
Proof.
  intros Hstep. split_and!.
  - intros. apply PromoteRefCounted_slot.
  - destruct (Ref_TraceNormalRoots_facts R_any condemned maxgen sc fn map st)
      as (map' & st' & Hs & _ & Hf); try done.
    exists map', st'. split; [done|].
    intros c i k j h Hh Hty. unfold handle_at in *.
    destruct (Hf _ _ Hh) as (h' & -> & _ & Hrc & _). f_equal. by apply Hrc.
  - intros. done.
  - intros Hfeat. unfold Ref_UpdatePointers_types. rewrite Hfeat.
    rewrite !elem_of_app, !elem_of_cons. tauto.
Qed.

End TraceClaims.

(** ** Single callbacks *)

Section CallbackClaims.
Context `{GCEnv}.

(** C2.  One call of [PromoteDependentHandle] on a dependent handle with
    primary [p] and secondary [s], for a worker whose context is in the
    array:
    - [p] non-null and promoted, [s] not promoted: the promote callback is
      called on the secondary, the slot holds what it left, and the
      context's [m_fPromoted] becomes true; the other flag is as before;
    - [p] non-null and not promoted: the handle is untouched and the
      context's [m_fUnpromotedPrimaries] becomes true; the other flag and
      the collector are as before;
    - [p] null: nothing changes;
    - [p] non-null and promoted, [s] promoted: nothing changes. *)
Theorem PromoteDependentHandle_step
    (p s : ptr) (sc : ScanContext) (fn : promote_func) (st : GcState)
    (ctx : DhContext) :
  g_pDependentHandleContexts st !! Ref_GetDependentHandleContext sc = Some ctx ->
  let d := Ref_GetDependentHandleContext sc in
  let r := PromoteDependentHandle p s sc fn st in
  (p <> NULL -> IsPromoted (gc_heap st) p = true ->
   IsPromoted (gc_heap st) s = false ->
     r.1 = (p, (fn s sc 0%Z (gc_heap st)).1) /\
     gc_heap r.2 = (fn s sc 0%Z (gc_heap st)).2 /\
     host_calls r.2 = CallPromote s 0 :: host_calls st /\
     native_mem r.2 = native_mem st /\
     g_pDependentHandleContexts r.2
       = <[d := set_fPromoted true ctx]> (g_pDependentHandleContexts st) /\
     fPromoted_at d r.2 = true /\
     fUnpromotedPrimaries_at d r.2 = fUnpromotedPrimaries_at d st) /\
  (p <> NULL -> IsPromoted (gc_heap st) p = false ->
     r.1 = (p, s) /\
     r.2 = set_contexts
             (<[d := set_fUnpromotedPrimaries true ctx]>
                (g_pDependentHandleContexts st)) st /\
     fUnpromotedPrimaries_at d r.2 = true /\
     fPromoted_at d r.2 = fPromoted_at d st) /\
  (p = NULL -> r = (p, s, st)) /\
  (p <> NULL -> IsPromoted (gc_heap st) p = true ->
   IsPromoted (gc_heap st) s = true -> r = (p, s, st)).
Proof.
  intros Hctx d r.
  assert (Hlt : d < length (g_pDependentHandleContexts st))
    by (by eapply lookup_lt_Some).
  assert (Halter : forall f, alter f d (g_pDependentHandleContexts st)
                             = <[d := f ctx]> (g_pDependentHandleContexts st)).
  { intros f. apply list_eq. intros n.
    destruct (decide (n = d)) as [->|Hne].
    - rewrite list_lookup_alter_eq, list_lookup_insert_eq by done.
      unfold d. by rewrite Hctx.
    - by rewrite list_lookup_alter_ne, list_lookup_insert_ne by done. }
  subst r. unfold PromoteDependentHandle. fold d.
  split_and!.
  - intros Hp Hpp Hps.
    rewrite (proj2 (Z.eqb_neq p NULL) Hp), Hpp, Hps. simpl.
    rewrite Halter.
    unfold fPromoted_at, fUnpromotedPrimaries_at. simpl.
    rewrite list_lookup_insert_eq by done. simpl.
    unfold d. rewrite Hctx. done.
  - intros Hp Hpp.
    rewrite (proj2 (Z.eqb_neq p NULL) Hp), Hpp. simpl.
    rewrite Halter.
    unfold fPromoted_at, fUnpromotedPrimaries_at. simpl.
    rewrite list_lookup_insert_eq by done. simpl.
    unfold d. rewrite Hctx. done.
  - intros ->. done.
  - intros Hp Hpp Hps.
    rewrite (proj2 (Z.eqb_neq p NULL) Hp), Hpp, Hps. done.
Qed.

(** C7.  [UpdateWeakInteriorHandle] keeps the offset of the interior
    pointer from its object: the primary slot holds what the promote
    callback left; when that is non-null, the interior word (the word the
    extra info points to) minus the new primary equals the old interior
    word minus the old primary, both differences taken modulo
    [2 ^ ptr_bits]; when it is null, the interior word is unchanged. *)
Theorem UpdateWeakInteriorHandle_keeps_offset
    (pObjRef pExtraInfo : ptr) (sc : ScanContext) (fn : promote_func)
    (st : GcState) :
  let r := UpdateWeakInteriorHandle pObjRef pExtraInfo sc fn st in
  let primary_new := r.1.1 in
  let interior_old := native_mem st !!! pExtraInfo in
  let interior_new := native_mem r.2 !!! r.1.2 in
  primary_new = (fn pObjRef sc 0%Z (gc_heap st)).1 /\
  r.1.2 = pExtraInfo /\
  (primary_new <> NULL ->
   interior_new = wrap (interior_old + wrap (primary_new - pObjRef)) /\
   wrap (interior_new - primary_new) = wrap (interior_old - pObjRef)) /\
  (primary_new = NULL -> interior_new = interior_old).
Proof.
  unfold UpdateWeakInteriorHandle, call_promote. simpl.
  destruct (fn pObjRef sc 0%Z (gc_heap st)) as [new g] eqn:Hfn. simpl.
  destruct (Z.eqb_spec new NULL) as [->|Hne]; simpl.
  - split_and!; done.
  - split_and!; [done|done| |done].
    intros _. rewrite lookup_total_insert_eq. split; [done|].
    apply wrap_offset.
Qed.

(** The relocation scan applies that update once to every weak interior
    pointer handle on the worker's stride, at some state of the scan, and
    leaves every other handle as it was. *)
Lemma Ref_ScanWeakInteriorPointersForRelocation_visits
    (condemned maxgen : nat) (sc : ScanContext) (fn : promote_func)
    (map : HandleTableMap) (st : GcState) :
  0 < thread_count sc ->
  exists map' st',
    Ref_ScanWeakInteriorPointersForRelocation condemned maxgen sc fn map st
    = Some (map', st') /\
    forall c i k j h, handle_at map c i k j = Some h ->
      (visited sc k -> hType h = HNDTYPE_WEAK_INTERIOR_POINTER ->
       exists s1,
         handle_at map' c i k j =
         Some (mkHandle (hType h)
                 (UpdateWeakInteriorHandle (hObj h) (hExtra h) sc fn s1).1.1
                 (UpdateWeakInteriorHandle (hObj h) (hExtra h) sc fn s1).1.2)) /\
      (~ visited sc k \/ hType h <> HNDTYPE_WEAK_INTERIOR_POINTER ->
       handle_at map' c i k j = Some h).
Proof.
  intros Hstep. unfold Ref_ScanWeakInteriorPointersForRelocation.
  destruct (pass_facts R_any true UpdateWeakInteriorHandle fn
              [HNDTYPE_WEAK_INTERIOR_POINTER]
              (fun hTable => HndScanHandlesForGC hTable UpdateWeakInteriorHandle
                 sc fn [HNDTYPE_WEAK_INTERIOR_POINTER] 1 condemned maxgen
                 (Z.lor (scan_flags sc) HNDGCF_EXTRAINFO)) sc map st)
    as (map' & st' & Hs & _ & Hf); try done.
  exists map', st'. split; [done|].
  intros c i k j h Hh. unfold handle_at in *.
  destruct (Hf _ _ Hh) as (h' & -> & _ & Hv & Hn). split.
  - intros HV Hty. destruct (Hv eq_refl HV) as (s1 & _ & -> & _).
    { rewrite Hty. apply list_elem_of_here. }
    by exists s1.
  - intros Hskip. f_equal. apply Hn. right.
    destruct Hskip as [?|Hne]; [by left|right].
    by rewrite list_elem_of_singleton.
Qed.

End CallbackClaims.

(** ** Start-up *)

Section InitClaims.
Context `{GCEnv}.

Lemma alloc_success st rest :
  alloc_results st = true :: rest ->
  alloc st = (Some (next_block st),
              set_alloc (next_block st :: live_blocks st) (S (next_block st)) rest st).
Proof. intros Hr. unfold alloc. by rewrite Hr. Qed.

Lemma alloc_failure st rest :
  alloc_results st = false :: rest ->
  alloc st = (None, set_alloc (live_blocks st) (next_block st) rest st).
Proof. intros Hr. unfold alloc. by rewrite Hr. Qed.

Lemma create_handle_tables_success count : forall uCPUindex st rest,
  alloc_results st = replicate count true ++ rest ->
  exists st',
    create_handle_tables count uCPUindex st = (true, st') /\
    alloc_results st' = rest /\
    map_pBuckets st' = map_pBuckets st /\
    map_dwMaxIndex st' = map_dwMaxIndex st /\
    g_gcGlobalHandleStore st' = g_gcGlobalHandleStore st /\
    dh_contexts_ptr st' = dh_contexts_ptr st /\
    bucket_array st' = bucket_array st.
Proof.
  induction count as [|count IH]; intros uCPUindex st rest Hr; simpl.
  - exists st. split_and!; done.
  - simpl in Hr. rewrite (alloc_success _ _ Hr).
    match goal with
    | |- context [create_handle_tables count (S uCPUindex) ?s] =>
        destruct (IH (S uCPUindex) s rest)
          as (st' & Hc & Hres & HpB & Hmax & Hstore & Hdh & Harr); [done|]
    end.
    exists st'. rewrite Hc. split_and!; done.
Qed.

(** C9, at the failing input.  When every allocation succeeds except the
    last one, the array of dependent-handle contexts, [Ref_Initialize]
    returns false, yet [g_HandleTableMap.pBuckets] still points to the
    bucket array it has just released, [dwMaxIndex] still counts its
    entries, and [g_gcGlobalHandleStore] still points to the store it has
    just deleted; before the call all three were null or zero. *)
Theorem Ref_Initialize_context_failure_dangles
    (INITIAL_HANDLE_TABLE_ARRAY_SIZE : nat) (rest : list bool) :
  let st := before_Ref_Initialize
              (replicate (3 + getNumberOfSlots) true ++ false :: rest) in
  exists r,
  Ref_Initialize INITIAL_HANDLE_TABLE_ARRAY_SIZE st = Some r /\
  r.1 = false /\
  map_pBuckets st = None /\ g_gcGlobalHandleStore st = None /\
  map_pBuckets r.2 = Some 0 /\ dangling (map_pBuckets r.2) r.2 /\
  map_dwMaxIndex r.2 = INITIAL_HANDLE_TABLE_ARRAY_SIZE /\
  g_gcGlobalHandleStore r.2 = Some 1 /\ dangling (g_gcGlobalHandleStore r.2) r.2.
Proof.
  intros st. subst st. unfold Ref_Initialize, before_Ref_Initialize.
  simpl replicate. simpl app.
  erewrite alloc_success by done. simpl.
  match goal with
  | |- context [create_handle_tables ?c ?i ?s] =>
      destruct (create_handle_tables_success c i s (false :: rest))
        as (st' & -> & Hres & HpB & Hmax & Hstore & Hdh & Harr); [done|]
  end.
  simpl in *. erewrite alloc_failure by (simpl; exact Hres).
  unfold CleanupAndFail, HandleTableBucketHolder_dtor, dangling. simpl.
  rewrite Hstore. simpl.
  eexists. split; [done|]. simpl. rewrite Hstore.
  split_and!; try done.
  - rewrite !list_elem_of_filter. intros [_ [? _]]. done.
  - rewrite !list_elem_of_filter. intros [? _]. done.
Qed.

End InitClaims.

(** * Further properties of the scan phases *)

Section Phases.
Context `{GCEnv}.

(** A walk keeps the shape of the map: it has a handle where there was
    one, and nowhere else. *)
Lemma scan_handle_tables_shape visit act sc map st map' st' :
  (forall t s, act t s = scan_table visit t s) ->
  0 < thread_count sc ->
  scan_handle_tables act sc map st = Some (map', st') ->
  forall p, lk_map map p = None <-> lk_map map' p = None.
Proof.
  intros Hact Hstep Hs p.
  destruct (scan_handle_tables_spec R_any visit no_pot no_cost
              (lawful_any visit) act
              (act_spec_of_eq _ _ _ _ _ (lawful_any visit) Hact)
              sc Hstep map st map' st' Hs) as (_ & _ & Hrel).
  specialize (Hrel p).
  destruct (lk_map map p), (lk_map map' p); simpl in Hrel; done.
Qed.

Lemma visited_dec sc k : 0 < thread_count sc -> visited sc k \/ ~ visited sc k.
Proof. intros Hstep. by apply on_stride_dec. Qed.

(** The weak check of a phase, at every address of the map. *)
Lemma weak_check_phase_at types mask condemned maxgen flags sc map st :
  HNDTYPE_VARIABLE ∉ types -> 0 < thread_count sc ->
  exists map',
    ('(map1, st1) ← scan_handle_tables
        (fun hTable => HndScanHandlesForGC hTable CheckPromoted sc tt
                         types (length types) condemned maxgen flags) sc map st;
     if FEATURE_VARIABLE_HANDLES
     then TraceVariableHandles CheckPromoted sc tt mask
                               condemned maxgen flags map1 st1
     else Some (map1, st1)) = Some (map', st) /\
    forall c i k j,
      match handle_at map c i k j with
      | None => handle_at map' c i k j = None
      | Some h =>
          (visited sc k ->
           handle_at map' c i k j =
           Some (if weak_checked types mask h
                 then check_promoted_result st h else h)) /\
          (~ visited sc k -> handle_at map' c i k j = Some h)
      end.
Proof.
  intros Hnv Hstep.
  destruct (weak_check_phase types mask condemned maxgen flags sc map st Hnv Hstep)
    as (map' & Hrun & Hrel).
  exists map'. split; [done|]. intros c i k j.
  destruct (handle_at map c i k j) as [h|] eqn:Hh; [by apply Hrel|].
  destruct (scan_handle_tables _ sc map st) as [[map1 st1]|] eqn:Hs1;
    simpl in Hrun; [|done].
  pose proof (scan_handle_tables_shape
                (scan_handle CheckPromoted sc tt (take (length types) types))
                _ sc map st map1 st1 (fun _ _ => eq_refl) Hstep Hs1 [c; i; k; j])
    as Hshape1.
  unfold handle_at in *. apply Hshape1 in Hh.
  destruct FEATURE_VARIABLE_HANDLES; [|by simplify_eq].
  unfold TraceVariableHandles in Hrun.
  by apply (scan_handle_tables_shape
              (scan_handle VariableTraceDispatcher sc
                 (mkVARSCANINFO mask CheckPromoted tt) (take 1 [HNDTYPE_VARIABLE]))
              _ sc map1 st1 map' st (fun _ _ => eq_refl) Hstep Hrun [c; i; k; j]).
Qed.

Lemma check_promoted_result_idemp st h :
  check_promoted_result st (check_promoted_result st h) = check_promoted_result st h.
Proof.
  unfold check_promoted_result.
  destruct (IsPromoted (gc_heap st) (hObj h)) eqn:Hp; simpl.
  - by rewrite Hp.
  - by destruct (IsPromoted (gc_heap st) NULL).
Qed.

Lemma weak_checked_check_promoted_result types mask st h :
  weak_checked types mask (check_promoted_result st h) = weak_checked types mask h.
Proof.
  unfold weak_checked, check_promoted_result.
  by destruct (IsPromoted (gc_heap st) (hObj h)).
Qed.

(** Checking twice is checking once. *)
Lemma weak_check_twice types mask st h :
  let once := if weak_checked types mask h then check_promoted_result st h else h in
  (if weak_checked types mask once then check_promoted_result st once else once)
  = once.
Proof.
  simpl. destruct (weak_checked types mask h) eqn:Hw.
  - by rewrite weak_checked_check_promoted_result, Hw, check_promoted_result_idemp.
  - by rewrite Hw.
Qed.

(** The check of one phase after the check of another. *)
Lemma weak_check_both types1 mask1 types2 mask2 st h :
  let first := if weak_checked types1 mask1 h then check_promoted_result st h else h in
  (if weak_checked types2 mask2 first then check_promoted_result st first else first)
  = if weak_checked types1 mask1 h || weak_checked types2 mask2 h
    then check_promoted_result st h else h.
Proof.
  simpl. destruct (weak_checked types1 mask1 h) eqn:Hw1; simpl.
  - rewrite weak_checked_check_promoted_result, check_promoted_result_idemp.
    by destruct (weak_checked types2 mask2 h).
  - done.
Qed.

Lemma Ref_CheckAlive_at condemned maxgen sc map st :
  0 < thread_count sc ->
  exists map', Ref_CheckAlive condemned maxgen sc map st = Some (map', st) /\
    forall c i k j,
      match handle_at map c i k j with
      | None => handle_at map' c i k j = None
      | Some h =>
          (visited sc k ->
           handle_at map' c i k j =
           Some (if weak_checked Ref_CheckAlive_types VHT_WEAK_SHORT h
                 then check_promoted_result st h else h)) /\
          (~ visited sc k -> handle_at map' c i k j = Some h)
      end.
Proof.
  intros Hstep. apply weak_check_phase_at; [|done].
  rewrite Ref_CheckAlive_types_spec. intros [?|[_ ?]]; done.
Qed.

Lemma Ref_CheckReachable_at condemned maxgen sc map st :
  0 < thread_count sc ->
  exists map', Ref_CheckReachable condemned maxgen sc map st = Some (map', st) /\
    forall c i k j,
      match handle_at map c i k j with
      | None => handle_at map' c i k j = None
      | Some h =>
          (visited sc k ->
           handle_at map' c i k j =
           Some (if weak_checked Ref_CheckReachable_types VHT_WEAK_LONG h
                 then check_promoted_result st h else h)) /\
          (~ visited sc k -> handle_at map' c i k j = Some h)
      end.
Proof.
  intros Hstep. apply weak_check_phase_at; [|done].
  rewrite Ref_CheckReachable_types_spec. intros [?|[[_ ?]|?]]; done.
Qed.

(** Two runs of one check, or one run of each, address by address. *)
Lemma weak_check_then (f1 f2 : Handle -> Handle) sc (map map1 map2 : HandleTableMap) :
  0 < thread_count sc ->
  (forall c i k j,
     match handle_at map c i k j with
     | None => handle_at map1 c i k j = None
     | Some h => (visited sc k -> handle_at map1 c i k j = Some (f1 h)) /\
                 (~ visited sc k -> handle_at map1 c i k j = Some h)
     end) ->
  (forall c i k j,
     match handle_at map1 c i k j with
     | None => handle_at map2 c i k j = None
     | Some h => (visited sc k -> handle_at map2 c i k j = Some (f2 h)) /\
                 (~ visited sc k -> handle_at map2 c i k j = Some h)
     end) ->
  forall c i k j,
    match handle_at map c i k j with
    | None => handle_at map2 c i k j = None
    | Some h => (visited sc k -> handle_at map2 c i k j = Some (f2 (f1 h))) /\
                (~ visited sc k -> handle_at map2 c i k j = Some h)
    end.
Proof.
  intros Hstep H1 H2 c i k j. specialize (H1 c i k j). specialize (H2 c i k j).
  destruct (handle_at map c i k j) as [h|].
  - destruct H1 as [Hv1 Hn1]. split; intros HV.
    + rewrite (Hv1 HV) in H2. by apply H2.
    + rewrite (Hn1 HV) in H2. by apply H2.
  - by rewrite H1 in H2.
Qed.

(** X1.  Checking the weak handles a second time changes nothing: a second
    run of [Ref_CheckAlive], or of [Ref_CheckReachable], on the map the
    first run left, with the collector's state as it was, returns a map
    that holds the same handle at every address. *)
Theorem weak_check_idempotent (condemned maxgen : nat) (sc : ScanContext)
    (map : HandleTableMap) (st : GcState) :
  0 < thread_count sc ->
  (exists map1 map2,
     Ref_CheckAlive condemned maxgen sc map st = Some (map1, st) /\
     Ref_CheckAlive condemned maxgen sc map1 st = Some (map2, st) /\
     forall c i k j, handle_at map2 c i k j = handle_at map1 c i k j) /\
  (exists map1 map2,
     Ref_CheckReachable condemned maxgen sc map st = Some (map1, st) /\
     Ref_CheckReachable condemned maxgen sc map1 st = Some (map2, st) /\
     forall c i k j, handle_at map2 c i k j = handle_at map1 c i k j).
Proof.
  intros Hstep. split.
  - destruct (Ref_CheckAlive_at condemned maxgen sc map st Hstep)
      as (map1 & Hs1 & Hrel1).
    destruct (Ref_CheckAlive_at condemned maxgen sc map1 st Hstep)
      as (map2 & Hs2 & Hrel2).
    exists map1, map2. split_and!; [done|done|].
    intros c i k j.
    pose proof (weak_check_then _ _ sc map map1 map2 Hstep Hrel1 Hrel2 c i k j)
      as H12.
    specialize (Hrel1 c i k j).
    destruct (handle_at map c i k j) as [h|]; [|congruence].
    destruct (visited_dec sc k Hstep) as [HV|HV].
    + destruct H12 as [Hv12 _]. destruct Hrel1 as [Hv1 _].
      rewrite (Hv12 HV), (Hv1 HV). f_equal. apply weak_check_twice.
    + destruct H12 as [_ Hn12]. destruct Hrel1 as [_ Hn1].
      by rewrite (Hn12 HV), (Hn1 HV).
  - destruct (Ref_CheckReachable_at condemned maxgen sc map st Hstep)
      as (map1 & Hs1 & Hrel1).
    destruct (Ref_CheckReachable_at condemned maxgen sc map1 st Hstep)
      as (map2 & Hs2 & Hrel2).
    exists map1, map2. split_and!; [done|done|].
    intros c i k j.
    pose proof (weak_check_then _ _ sc map map1 map2 Hstep Hrel1 Hrel2 c i k j)
      as H12.
    specialize (Hrel1 c i k j).
    destruct (handle_at map c i k j) as [h|]; [|congruence].
    destruct (visited_dec sc k Hstep) as [HV|HV].
    + destruct H12 as [Hv12 _]. destruct Hrel1 as [Hv1 _].
      rewrite (Hv12 HV), (Hv1 HV). f_equal. apply weak_check_twice.
    + destruct H12 as [_ Hn12]. destruct Hrel1 as [_ Hn1].
      by rewrite (Hn12 HV), (Hn1 HV).
Qed.

(** X2.  The two weak checks commute: [Ref_CheckAlive] followed by
    [Ref_CheckReachable] and [Ref_CheckReachable] followed by
    [Ref_CheckAlive], with the collector's state the same throughout,
    leave the same handle at every address. *)
Theorem weak_checks_commute (condemned maxgen : nat) (sc : ScanContext)
    (map : HandleTableMap) (st : GcState) :
  0 < thread_count sc ->
  exists mapA mapAR mapR mapRA,
    Ref_CheckAlive condemned maxgen sc map st = Some (mapA, st) /\
    Ref_CheckReachable condemned maxgen sc mapA st = Some (mapAR, st) /\
    Ref_CheckReachable condemned maxgen sc map st = Some (mapR, st) /\
    Ref_CheckAlive condemned maxgen sc mapR st = Some (mapRA, st) /\
    forall c i k j, handle_at mapAR c i k j = handle_at mapRA c i k j.
Proof.
  intros Hstep.
  destruct (Ref_CheckAlive_at condemned maxgen sc map st Hstep)
    as (mapA & HsA & HrelA).
  destruct (Ref_CheckReachable_at condemned maxgen sc mapA st Hstep)
    as (mapAR & HsAR & HrelAR).
  destruct (Ref_CheckReachable_at condemned maxgen sc map st Hstep)
    as (mapR & HsR & HrelR).
  destruct (Ref_CheckAlive_at condemned maxgen sc mapR st Hstep)
    as (mapRA & HsRA & HrelRA).
  exists mapA, mapAR, mapR, mapRA. split_and!; try done.
  intros c i k j.
  pose proof (weak_check_then _ _ sc map mapA mapAR Hstep HrelA HrelAR c i k j)
    as H1.
  pose proof (weak_check_then _ _ sc map mapR mapRA Hstep HrelR HrelRA c i k j)
    as H2.
  destruct (handle_at map c i k j) as [h|]; [|congruence].
  destruct (visited_dec sc k Hstep) as [HV|HV].
  - destruct H1 as [Hv1 _]. destruct H2 as [Hv2 _].
    rewrite (Hv1 HV), (Hv2 HV). f_equal.
    rewrite !weak_check_both. by rewrite orb_comm.
  - destruct H1 as [_ Hn1]. destruct H2 as [_ Hn2].
    by rewrite (Hn1 HV), (Hn2 HV).
Qed.

(** X3.  The promotion scan followed by the clearing scan settles every
    dependent handle of the map.  For one worker that scans every table,
    with a monotone oracle: the promotion loop returns, the clearing scan
    returns and leaves the collector alone.  Afterwards the map holds a
    handle where it held one, of the same type, and handles that are not
    dependent, or are in no scanned table, are as they were.  A dependent
    handle whose primary is not promoted has both words null.  A
    dependent handle whose primary is promoted keeps its primary; if the
    primary is not null its secondary is promoted, and if the primary is
    null (and null counts as promoted) the secondary is the word it
    was. *)
Theorem dependent_handles_settled
    (pDhContext : nat) (ctx : DhContext) (condemned maxgen : nat)
    (map : HandleTableMap) (st : GcState) :
  g_pDependentHandleContexts st !! pDhContext = Some ctx ->
  pDhContext = Ref_GetDependentHandleContext (m_pScanContext ctx) ->
  thread_number (m_pScanContext ctx) = 0 ->
  thread_count (m_pScanContext ctx) = 1 ->
  monotone_oracle (m_pfnPromoteFunction ctx) ->
  exists bound r map1 st1 map2,
    (forall fuel, bound < fuel ->
       Ref_ScanDependentHandlesForPromotion fuel pDhContext map st
       = Some (r, map1, st1)) /\
    Ref_ScanDependentHandlesForClearing condemned maxgen (m_pScanContext ctx)
      map1 st1 = Some (map2, st1) /\
    (forall c i k j h,
       handle_at map2 c i k j = Some h -> hType h = HNDTYPE_DEPENDENT ->
       k < getNumberOfSlots ->
       (IsPromoted (gc_heap st1) (hObj h) = false ->
        hObj h = NULL /\ hExtra h = NULL) /\
       (hObj h <> NULL ->
        IsPromoted (gc_heap st1) (hObj h) = true /\
        IsPromoted (gc_heap st1) (hExtra h) = true)) /\
    (forall c i k j,
       match handle_at map c i k j with
       | None => handle_at map2 c i k j = None
       | Some h =>
           exists h2, handle_at map2 c i k j = Some h2 /\
             hType h2 = hType h /\
             (hType h <> HNDTYPE_DEPENDENT \/ ~ k < getNumberOfSlots ->
              h2 = h) /\
             (hType h = HNDTYPE_DEPENDENT -> k < getNumberOfSlots ->
              (IsPromoted (gc_heap st1) (hObj h) = false ->
               hObj h2 = NULL /\ hExtra h2 = NULL) /\
              (IsPromoted (gc_heap st1) (hObj h) = true ->
               hObj h2 = hObj h /\
               (hObj h <> NULL ->
                IsPromoted (gc_heap st1) (hExtra h2) = true) /\
               (hObj h = NULL -> hExtra h2 = hExtra h)))
       end).
Proof.
  intros Hctx Hd Hnum Hcount Hmono.
  assert (Hstep : 0 < thread_count (m_pScanContext ctx)) by lia.
  destruct (dependent_scan_loop_facts (pot_map dep_pot map st) pDhContext
              (Z.lor (if concurrent (m_pScanContext ctx)
                      then HNDGCF_ASYNC else HNDGCF_NORMAL) HNDGCF_EXTRAINFO)
              false map st ctx)
    as (r & map1 & st1 & new & Hloop & _ & _ & _ & _ & Hfix & Hscanned);
    [lia|done|done|lia|done|].
  destruct (pure_scan
              (scan_handle ClearDependentHandle (m_pScanContext ctx) tt
                 [HNDTYPE_DEPENDENT])
              (fun hTable => HndScanHandlesForGC hTable ClearDependentHandle
                               (m_pScanContext ctx) tt
                               [HNDTYPE_DEPENDENT] 1 condemned maxgen
                               (Z.lor (scan_flags (m_pScanContext ctx))
                                      HNDGCF_EXTRAINFO))
              (m_pScanContext ctx) map1 st1) as (map2 & Hs & Hrel); [| |done|].
  { apply scan_handle_state. intros. apply ClearDependentHandle_state. }
  { done. }
  assert (Hvisited : forall c i k j,
            V_map (m_pScanContext ctx) [c; i; k; j] <-> k < getNumberOfSlots).
  { intros c i k j. simpl. unfold visited, on_stride, getSlotNumber,
      getThreadCount. rewrite Hnum, Hcount. split.
    - by intros [q [_ ?]].
    - intros Hk. exists k. split; [by destruct IsServerHeap; lia|done]. }
  exists (pot_map dep_pot map st), r, map1, st1, map2. split_and!.
  - intros fuel Hfuel. unfold Ref_ScanDependentHandlesForPromotion.
    rewrite Hctx. cbn [mbind option_bind].
    eapply dependent_scan_loop_more_fuel; [exact Hloop|lia].
  - exact Hs.
  - intros c i k j h Hh Hty Hk.
    assert (HV : V_map (m_pScanContext ctx) [c; i; k; j])
      by (by apply Hvisited).
    specialize (Hrel [c; i; k; j]). unfold handle_at in *.
    destruct (lk_map map1 [c; i; k; j]) as [h1|] eqn:Hh1; [|congruence].
    destruct Hrel as [Hv _]. rewrite (Hv HV) in Hh.
    injection Hh as Hh.
    assert (Hty1 : hType h1 = HNDTYPE_DEPENDENT)
      by (rewrite <- Hty, <- Hh; symmetry; apply scan_handle_type).
    rewrite scan_handle_hit in Hh by (rewrite Hty1; apply list_elem_of_here).
    unfold ClearDependentHandle in Hh.
    destruct (IsPromoted (gc_heap st1) (hObj h1)) eqn:Hp; simpl in Hh; subst h;
      simpl.
    + split; [congruence|]. intros Hnull. split; [done|].
      by apply (Hfix [c; i; k; j] h1 Hh1 Hty1 HV Hnull).
    + split; done.
  - intros c i k j. specialize (Hscanned [c; i; k; j]).
    specialize (Hrel [c; i; k; j]). unfold handle_at.
    destruct (lk_map map [c; i; k; j]) as [h|].
    2:{ by rewrite Hscanned in Hrel. }
    destruct Hscanned as (h1 & Hh1 & Hs1). rewrite Hh1 in Hrel.
    destruct Hrel as [Hv Hn].
    assert (Hkeep : hType h1 = hType h /\ hObj h1 = hObj h /\
              (hType h <> HNDTYPE_DEPENDENT \/ hObj h = NULL \/
               ~ V_map (m_pScanContext ctx) [c; i; k; j] -> h1 = h)).
    { destruct Hs1 as [->|(HV & Hty & Hnull & _ & _ & _ & g & ->)];
        [done|]. simpl. split_and!; [done|done|].
      intros [?|[?|?]]; done. }
    destruct Hkeep as (Hty1 & Hobj1 & Hsame).
    destruct (V_map_dec (m_pScanContext ctx) [c; i; k; j] Hstep) as [HV|HV].
    + rewrite (Hv HV). eexists. split; [done|].
      split; [by rewrite scan_handle_type|]. split.
      * intros [Hty|Hk]; [|by apply Hvisited in HV].
        rewrite scan_handle_skip by (rewrite list_elem_of_singleton; congruence).
        simpl. apply Hsame. by left.
      * intros Hty _.
        rewrite scan_handle_hit
          by (rewrite Hty1, Hty; apply list_elem_of_here).
        unfold ClearDependentHandle. rewrite Hobj1.
        destruct (IsPromoted (gc_heap st1) (hObj h)) eqn:Hp; simpl.
        -- split; [done|]. intros _. split_and!; [done| |].
           ++ intros Hnull. apply (Hfix [c; i; k; j] h1 Hh1); try done;
                congruence.
           ++ intros Hnull. by rewrite Hsame by auto.
        -- split; [done|]. done.
    + rewrite (Hn HV). exists h1. split; [done|]. split; [done|].
      split; [intros _; apply Hsame; auto|].
      intros _ Hk. destruct HV. by apply Hvisited.
Qed.

(** X4.  Under a server heap the workers split the tables of every bucket
    among them.  Each table is on the stride of exactly one of the [count]
    workers, and the scan of any callback over any list of types by one
    worker returns and leaves every handle of a table off its stride as it
    was. *)
Theorem workers_scan_disjoint_tables {LP2} (pfnScan : HANDLESCANPROC LP2)
    (lp2 : LP2) (types : list HandleType) (uTypeCount condemned maxgen : nat)
    (flags : Z) (count w : nat) (conc : bool)
    (map : HandleTableMap) (st : GcState) :
  IsServerHeap = true -> w < count ->
  let sc := mkScanContext w count conc in
  (forall k, k < getNumberOfSlots ->
     exists w0, w0 < count /\ visited (mkScanContext w0 count conc) k /\
       forall w', w' < count -> visited (mkScanContext w' count conc) k ->
                  w' = w0) /\
  exists map' st',
    scan_handle_tables
      (fun hTable => HndScanHandlesForGC hTable pfnScan sc lp2 types uTypeCount
                       condemned maxgen flags) sc map st = Some (map', st') /\
    forall w' c i k j, w' < count -> w' <> w ->
      visited (mkScanContext w' count conc) k ->
      handle_at map' c i k j = handle_at map c i k j.
Proof.
  intros Hserver Hw sc. assert (Hstep : 0 < thread_count sc) by (simpl; lia).
  split.
  { intros k Hk. apply stride_partition; [done|lia|done]. }
  destruct (scan_handle_tables_total
              (fun hTable => HndScanHandlesForGC hTable pfnScan sc lp2 types
                               uTypeCount condemned maxgen flags) sc map st Hstep)
    as [[map' st'] Hs].
  exists map', st'. split; [done|].
  intros w' c i k j Hw' Hne HV'.
  assert (HnV : ~ visited sc k).
  { intros HV. assert (Hk : k < getNumberOfSlots) by (by destruct HV as [q [_ ?]]).
    destruct (stride_partition count k conc Hserver ltac:(lia) Hk)
      as (w0 & _ & _ & Huniq).
    assert (w = w0) by (by apply Huniq).
    assert (w' = w0) by (by apply Huniq).
    congruence. }
  destruct (scan_handle_tables_spec R_any
              (scan_handle pfnScan sc lp2 (take uTypeCount types))
              no_pot no_cost (lawful_any _) _
              (act_spec_of_eq _ _ _ _ _ (lawful_any _) (fun _ _ => eq_refl))
              sc Hstep map st map' st' Hs) as (_ & _ & Hrel).
  specialize (Hrel [c; i; k; j]). unfold handle_at.
  destruct (lk_map map [c; i; k; j]) as [h|],
           (lk_map map' [c; i; k; j]) as [h'|]; simpl in Hrel; try done.
  destruct Hrel as [_ Hn]. f_equal. by apply Hn.
Qed.

Lemma scan_list_ext {A} (f g : A -> GcState -> option (A * GcState)) :
  (forall a s, f a s = g a s) -> forall l s, scan_list f l s = scan_list g l s.
Proof.
  intros Hfg l. induction l as [|a l IH]; intros s; simpl; [done|].
  rewrite Hfg. destruct (g a s) as [[a1 s1]|]; simpl; [|done]. by rewrite IH.
Qed.

Lemma scan_opt_ext {A} (f g : A -> GcState -> option (A * GcState)) :
  (forall a s, f a s = g a s) -> forall oa s, scan_opt f oa s = scan_opt g oa s.
Proof. intros Hfg [a|] s; simpl; [by rewrite Hfg|done]. Qed.

Lemma scan_slots_ext (act act' : table_scan) :
  (forall t s, act t s = act' t s) ->
  forall fuel i limit step pT s,
    scan_slots fuel act i limit step pT s = scan_slots fuel act' i limit step pT s.
Proof.
  intros Hact fuel. induction fuel as [|fuel IH]; intros i limit step pT s;
    simpl; [done|].
  destruct (limit <=? i); [done|].
  destruct (pT !! i) as [[t|]|]; [rewrite Hact; destruct (act' t s)| |];
    apply IH.
Qed.

(** The one table a workstation collector has in a bucket. *)
Lemma scan_bucket_workstation act sc b st :
  IsServerHeap = false -> 0 < thread_count sc ->
  scan_bucket act sc b st =
  Some (match pTable b !! 0 with
        | Some (Some hTable) =>
            (mkBucket (<[0 := Some (act hTable st).1]> (pTable b))
                      (HandleTableIndex b), (act hTable st).2)
        | _ => (mkBucket (pTable b) (HandleTableIndex b), st)
        end).
Proof.
  intros Hws Hstep. unfold scan_bucket, getSlotNumber, getNumberOfSlots,
    getThreadCount. rewrite Hws. simpl.
  destruct (thread_count sc) as [|n]; [lia|].
  destruct (pTable b !! 0) as [[hTable|]|]; [destruct (act hTable st)| |];
    done.
Qed.

(** X5.  With a workstation collector the scan context does not choose
    the tables.  A bucket has one table, entry 0 of [pTable]; whatever
    [thread_number] and [thread_count] (at least 1) the scan context
    carries, the walk scans that table and no other: it returns, every
    handle of a table 0 has been visited once, so that it holds what the
    visit made of it at the state it then found, and every handle of
    another table is as it was.  Two walks that run the same scan on a
    table give the same result, whatever their scan contexts. *)
Theorem workstation_scan_ignores_worker
    (visit : Handle -> GcState -> Handle * GcState) (act act' : table_scan)
    (sc sc' : ScanContext) (map : HandleTableMap) (st : GcState) :
  IsServerHeap = false -> 0 < thread_count sc -> 0 < thread_count sc' ->
  (forall t s, act t s = act' t s) ->
  (forall t s, act t s = scan_table visit t s) ->
  (forall k, visited sc k <-> k = 0) /\
  scan_handle_tables act sc map st = scan_handle_tables act' sc' map st /\
  exists map' st',
    scan_handle_tables act sc map st = Some (map', st') /\
    forall c i k j,
      match handle_at map c i k j with
      | None => handle_at map' c i k j = None
      | Some h =>
          (k = 0 ->
           exists s, handle_at map' c i k j = Some (visit h s).1) /\
          (k <> 0 -> handle_at map' c i k j = Some h)
      end.
Proof.
  intros Hws Hstep Hstep' Hact Hvisit.
  assert (Hvisited : forall k, visited sc k <-> k = 0).
  { intros k. unfold visited, on_stride, getSlotNumber, getNumberOfSlots,
      getThreadCount. rewrite Hws. simpl. split.
    - intros [q [Hq Hlt]]. lia.
    - intros ->. exists 0. lia. }
  split; [exact Hvisited|]. split.
  - unfold scan_handle_tables. apply scan_list_ext. intros n s.
    unfold scan_node.
    rewrite (scan_list_ext (scan_opt (scan_bucket act sc))
                           (scan_opt (scan_bucket act' sc'))); [done|].
    apply scan_opt_ext. intros b s0.
    rewrite !scan_bucket_workstation by done.
    destruct (pTable b !! 0) as [[t|]|]; [by rewrite Hact|done|done].
  - destruct (scan_handle_tables_total act sc map st Hstep)
      as [[map' st'] Hs].
    exists map', st'. split; [done|].
    destruct (scan_handle_tables_spec R_any visit no_pot no_cost
                (lawful_any _) act
                (act_spec_of_eq _ _ _ _ _ (lawful_any _) Hvisit)
                sc Hstep map st map' st' Hs) as (_ & _ & Hrel).
    intros c i k j. specialize (Hrel [c; i; k; j]). unfold handle_at.
    destruct (lk_map map [c; i; k; j]) as [h|],
             (lk_map map' [c; i; k; j]) as [h'|]; simpl in Hrel; try done.
    destruct Hrel as [Hv Hn]. split.
    + intros Hk. destruct Hv as (s & _ & -> & _); [by apply Hvisited|].
      by exists s.
    + intros Hk. f_equal. apply Hn. by rewrite Hvisited.
Qed.

End Phases.

(** * Start-up, whichever allocation fails *)

Section InitMore.
Context `{GCEnv}.

Lemma alloc_results_drop st :
  alloc_results (alloc st).2 = drop 1 (alloc_results st).
Proof. unfold alloc. by destruct (alloc_results st) as [|[] rest]. Qed.

Lemma alloc_fails_iff st :
  (alloc st).1 = None <-> alloc_results st !! 0 = Some false.
Proof.
  unfold alloc. destruct (alloc_results st) as [|[] rest]; simpl;
    split; intros; congruence.
Qed.

Lemma alloc_block st b : (alloc st).1 = Some b -> b = next_block st.
Proof.
  unfold alloc. destruct (alloc_results st) as [|[] rest]; simpl; congruence.
Qed.

Lemma alloc_same_globals st : same_globals st (alloc st).2.
Proof.
  unfold alloc, same_globals.
  destruct (alloc_results st) as [|[] rest]; simpl; split_and!; done.
Qed.

Lemma not_elem_of_take_S (n : nat) (l : list bool) :
  false ∉ take (S n) l <-> l !! 0 <> Some false /\ false ∉ take n (drop 1 l).
Proof.
  destruct l as [|b l]; simpl.
  - rewrite take_nil. split; [intros _; split; [done|apply not_elem_of_nil]|].
    intros _. apply not_elem_of_nil.
  - rewrite drop_0, not_elem_of_cons. split.
    + intros [Hb Hl]. split; [congruence|done].
    + intros [Hb Hl]. split; [congruence|done].
Qed.

Lemma not_elem_of_take_snoc (n : nat) : forall l : list bool,
  false ∉ take (S n) l <-> (false ∉ take n l) /\ (drop n l !! 0 <> Some false).
Proof.
  induction n as [|n IH]; intros l.
  - rewrite not_elem_of_take_S, drop_0, !take_0.
    split; intros [? ?]; split; try done; apply not_elem_of_nil.
  - rewrite not_elem_of_take_S, IH, (not_elem_of_take_S n), drop_drop.
    replace (1 + n) with (S n) by done. tauto.
Qed.

Lemma create_handle_tables_spec count : forall uCPUindex st,
  let r := create_handle_tables count uCPUindex st in
  (r.1 = true <-> false ∉ take count (alloc_results st)) /\
  (r.1 = true -> alloc_results r.2 = drop count (alloc_results st)) /\
  same_globals st r.2.
Proof.
  induction count as [|count IH]; intros uCPUindex st; simpl.
  - split_and!; [|done|by unfold same_globals].
    split; [intros _; apply not_elem_of_nil|done].
  - destruct (alloc st) as [t st1] eqn:Ha.
    pose proof (alloc_fails_iff st) as Hf.
    pose proof (alloc_results_drop st) as Hd.
    pose proof (alloc_same_globals st) as Hg.
    rewrite Ha in Hf, Hd, Hg. simpl in Hf, Hd, Hg.
    destruct t as [tb|].
    + match goal with
      | |- context [create_handle_tables count (S uCPUindex) ?s] =>
          destruct (IH (S uCPUindex) s) as (Hiff & Hres & Hsame)
      end.
      simpl in Hiff, Hres, Hsame. rewrite Hd in Hiff, Hres.
      split_and!.
      * rewrite Hiff, not_elem_of_take_S. split; [|tauto].
        intros Hin. split; [|done]. intros Hhead. apply Hf in Hhead. done.
      * intros Ht. rewrite (Hres Ht). by rewrite drop_drop.
      * unfold same_globals in *. simpl in *. destruct_and!. split_and!; congruence.
    + simpl. split_and!.
      * split; [done|]. rewrite not_elem_of_take_S. intros [Hhead _].
        destruct Hhead. by apply Hf.
      * done.
      * unfold same_globals in *. simpl in *. done.
Qed.

Lemma CleanupAndFail_false pBuckets m_bucket sup st st' :
  CleanupAndFail pBuckets m_bucket sup st <> Some (true, st').
Proof.
  unfold CleanupAndFail.
  destruct (HandleTableBucketHolder_dtor _ _ _); simpl; congruence.
Qed.

(** X6.  [Ref_Initialize] returns true exactly when none of its
    allocations fails: the bucket array, the global store, the table array
    of the first bucket, one handle table for each of its
    [getNumberOfSlots] slots, and the array of dependent-handle contexts,
    in this order. *)
Theorem Ref_Initialize_succeeds_iff
    (INITIAL_HANDLE_TABLE_ARRAY_SIZE : nat) (st : InitState) :
  (exists st', Ref_Initialize INITIAL_HANDLE_TABLE_ARRAY_SIZE st
               = Some (true, st')) <->
  false ∉ take (4 + getNumberOfSlots) (alloc_results st).
Proof.
  unfold Ref_Initialize.
  change (4 + getNumberOfSlots) with (S (S (S (S getNumberOfSlots)))).
  destruct (alloc st) as [pB st1] eqn:Ha1.
  pose proof (alloc_fails_iff st) as Hf1. pose proof (alloc_results_drop st) as Hd1.
  rewrite Ha1 in Hf1, Hd1. simpl in Hf1, Hd1.
  rewrite not_elem_of_take_S.
  destruct pB as [pB|];
    [|split; [by intros [? ?]|intros [Hh _]; destruct Hh; by apply Hf1]].
  match goal with |- context [alloc ?s] => destruct (alloc s) as [store st2] eqn:Ha2;
    pose proof (alloc_fails_iff s) as Hf2; pose proof (alloc_results_drop s) as Hd2;
    rewrite Ha2 in Hf2, Hd2; simpl in Hf2, Hd2 end.
  rewrite Hd1 in Hf2, Hd2. rewrite not_elem_of_take_S.
  destruct store as [s|];
    [|split; [by intros [? ?]|intros (_ & Hh & _); destruct Hh; by apply Hf2]].
  match goal with |- context [alloc ?s] => destruct (alloc s) as [pT st3] eqn:Ha3;
    pose proof (alloc_fails_iff s) as Hf3; pose proof (alloc_results_drop s) as Hd3;
    rewrite Ha3 in Hf3, Hd3; simpl in Hf3, Hd3 end.
  rewrite Hd2 in Hf3, Hd3. rewrite not_elem_of_take_S.
  destruct pT as [pT|].
  2:{ split; [intros [st' Hst']; by apply CleanupAndFail_false in Hst'|].
      intros (_ & _ & Hh & _). destruct Hh. by apply Hf3. }
  match goal with |- context [create_handle_tables ?c ?i ?s] =>
    destruct (create_handle_tables_spec c i s) as (Hiff & Hres & _);
    destruct (create_handle_tables c i s) as [ok st4] eqn:Hc end.
  simpl in Hiff, Hres. rewrite Hd3 in Hiff, Hres.
  rewrite not_elem_of_take_snoc.
  destruct ok.
  - match goal with |- context [alloc ?s] => destruct (alloc s) as [dh st5] eqn:Ha5;
      pose proof (alloc_fails_iff s) as Hf5; rewrite Ha5 in Hf5; simpl in Hf5 end.
    rewrite (Hres eq_refl) in Hf5.
    destruct dh as [dh|].
    + split; [|intros _; by eexists]. intros _. split_and!.
      * intros Hh. apply Hf1 in Hh. done.
      * intros Hh. apply Hf2 in Hh. done.
      * intros Hh. apply Hf3 in Hh. done.
      * by apply Hiff.
      * intros Hh. apply Hf5 in Hh. done.
    + split; [intros [st' Hst']; by apply CleanupAndFail_false in Hst'|].
      intros (_ & _ & _ & _ & Hh). destruct Hh. by apply Hf5.
  - split; [intros [st' Hst']; by apply CleanupAndFail_false in Hst'|].
    intros (_ & _ & _ & Hin & _). by apply Hiff in Hin.
Qed.

Lemma release_live st b x :
  x ∈ live_blocks (release b st) -> x ∈ live_blocks st /\ x <> b.
Proof. unfold release. simpl. rewrite list_elem_of_filter. tauto. Qed.

(** X7.  What [Ref_Initialize] does when an allocation fails before
    [g_HandleTableMap] is published.  When the first allocation to fail
    is the bucket array or the store, it returns false and nothing is
    left: no block is live, and [g_HandleTableMap],
    [g_gcGlobalHandleStore] and [g_pDependentHandleContexts] are null.
    When it is the table array or one of the handle tables, the code
    under [CleanupAndFail] deletes the store, and the destructor of the
    holder, which runs at the [return false] that follows, reads
    [pTable] in the bucket inside the store: a read of freed memory, so
    that the call has no defined result. *)
Theorem Ref_Initialize_early_failure
    (INITIAL_HANDLE_TABLE_ARRAY_SIZE p : nat) (rest : list bool) :
  p < 3 + getNumberOfSlots ->
  let st := before_Ref_Initialize (replicate p true ++ false :: rest) in
  (p < 2 ->
   exists r,
     Ref_Initialize INITIAL_HANDLE_TABLE_ARRAY_SIZE st = Some (false, r) /\
     map_pBuckets r = None /\ map_dwMaxIndex r = 0 /\ map_pNext r = None /\
     dh_contexts_ptr r = None /\
     g_gcGlobalHandleStore r = None /\ live_blocks r = []) /\
  (2 <= p -> Ref_Initialize INITIAL_HANDLE_TABLE_ARRAY_SIZE st = None).
Proof.
  intros Hp st. subst st. unfold Ref_Initialize, before_Ref_Initialize.
  destruct p as [|[|[|q]]].
  - split; [|lia]. intros _. simpl. eexists. split; [done|]. done.
  - split; [|lia]. intros _. simpl. eexists. split; [done|]. done.
  - split; [lia|]. intros _. reflexivity.
  - split; [lia|]. intros _.
    simpl replicate. simpl app.
    erewrite alloc_success by done. simpl.
    match goal with
    | |- context [create_handle_tables ?c ?i ?s] =>
        destruct (create_handle_tables_spec c i s) as (Hiff & _ & Hsame);
        destruct (create_handle_tables c i s) as [ok st4] eqn:Hc
    end.
    simpl in Hiff, Hsame.
    assert (ok = false) as ->.
    { destruct ok; [|done]. exfalso.
      assert (Hnin : false ∉ take getNumberOfSlots (replicate q true ++ false :: rest))
        by (by apply Hiff).
      apply Hnin. apply list_elem_of_lookup. exists q.
      rewrite lookup_take_lt by lia.
      rewrite lookup_app_r by (rewrite length_replicate; lia).
      rewrite length_replicate. by replace (q - q) with 0 by lia. }
    unfold same_globals in Hsame. simpl in Hsame.
    destruct Hsame as (HpB & Hmax & Hnext & Hstore & Hdh & _).
    unfold CleanupAndFail.
    change (g_gcGlobalHandleStore (release 0 st4))
      with (g_gcGlobalHandleStore st4).
    rewrite Hstore. unfold HandleTableBucketHolder_dtor.
    rewrite bool_decide_eq_false_2; [done|].
    intros Hin. apply release_live in Hin as [_ ?]. done.
Qed.

End InitMore.

(** * The walks by a single thread *)

Section SingleThread.
Context `{GCHost}.

(** The loop over every slot is the strided loop with a stride of one. *)
Lemma scan_every_slot_stride act : forall count fuel uCPUindex limit pT st,
  limit = uCPUindex + count -> count <= fuel ->
  scan_slots fuel act uCPUindex limit 1 pT st
  = Some (scan_every_slot count act uCPUindex pT st).
Proof.
  induction count as [|count IH]; intros fuel i limit pT st Hlimit Hfuel.
  - assert (Hle : (limit <=? i) = true) by (apply Nat.leb_le; lia).
    destruct fuel; simpl; by rewrite Hle.
  - destruct fuel as [|fuel]; [lia|].
    assert (Hle : (limit <=? i) = false) by (apply Nat.leb_gt; lia).
    simpl. rewrite Hle.
    destruct (pT !! i) as [[t|]|]; [destruct (act t st) as [t' st']| |];
      (rewrite IH; [|lia|lia]); by rewrite Nat.add_1_r.
Qed.

Lemma scan_bucket_by_single_thread_stride act sc b st :
  getSlotNumber sc = 0 -> thread_count sc = 1 ->
  scan_bucket_by_single_thread act b st = scan_bucket act sc b st.
Proof.
  intros Hnum Hcount. unfold scan_bucket, scan_bucket_by_single_thread,
    getThreadCount. rewrite Hnum, Hcount.
  rewrite (scan_every_slot_stride act getNumberOfSlots) by lia.
  simpl. by destruct (scan_every_slot _ _ _ _ _).
Qed.

Lemma scan_handle_tables_by_single_thread_stride act sc map st :
  getSlotNumber sc = 0 -> thread_count sc = 1 ->
  scan_handle_tables_by_single_thread act map st
  = scan_handle_tables act sc map st.
Proof.
  intros Hnum Hcount.
  unfold scan_handle_tables_by_single_thread, scan_handle_tables.
  apply scan_list_ext. intros n s. unfold scan_node.
  rewrite (scan_list_ext (scan_opt (scan_bucket_by_single_thread act))
                         (scan_opt (scan_bucket act sc))); [done|].
  apply scan_opt_ext. intros b s0.
  by apply scan_bucket_by_single_thread_stride.
Qed.

(** A lone worker is on the stride of every table. *)
Lemma lone_worker_visits sc k :
  getSlotNumber sc = 0 -> thread_count sc = 1 ->
  visited sc k <-> k < getNumberOfSlots.
Proof.
  intros Hnum Hcount. unfold visited, on_stride, getThreadCount.
  rewrite Hnum, Hcount. split.
  - by intros [q [_ ?]].
  - intros Hk. exists k. lia.
Qed.

(** X8.  The walk by a single thread is the walk of a worker that is alone
    (the source asks that the two be kept in sync).
    [TraceVariableHandlesBySingleThread] gives what [TraceVariableHandles]
    gives for a scan context with slot number 0 and a thread count of 1,
    and such a worker scans every table of every bucket: each index below
    [getNumberOfSlots] is on its stride. *)
Theorem TraceVariableHandlesBySingleThread_in_sync {LP2}
    (pfnTrace : HANDLESCANPROC LP2) (sc : ScanContext) (lp2 : LP2)
    (uEnableMask : Z) (condemned maxgen : nat) (flags : Z)
    (map : HandleTableMap) (st : GcState) :
  getSlotNumber sc = 0 -> thread_count sc = 1 ->
  TraceVariableHandlesBySingleThread pfnTrace sc lp2 uEnableMask
    condemned maxgen flags map st
  = TraceVariableHandles pfnTrace sc lp2 uEnableMask
      condemned maxgen flags map st /\
  forall k, visited sc k <-> k < getNumberOfSlots.
Proof.
  intros Hnum Hcount. split.
  - unfold TraceVariableHandlesBySingleThread, TraceVariableHandles.
    by apply scan_handle_tables_by_single_thread_stride.
  - intros k. by apply lone_worker_visits.
Qed.

Lemma NullBridgeObjectWeakRef_result handle pExtraInfo length bridge st :
  NullBridgeObjectWeakRef handle pExtraInfo length bridge st
  = (if bool_decide (handle ∈ take length bridge) then NULL else handle,
     pExtraInfo, st).
Proof.
  unfold NullBridgeObjectWeakRef. f_equal. f_equal.
  generalize (take length bridge). intros l.
  assert (Hgen : forall slot,
            foldl (fun slot bridgeRef =>
                     if (handle =? bridgeRef)%Z then NULL else slot) slot l
            = if bool_decide (handle ∈ l) then NULL else slot).
  { induction l as [|b l IH]; intros slot; cbn [foldl].
    - by rewrite bool_decide_eq_false_2 by apply not_elem_of_nil.
    - rewrite IH. destruct (Z.eqb_spec handle b) as [->|Hne].
      + rewrite (bool_decide_eq_true_2 (b ∈ b :: l)) by apply list_elem_of_here.
        by destruct (bool_decide (b ∈ l)).
      + case_bool_decide as Hin.
        * by rewrite bool_decide_eq_true_2 by (by apply list_elem_of_further).
        * rewrite bool_decide_eq_false_2; [done|].
          rewrite elem_of_cons. intros [?|?]; done. }
  apply Hgen.
Qed.

(** X9.  [Ref_NullBridgeObjectsWeakRefs] nulls the short and long weak
    handles that refer to a bridge object, in every table, and nothing
    else.  In a table below [getNumberOfSlots] a WeakShort or WeakLong
    handle whose referent is among the first [length] bridge objects reads
    null afterwards, with its type and extra info as before; every other
    handle, whatever its type, is as it was, and so is the collector's
    state. *)
Theorem Ref_NullBridgeObjectsWeakRefs_result
    (length : nat) (unreachableObjectHandles : list ptr)
    (map : HandleTableMap) (st : GcState) :
  exists map',
    Ref_NullBridgeObjectsWeakRefs length unreachableObjectHandles map st
    = Some (map', st) /\
    forall c i k j,
      match handle_at map c i k j with
      | None => handle_at map' c i k j = None
      | Some h =>
          handle_at map' c i k j =
          Some (if bool_decide (k < getNumberOfSlots)
                   && bool_decide (hType h ∈ [HNDTYPE_WEAK_SHORT; HNDTYPE_WEAK_LONG])
                   && bool_decide (hObj h ∈ take length unreachableObjectHandles)
                then mkHandle (hType h) NULL (hExtra h) else h)
      end.
Proof.
  set (sc := mkScanContext 0 1 false).
  assert (Hnum : getSlotNumber sc = 0)
    by (unfold getSlotNumber; by destruct IsServerHeap).
  unfold Ref_NullBridgeObjectsWeakRefs.
  rewrite (scan_handle_tables_by_single_thread_stride _ sc) by done.
  destruct (pure_scan
              (enum_handle NullBridgeObjectWeakRef length
                 unreachableObjectHandles
                 (take 2 [HNDTYPE_WEAK_SHORT; HNDTYPE_WEAK_LONG]))
              (fun hTable => HndEnumHandles hTable
                               [HNDTYPE_WEAK_SHORT; HNDTYPE_WEAK_LONG] 2
                               NullBridgeObjectWeakRef length
                               unreachableObjectHandles false)
              sc map st) as (map' & Hs & Hrel).
  { intros h s. unfold enum_handle. case_bool_decide; [|done].
    by rewrite NullBridgeObjectWeakRef_result. }
  { done. }
  { simpl. lia. }
  exists map'. split; [done|]. intros c i k j.
  specialize (Hrel [c; i; k; j]). unfold handle_at.
  destruct (lk_map map [c; i; k; j]) as [h|]; [|done].
  destruct Hrel as [Hv Hn]. case_bool_decide as Hk; cbn [andb].
  - rewrite Hv by (simpl; by apply lone_worker_visits).
    f_equal. unfold enum_handle. simpl take.
    case_bool_decide; cbn [andb]; [|done].
    rewrite NullBridgeObjectWeakRef_result. cbn [fst snd].
    case_bool_decide; [done|]. by destruct h.
  - apply Hn. simpl. by rewrite lone_worker_visits.
Qed.

(** X18.  [Ref_TraceRefCountHandles] enumerates the ref-counted handles,
    and only those.  The walk returns for any callback.  A RefCounted
    handle in a table below [getNumberOfSlots] holds afterwards the two
    words the callback left, for the collector's state at the time of the
    call, and is still RefCounted; a handle of any other type, and any
    handle of a table from [getNumberOfSlots] on, is as it was.  Built
    without [FEATURE_REFCOUNTED_HANDLES] the function changes nothing and
    never calls the callback. *)
Theorem Ref_TraceRefCountHandles_enumerates {LP1 LP2}
    (callback : HNDENUMPROC LP1 LP2) (lParam1 : LP1) (lParam2 : LP2)
    (map : HandleTableMap) (st : GcState) :
  exists map' st',
    Ref_TraceRefCountHandles callback lParam1 lParam2 map st
    = Some (map', st') /\
    (FEATURE_REFCOUNTED_HANDLES = false -> map' = map /\ st' = st) /\
    forall c i k j,
      match handle_at map c i k j with
      | None => handle_at map' c i k j = None
      | Some h =>
          (k < getNumberOfSlots -> hType h = HNDTYPE_REFCOUNTED ->
           FEATURE_REFCOUNTED_HANDLES = true ->
           exists s,
             let r := callback (hObj h) (hExtra h) lParam1 lParam2 s in
             handle_at map' c i k j
             = Some (mkHandle HNDTYPE_REFCOUNTED r.1.1 r.1.2)) /\
          (getNumberOfSlots <= k \/ hType h <> HNDTYPE_REFCOUNTED ->
           handle_at map' c i k j = Some h)
      end.
Proof.
  unfold Ref_TraceRefCountHandles.
  destruct FEATURE_REFCOUNTED_HANDLES eqn:Hfeature.
  - set (sc := mkScanContext 0 1 false).
    assert (Hnum : getSlotNumber sc = 0)
      by (unfold getSlotNumber; by destruct IsServerHeap).
    assert (Hstep : 0 < thread_count sc) by (simpl; lia).
    rewrite (scan_handle_tables_by_single_thread_stride _ sc) by done.
    set (visit := enum_handle callback lParam1 lParam2
                    (take 1 [HNDTYPE_REFCOUNTED])).
    destruct (scan_handle_tables_total
                (fun hTable => HndEnumHandles hTable [HNDTYPE_REFCOUNTED] 1
                                 callback lParam1 lParam2 false)
                sc map st Hstep) as [[map' st'] Hs].
    exists map', st'. split; [done|]. split; [done|].
    destruct (scan_handle_tables_spec R_any visit no_pot no_cost
                (lawful_any _) _
                (act_spec_of_eq _ _ _ _ _ (lawful_any _) (fun _ _ => eq_refl))
                sc Hstep map st map' st' Hs) as (_ & _ & Hrel).
    intros c i k j. specialize (Hrel [c; i; k; j]). unfold handle_at.
    destruct (lk_map map [c; i; k; j]) as [h|],
             (lk_map map' [c; i; k; j]) as [h'|]; simpl in Hrel; try done.
    destruct Hrel as [Hv Hn]. split.
    + intros Hk Hty _.
      destruct Hv as (s & _ & -> & _); [by apply lone_worker_visits|].
      exists s. unfold visit, enum_handle. simpl take.
      rewrite bool_decide_eq_true_2 by (rewrite Hty; apply list_elem_of_here).
      rewrite Hty.
      by destruct (callback (hObj h) (hExtra h) lParam1 lParam2 s)
        as [[o e] s'].
    + intros [Hk|Hty].
      * f_equal. apply Hn. rewrite lone_worker_visits by done. lia.
      * destruct (visited_dec sc k Hstep) as [HV|HV]; [|f_equal; by apply Hn].
        destruct (Hv HV) as (s & _ & -> & _).
        unfold visit, enum_handle. simpl take.
        rewrite bool_decide_eq_false_2; [done|].
        rewrite list_elem_of_singleton. done.
  - exists map, st. split; [done|]. split; [done|].
    intros c i k j. destruct (handle_at map c i k j); [|done].
    split; [done|done].
Qed.

End SingleThread.

(** * Relocation *)

Section Relocation.
Context `{GCHost}.

(** One pass of a callback whose answer does not depend on the state. *)
Lemma words_pass {LP2} (b : bool) (cb : HANDLESCANPROC LP2) lp2 types
    (F : ptr -> ptr -> ptr * ptr) act sc map st :
  (forall o e s, (cb o e sc lp2 s).1 = F o e) ->
  (forall t s, act t s = scan_table (scan_handle cb sc lp2 types) t s) ->
  0 < thread_count sc ->
  exists map' st',
    (if b then scan_handle_tables act sc map st else Some (map, st))
    = Some (map', st') /\
    forall c i k j,
      match handle_at map c i k j with
      | None => handle_at map' c i k j = None
      | Some h =>
          (visited sc k ->
           handle_at map' c i k j = Some (rewrite_words b types F h)) /\
          (~ visited sc k -> handle_at map' c i k j = Some h)
      end.
Proof.
  intros HF Hact Hstep.
  destruct (pass_facts R_any b cb lp2 types act sc map st)
    as (map' & st' & Hs & _ & Hf); try done.
  exists map', st'. split; [done|]. intros c i k j. unfold handle_at.
  destruct (lk_map map [c; i; k; j]) as [h|] eqn:Hh.
  - destruct (Hf _ _ Hh) as (h' & -> & Hty & Hv & Hn).
    unfold rewrite_words. split.
    + intros HV. f_equal. destruct b; simpl; [|by apply Hn; left].
      case_bool_decide as Hin; [|by apply Hn; right; right].
      destruct (Hv eq_refl HV Hin) as (s1 & _ & -> & _).
      by rewrite HF.
    + intros HV. f_equal. apply Hn. right. by left.
  - destruct b; [|by simplify_eq].
    by apply (scan_handle_tables_shape _ _ _ _ _ _ _ Hact Hstep Hs [c; i; k; j]).
Qed.

Lemma VariableTraceDispatcher_words {LP2} (cb : HANDLESCANPROC LP2) lp2 mask
    (F : ptr -> ptr -> ptr * ptr) sc :
  (forall o e s, (cb o e sc lp2 s).1 = F o e) ->
  forall o e s,
    (VariableTraceDispatcher o e sc (mkVARSCANINFO mask cb lp2) s).1
    = variable_words mask F o e.
Proof.
  intros HF o e s. unfold VariableTraceDispatcher, variable_words. simpl.
  destruct (negb (Z.land e mask =? 0)%Z); [|done].
  specialize (HF o NULL s). destruct (cb o NULL sc lp2 s) as [[o' e'] s'].
  simpl in *. by rewrite <- HF.
Qed.

(** The variable handles of an entry point. *)
Lemma variable_words_pass {LP2} (cb : HANDLESCANPROC LP2) lp2 mask
    (F : ptr -> ptr -> ptr * ptr) condemned maxgen flags sc map st :
  (forall o e s, (cb o e sc lp2 s).1 = F o e) ->
  0 < thread_count sc ->
  exists map' st',
    (if FEATURE_VARIABLE_HANDLES
     then TraceVariableHandles cb sc lp2 mask condemned maxgen flags map st
     else Some (map, st)) = Some (map', st') /\
    forall c i k j,
      match handle_at map c i k j with
      | None => handle_at map' c i k j = None
      | Some h =>
          (visited sc k ->
           handle_at map' c i k j =
           Some (rewrite_words FEATURE_VARIABLE_HANDLES [HNDTYPE_VARIABLE]
                               (variable_words mask F) h)) /\
          (~ visited sc k -> handle_at map' c i k j = Some h)
      end.
Proof.
  intros HF Hstep. unfold TraceVariableHandles.
  apply (words_pass FEATURE_VARIABLE_HANDLES VariableTraceDispatcher
           (mkVARSCANINFO mask cb lp2) [HNDTYPE_VARIABLE]); [|done|done].
  by apply VariableTraceDispatcher_words.
Qed.

Lemma call_promote_word fn (f : ptr -> ptr) o sc fl s :
  (forall o sc fl g, (fn o sc fl g).1 = f o) ->
  (call_promote fn o sc fl s).1 = f o.
Proof. intros Hf. unfold call_promote. simpl. apply Hf. Qed.

Lemma UpdatePointer_words fn (f : ptr -> ptr) sc :
  (forall o sc fl g, (fn o sc fl g).1 = f o) ->
  forall o e s, (UpdatePointer o e sc fn s).1 = (f o, e).
Proof. intros Hf o e s. unfold UpdatePointer, call_promote. simpl. by rewrite Hf. Qed.

Lemma UpdatePointerPinned_words fn (f : ptr -> ptr) sc :
  (forall o sc fl g, (fn o sc fl g).1 = f o) ->
  forall o e s, (UpdatePointerPinned o e sc fn s).1 = (f o, e).
Proof.
  intros Hf o e s. unfold UpdatePointerPinned, call_promote. simpl.
  by rewrite Hf.
Qed.

Lemma UpdateDependentHandle_words fn (f : ptr -> ptr) sc :
  (forall o sc fl g, (fn o sc fl g).1 = f o) ->
  forall o e s, (UpdateDependentHandle o e sc fn s).1 = (f o, f e).
Proof.
  intros Hf o e s. unfold UpdateDependentHandle, call_promote. simpl.
  by rewrite !Hf.
Qed.

Lemma UpdateWeakInteriorHandle_words fn (f : ptr -> ptr) sc :
  (forall o sc fl g, (fn o sc fl g).1 = f o) ->
  forall o e s, (UpdateWeakInteriorHandle o e sc fn s).1 = (f o, e).
Proof.
  intros Hf o e s. unfold UpdateWeakInteriorHandle, call_promote. simpl.
  rewrite Hf. by destruct (negb (f o =? NULL)%Z).
Qed.

Lemma Ref_UpdatePointers_all_types_mem t :
  bool_decide (t ∈ Ref_UpdatePointers_all_types) =
  match t with
  | HNDTYPE_WEAK_SHORT | HNDTYPE_WEAK_LONG | HNDTYPE_STRONG => true
  | HNDTYPE_REFCOUNTED => FEATURE_REFCOUNTED_HANDLES
  | HNDTYPE_WEAK_NATIVE_COM => FEATURE_WEAK_NATIVE_COM_HANDLES
  | HNDTYPE_SIZEDREF => FEATURE_SIZED_REF_HANDLES
  | HNDTYPE_CROSSREFERENCE => FEATURE_JAVAMARSHAL
  | _ => false
  end.
Proof.
  unfold Ref_UpdatePointers_all_types, Ref_UpdatePointers_types.
  destruct t, FEATURE_REFCOUNTED_HANDLES, FEATURE_WEAK_NATIVE_COM_HANDLES,
    FEATURE_SIZED_REF_HANDLES, FEATURE_JAVAMARSHAL; reflexivity.
Qed.

Lemma Ref_TracePinningRoots_types_mem t :
  bool_decide (t ∈ Ref_TracePinningRoots_types) =
  match t with
  | HNDTYPE_PINNED => true
  | HNDTYPE_ASYNCPINNED => FEATURE_ASYNC_PINNED_HANDLES
  | _ => false
  end.
Proof.
  unfold Ref_TracePinningRoots_types.
  destruct t, FEATURE_ASYNC_PINNED_HANDLES; reflexivity.
Qed.

Lemma singleton_type_mem (t t' : HandleType) :
  bool_decide (t ∈ [t']) = bool_decide (t = t').
Proof. apply bool_decide_ext. apply list_elem_of_singleton. Qed.

Lemma is_variable_type t :
  bool_decide (t = HNDTYPE_VARIABLE)
  = match t with HNDTYPE_VARIABLE => true | _ => false end.
Proof. by destruct t. Qed.

Lemma is_dependent_type t :
  bool_decide (t = HNDTYPE_DEPENDENT)
  = match t with HNDTYPE_DEPENDENT => true | _ => false end.
Proof. by destruct t. Qed.

Lemma is_weak_interior_type t :
  bool_decide (t = HNDTYPE_WEAK_INTERIOR_POINTER)
  = match t with HNDTYPE_WEAK_INTERIOR_POINTER => true | _ => false end.
Proof. by destruct t. Qed.

(** The six passes of the four relocation entry points, on one handle. *)
Lemma relocation_passes (f : ptr -> ptr) (h : Handle) :
  let g1 := rewrite_words true Ref_UpdatePointers_all_types
              (fun o e => (f o, e)) in
  let g2 := rewrite_words FEATURE_VARIABLE_HANDLES [HNDTYPE_VARIABLE]
              (variable_words VHT_not_pinned (fun o e => (f o, e))) in
  let g3 := rewrite_words true Ref_TracePinningRoots_types
              (fun o e => (f o, e)) in
  let g4 := rewrite_words FEATURE_VARIABLE_HANDLES [HNDTYPE_VARIABLE]
              (variable_words VHT_PINNED (fun o e => (f o, e))) in
  let g5 := rewrite_words true [HNDTYPE_DEPENDENT] (fun o e => (f o, f e)) in
  let g6 := rewrite_words true [HNDTYPE_WEAK_INTERIOR_POINTER]
              (fun o e => (f o, e)) in
  ((hType h = HNDTYPE_VARIABLE ->
    Z.land (hExtra h) VHT_not_pinned = 0%Z \/ Z.land (hExtra h) VHT_PINNED = 0%Z) ->
   g6 (g5 (g4 (g3 (g2 (g1 h))))) = relocate_handle f h) /\
  (FEATURE_VARIABLE_HANDLES = true -> hType h = HNDTYPE_VARIABLE ->
   Z.land (hExtra h) VHT_not_pinned <> 0%Z ->
   Z.land (hExtra h) VHT_PINNED <> 0%Z ->
   g6 (g5 (g4 (g3 (g2 (g1 h)))))
   = mkHandle (hType h) (f (f (hObj h))) (hExtra h)).
Proof.
  intros g1 g2 g3 g4 g5 g6. destruct h as [t o e]. cbn [hType hObj hExtra].
  assert (E1 : g1 (mkHandle t o e)
               = mkHandle t (if bool_decide (t ∈ Ref_UpdatePointers_all_types)
                             then f o else o) e).
  { unfold g1, rewrite_words. cbn [hType hObj hExtra fst snd andb].
    by destruct (bool_decide (t ∈ Ref_UpdatePointers_all_types)). }
  assert (E2 : forall o, g2 (mkHandle t o e)
               = mkHandle t (if FEATURE_VARIABLE_HANDLES
                                && bool_decide (t = HNDTYPE_VARIABLE)
                                && negb (Z.land e VHT_not_pinned =? 0)%Z
                             then f o else o) e).
  { intros o'. unfold g2, rewrite_words, variable_words. cbn [hType hObj hExtra fst snd andb].
    rewrite singleton_type_mem.
    by destruct FEATURE_VARIABLE_HANDLES, (bool_decide (t = HNDTYPE_VARIABLE)),
      (negb (Z.land e VHT_not_pinned =? 0)%Z). }
  assert (E3 : forall o, g3 (mkHandle t o e)
               = mkHandle t (if bool_decide (t ∈ Ref_TracePinningRoots_types)
                             then f o else o) e).
  { intros o'. unfold g3, rewrite_words. cbn [hType hObj hExtra fst snd andb].
    by destruct (bool_decide (t ∈ Ref_TracePinningRoots_types)). }
  assert (E4 : forall o, g4 (mkHandle t o e)
               = mkHandle t (if FEATURE_VARIABLE_HANDLES
                                && bool_decide (t = HNDTYPE_VARIABLE)
                                && negb (Z.land e VHT_PINNED =? 0)%Z
                             then f o else o) e).
  { intros o'. unfold g4, rewrite_words, variable_words. cbn [hType hObj hExtra fst snd andb].
    rewrite singleton_type_mem.
    by destruct FEATURE_VARIABLE_HANDLES, (bool_decide (t = HNDTYPE_VARIABLE)),
      (negb (Z.land e VHT_PINNED =? 0)%Z). }
  assert (E5 : forall o, g5 (mkHandle t o e)
               = mkHandle t (if bool_decide (t = HNDTYPE_DEPENDENT)
                             then f o else o)
                            (if bool_decide (t = HNDTYPE_DEPENDENT)
                             then f e else e)).
  { intros o'. unfold g5, rewrite_words. cbn [hType hObj hExtra fst snd andb].
    rewrite singleton_type_mem.
    by destruct (bool_decide (t = HNDTYPE_DEPENDENT)). }
  assert (E6 : forall o e, g6 (mkHandle t o e)
               = mkHandle t (if bool_decide (t = HNDTYPE_WEAK_INTERIOR_POINTER)
                             then f o else o) e).
  { intros o' e'. unfold g6, rewrite_words. cbn [hType hObj hExtra fst snd andb].
    rewrite singleton_type_mem.
    by destruct (bool_decide (t = HNDTYPE_WEAK_INTERIOR_POINTER)). }
  rewrite E1, E2, E3, E4, E5, E6.
  rewrite Ref_UpdatePointers_all_types_mem, Ref_TracePinningRoots_types_mem.
  rewrite !is_variable_type, !is_dependent_type, !is_weak_interior_type.
  clear. unfold relocate_handle. cbn [hType hObj hExtra]. split.
  - intros Hone. destruct FEATURE_VARIABLE_HANDLES, t; cbn;
      try (by repeat match goal with
                     | |- context [if ?b then _ else _] => destruct b
                     end).
    destruct (Hone eq_refl) as [-> | ->]; cbn; rewrite ?orb_false_r;
      by destruct (Z.land e _ =? 0)%Z.
  - intros Hfeat Hty Hm Hp. subst t. rewrite Hfeat.
    apply Z.eqb_neq in Hm, Hp. rewrite Hm, Hp. reflexivity.
Qed.

(** X10.  The four relocation entry points together move every handle
    once.  Let the relocation callback leave [f o] in a slot that holds
    [o].  After [Ref_UpdatePointers], [Ref_UpdatePinnedPointers],
    [Ref_ScanDependentHandlesForRelocation] and
    [Ref_ScanWeakInteriorPointersForRelocation], run by one worker in this
    order, every handle in a table on the worker's stride holds [f] of its
    old referent, a dependent handle also [f] of its old secondary, for
    each handle type that is compiled in; a variable handle is moved when
    its strength meets one of the four strength bits.  Nothing is moved
    twice, with one exception: a variable handle whose extra info meets
    both [VHT_PINNED] and one of the other three strengths is moved by
    [Ref_UpdatePointers] and again by [Ref_UpdatePinnedPointers].  A handle
    off the stride is left as it was. *)
Theorem relocation_moves_each_handle_once
    (condemned maxgen : nat) (sc : ScanContext) (fn : promote_func)
    (f : ptr -> ptr) (uCount : Z) (map : HandleTableMap) (st : GcState) :
  (forall o sc fl g, (fn o sc fl g).1 = f o) ->
  0 < thread_count sc ->
  exists uCount' map1 st1 map2 st2 map3 st3 map4 st4,
    Ref_UpdatePointers condemned maxgen sc fn uCount map st
    = Some (uCount', map1, st1) /\
    Ref_UpdatePinnedPointers condemned maxgen sc fn map1 st1
    = Some (map2, st2) /\
    Ref_ScanDependentHandlesForRelocation condemned maxgen sc fn map2 st2
    = Some (map3, st3) /\
    Ref_ScanWeakInteriorPointersForRelocation condemned maxgen sc fn map3 st3
    = Some (map4, st4) /\
    forall c i k j,
      match handle_at map c i k j with
      | None => handle_at map4 c i k j = None
      | Some h =>
          (visited sc k ->
           (hType h = HNDTYPE_VARIABLE ->
            Z.land (hExtra h) VHT_not_pinned = 0%Z \/
            Z.land (hExtra h) VHT_PINNED = 0%Z) ->
           handle_at map4 c i k j = Some (relocate_handle f h)) /\
          (visited sc k ->
           FEATURE_VARIABLE_HANDLES = true -> hType h = HNDTYPE_VARIABLE ->
           Z.land (hExtra h) VHT_not_pinned <> 0%Z ->
           Z.land (hExtra h) VHT_PINNED <> 0%Z ->
           handle_at map4 c i k j
           = Some (mkHandle (hType h) (f (f (hObj h))) (hExtra h))) /\
          (~ visited sc k -> handle_at map4 c i k j = Some h)
      end.
Proof.
  intros Hf Hstep. unfold Ref_UpdatePointers.
  destruct (if IsServerHeap then _ else _) as [uCount' bDo].
  set (st0 := if bDo then SyncBlockCacheWeakPtrScan UpdatePointer sc fn st
              else st).
  destruct (words_pass true UpdatePointer fn Ref_UpdatePointers_all_types
              (fun o e => (f o, e))
              (fun hTable => HndScanHandlesForGC hTable UpdatePointer sc fn
                 Ref_UpdatePointers_all_types
                 (length Ref_UpdatePointers_all_types)
                 condemned maxgen (scan_flags sc)) sc map st0)
    as (m1 & s1 & Hs1 & Hr1);
    [by apply UpdatePointer_words
    |by intros; unfold HndScanHandlesForGC; rewrite firstn_all|done|].
  cbv beta iota in Hs1. rewrite Hs1. cbn [mbind option_bind].
  destruct (variable_words_pass UpdatePointer fn VHT_not_pinned
              (fun o e => (f o, e)) condemned maxgen (scan_flags sc) sc m1 s1)
    as (m2 & s2 & Hs2 & Hr2); [by apply UpdatePointer_words|done|].
  unfold VHT_not_pinned in Hs2 at 1. rewrite Hs2. cbn [mbind option_bind].
  unfold Ref_UpdatePinnedPointers.
  destruct (words_pass true UpdatePointerPinned fn Ref_TracePinningRoots_types
              (fun o e => (f o, e))
              (fun hTable => HndScanHandlesForGC hTable UpdatePointerPinned sc fn
                 Ref_TracePinningRoots_types
                 (length Ref_TracePinningRoots_types)
                 condemned maxgen (scan_flags sc)) sc m2 s2)
    as (m3 & s3 & Hs3 & Hr3);
    [by apply UpdatePointerPinned_words
    |by intros; unfold HndScanHandlesForGC; rewrite firstn_all|done|].
  cbv beta iota in Hs3.
  destruct (variable_words_pass UpdatePointerPinned fn VHT_PINNED
              (fun o e => (f o, e)) condemned maxgen (scan_flags sc) sc m3 s3)
    as (m4 & s4 & Hs4 & Hr4); [by apply UpdatePointerPinned_words|done|].
  unfold Ref_ScanDependentHandlesForRelocation.
  destruct (words_pass true UpdateDependentHandle fn [HNDTYPE_DEPENDENT]
              (fun o e => (f o, f e))
              (fun hTable => HndScanHandlesForGC hTable UpdateDependentHandle
                 sc fn [HNDTYPE_DEPENDENT] 1 condemned maxgen
                 (Z.lor (scan_flags sc) HNDGCF_EXTRAINFO)) sc m4 s4)
    as (m5 & s5 & Hs5 & Hr5);
    [by apply UpdateDependentHandle_words|done|done|].
  cbv beta iota in Hs5.
  unfold Ref_ScanWeakInteriorPointersForRelocation.
  destruct (words_pass true UpdateWeakInteriorHandle fn
              [HNDTYPE_WEAK_INTERIOR_POINTER] (fun o e => (f o, e))
              (fun hTable => HndScanHandlesForGC hTable UpdateWeakInteriorHandle
                 sc fn [HNDTYPE_WEAK_INTERIOR_POINTER] 1 condemned maxgen
                 (Z.lor (scan_flags sc) HNDGCF_EXTRAINFO)) sc m5 s5)
    as (m6 & s6 & Hs6 & Hr6);
    [by apply UpdateWeakInteriorHandle_words|done|done|].
  cbv beta iota in Hs6.
  exists uCount', m2, s2, m4, s4, m5, s5, m6, s6.
  split_and!; [done|by rewrite Hs3|done|done|].
  pose proof (weak_check_then _ _ sc map m1 m2 Hstep Hr1 Hr2) as H12.
  pose proof (weak_check_then _ _ sc map m2 m3 Hstep H12 Hr3) as H13.
  pose proof (weak_check_then _ _ sc map m3 m4 Hstep H13 Hr4) as H14.
  pose proof (weak_check_then _ _ sc map m4 m5 Hstep H14 Hr5) as H15.
  pose proof (weak_check_then _ _ sc map m5 m6 Hstep H15 Hr6) as H16.
  intros c i k j. specialize (H16 c i k j).
  destruct (handle_at map c i k j) as [h|]; [|done].
  destruct H16 as [Hv Hn].
  destruct (relocation_passes f h) as [Hone Htwice].
  split_and!.
  - intros HV Hstrength. rewrite (Hv HV). f_equal. by apply Hone.
  - intros HV Hfeat Hty Hm Hp. rewrite (Hv HV). f_equal. by apply Htwice.
  - done.
Qed.

End Relocation.

(** * Pinning roots and sized references *)

Section Pinning.
Context `{GCHost}.




Lemma Ref_TracePinningRoots_types_spec t :
  t ∈ Ref_TracePinningRoots_types <->
  t = HNDTYPE_PINNED \/
  (FEATURE_ASYNC_PINNED_HANDLES = true /\ t = HNDTYPE_ASYNCPINNED).
Proof.
  unfold Ref_TracePinningRoots_types.
  destruct FEATURE_ASYNC_PINNED_HANDLES; simpl;
    rewrite ?elem_of_cons, elem_of_nil; intuition congruence.
Qed.


Lemma more_calls_elem_of (c : HostCall) (s s' : GcState) :
  R_more_calls s s' -> c ∈ host_calls s -> c ∈ host_calls s'.
Proof.
  unfold R_more_calls. intros [k ->] Hin. apply elem_of_app. by right.
Qed.








(** X12.  [Ref_ScanSizedRefHandles] records in the extra info of every
    sized-ref handle on the worker's stride the bytes that promoting its
    referent added to the worker's count of promoted bytes, as a
    [size_t]: the count after the promote callback minus the count before
    it.  The slot holds what the callback left.  Handles of other types,
    and handles off the stride, are left as they were. *)
Theorem Ref_ScanSizedRefHandles_records_size
    (condemned maxgen : nat) (sc : ScanContext) (fn : promote_func)
    (map : HandleTableMap) (st : GcState) :
  0 < thread_count sc ->
  exists map' st',
    Ref_ScanSizedRefHandles condemned maxgen sc fn map st = Some (map', st') /\
    host_calls st `suffix_of` host_calls st' /\
    forall c i k j h, handle_at map c i k j = Some h ->
      (visited sc k -> hType h = HNDTYPE_SIZEDREF ->
       exists g,
         let r := fn (hObj h) sc 0%Z g in
         handle_at map' c i k j =
         Some (mkHandle HNDTYPE_SIZEDREF r.1
                 (wrap (GetPromotedBytes r.2 (thread_number sc)
                        - GetPromotedBytes g (thread_number sc)))) /\
         CallPromote (hObj h) 0 ∈ host_calls st') /\
      (~ visited sc k \/ hType h <> HNDTYPE_SIZEDREF ->
       handle_at map' c i k j = Some h).
Proof.
  intros Hstep. unfold Ref_ScanSizedRefHandles, ScanSizedRefByCPU.
  destruct (pass_facts R_more_calls true CalculateSizedRefSize fn
              [HNDTYPE_SIZEDREF]
              (fun hTable => HndScanHandlesForGC hTable CalculateSizedRefSize
                 sc fn [HNDTYPE_SIZEDREF] 1 maxgen maxgen
                 (Z.lor (scan_flags sc) HNDGCF_EXTRAINFO)) sc map st)
    as (map' & st' & Hs & HR & Hf);
    [apply R_more_calls_refl|apply R_more_calls_trans| |done|done|].
  { intros _ o e s. apply call_promote_more_calls. }
  exists map', st'. split_and!; [done|done|].
  intros c i k j h Hh. unfold handle_at in *.
  destruct (Hf _ _ Hh) as (h' & -> & _ & Hv & Hn). split.
  - intros HV Hty. destruct (Hv eq_refl HV) as (s1 & _ & -> & HRb).
    { rewrite Hty. apply list_elem_of_here. }
    exists (gc_heap s1). simpl. rewrite Hty. split; [done|].
    eapply more_calls_elem_of; [exact HRb|].
    unfold CalculateSizedRefSize, call_promote. simpl. apply list_elem_of_here.
  - intros Hskip. f_equal. apply Hn. right.
    destruct Hskip as [?|Hne]; [by left|right].
    by rewrite list_elem_of_singleton.
Qed.

End Pinning.

(** * The election at the start of [Ref_UpdatePointers] *)

Section ElectionProofs.
Context `{GCHost}.

Lemma int32_small (x : Z) : (0 <= x < 2 ^ 31)%Z -> int32 x = x.
Proof.
  intros Hx. unfold int32.
  rewrite Z.mod_small by lia. lia.
Qed.

Lemma sum_list_with_insert {A} (f : A -> nat) (l : list A) i x y :
  l !! i = Some x ->
  sum_list_with f (<[i:=y]> l) + f x = sum_list_with f l + f y.
Proof.
  intros Hl. pose proof (lookup_lt_Some _ _ _ Hl) as Hlt.
  rewrite insert_take_drop by done.
  rewrite <- (take_drop_middle l i x Hl) at 3.
  rewrite !sum_list_with_app. simpl. lia.
Qed.

Lemma sum_list_with_bound {A} (f : A -> nat) (l : list A) :
  (forall a, f a <= 1) -> sum_list_with f l <= length l.
Proof.
  intros Hf. induction l as [|a l IH]; simpl; [done|].
  specialize (Hf a). lia.
Qed.

Lemma sum_list_with_replicate {A} (f : A -> nat) n a :
  sum_list_with f (replicate n a) = n * f a.
Proof. induction n as [|n IH]; simpl; [done|]. rewrite IH. lia. Qed.

Lemma started_bound (l : list nat) :
  sum_list_with (fun pc => if decide (1 <= pc) then 1 else 0) l <= length l.
Proof. apply sum_list_with_bound. intros a. case_decide; lia. Qed.

(** A worker that has not started leaves the count of the started ones
    below the number of workers. *)
Lemma not_all_started (l : list nat) w :
  l !! w = Some 0 ->
  sum_list_with (fun pc => if decide (1 <= pc) then 1 else 0) l < length l.
Proof.
  revert w. induction l as [|a l IH]; intros w Hw; [done|].
  pose proof (started_bound l) as Hb. simpl.
  destruct w as [|w]; simpl in Hw.
  - simplify_eq. simpl. lia.
  - specialize (IH w Hw). case_decide; lia.
Qed.

Lemma election_start_inv : election_inv election_start.
Proof.
  assert (Hs : el_started election_start = 0).
  { unfold el_started, election_start. simpl.
    rewrite sum_list_with_replicate. simpl. lia. }
  split.
  - unfold election_start. simpl. apply length_replicate.
  - intros _. by rewrite Hs.
  - intros Hfull. right. done.
  - done.
  - rewrite Hs. lia.
Qed.

(** One operation of one worker keeps the invariant. *)
Lemma election_step_inv w s s' :
  (Z.of_nat GetNumberOfHeaps < 2 ^ 31)%Z ->
  election_inv s -> election_step w s = Some s' -> election_inv s'.
Proof.
  intros Hsmall [Hlen Hcount Hfull Hnobody Helected] Hstep.
  unfold election_step in Hstep.
  destruct (el_pc s !! w) as [pc|] eqn:Hpc; [|done].
  pose proof (lookup_lt_Some _ _ _ Hpc) as Hw.
  destruct pc as [|[|pc]]; [| |done].
  - (* the increment *)
    pose proof (sum_list_with_insert
                  (fun pc => if decide (1 <= pc) then 1 else 0)
                  (el_pc s) w 0 1 Hpc) as Hst.
    pose proof (sum_list_with_insert
                  (fun pc => if decide (pc = 1) then 1 else 0)
                  (el_pc s) w 0 1 Hpc) as Hpe.
    simpl in Hst, Hpe.
    assert (Hlt : el_started s < GetNumberOfHeaps)
      by (rewrite <- Hlen; by eapply not_all_started).
    unfold Interlocked_Increment in Hstep.
    rewrite (Hcount Hlt) in Hstep.
    rewrite int32_small in Hstep by lia.
    injection Hstep as <-.
    assert (Hst' : el_started
                     (mkElection (Z.of_nat (el_started s) + 1)
                        (<[w:=1]> (el_pc s))
                        (if (Z.of_nat (el_started s) + 1 =? 1)%Z
                         then w :: el_bDo s else el_bDo s))
                   = S (el_started s))
      by (unfold el_started in *; simpl; lia).
    split; simpl.
    + by rewrite length_insert.
    + rewrite Hst'. intros _. lia.
    + rewrite Hst'. intros Hall. left. split; [lia|].
      unfold el_pending. simpl. lia.
    + rewrite Hst'. lia.
    + intros _. destruct (el_started s) as [|n] eqn:Hn.
      * exists w. split; [lia|]. simpl. by rewrite Hnobody.
      * destruct Helected as (w0 & Hw0 & Hb); [lia|]. exists w0.
        split; [done|].
        replace (Z.of_nat (S n) + 1 =? 1)%Z with false; [done|].
        symmetry. apply Z.eqb_neq. lia.
  - (* the compare-exchange *)
    pose proof (sum_list_with_insert
                  (fun pc => if decide (1 <= pc) then 1 else 0)
                  (el_pc s) w 1 2 Hpc) as Hst.
    pose proof (sum_list_with_insert
                  (fun pc => if decide (pc = 1) then 1 else 0)
                  (el_pc s) w 1 2 Hpc) as Hpe.
    simpl in Hst, Hpe.
    unfold Interlocked_CompareExchange in Hstep. injection Hstep as <-.
    assert (Hst' : forall u b, el_started (mkElection u (<[w:=2]> (el_pc s)) b)
                               = el_started s)
      by (intros; unfold el_started in *; simpl; lia).
    split; simpl.
    + by rewrite length_insert.
    + rewrite Hst'. intros Hlt. rewrite (Hcount Hlt).
      destruct (Z.eqb_spec (Z.of_nat (el_started s))
                           (Z.of_nat GetNumberOfHeaps)); [lia|done].
    + rewrite Hst'. intros Hall. right.
      destruct (Hfull Hall) as [[-> _]| ->].
      * by rewrite Z.eqb_refl.
      * by destruct (0 =? Z.of_nat GetNumberOfHeaps)%Z.
    + rewrite Hst'. done.
    + rewrite Hst'. done.
Qed.

Lemma run_election_inv schedule : forall s s',
  (Z.of_nat GetNumberOfHeaps < 2 ^ 31)%Z ->
  election_inv s -> run_election schedule s = Some s' -> election_inv s'.
Proof.
  induction schedule as [|w rest IH]; intros s s' Hsmall Hinv Hrun;
    simpl in Hrun.
  - by simplify_eq.
  - destruct (election_step w s) as [s1|] eqn:Hstep; simpl in Hrun; [|done].
    eapply IH; [done| |exact Hrun].
    by eapply election_step_inv.
Qed.

(** X13.  Exactly one worker of a server heap scans the sync-block cache.
    Whatever the order in which the workers perform the increment and the
    compare-exchange of [uCount] at the start of [Ref_UpdatePointers], once
    each of the [GetNumberOfHeaps] workers has performed both, [bDo] is
    true for exactly one of them and [uCount] is 0 again, ready for the
    next collection. *)
Theorem Ref_UpdatePointers_elects_one (schedule : list nat) (s' : Election) :
  0 < GetNumberOfHeaps -> (Z.of_nat GetNumberOfHeaps < 2 ^ 31)%Z ->
  run_election schedule election_start = Some s' ->
  el_pc s' = replicate GetNumberOfHeaps 2 ->
  (exists w, w < GetNumberOfHeaps /\ el_bDo s' = [w]) /\ el_uCount s' = 0%Z.
Proof.
  intros Hpos Hsmall Hrun Hdone.
  pose proof (run_election_inv schedule _ _ Hsmall election_start_inv Hrun)
    as [Hlen Hcount Hfull Hnobody Helected].
  assert (Hst : el_started s' = GetNumberOfHeaps).
  { unfold el_started. rewrite Hdone, sum_list_with_replicate. simpl. lia. }
  assert (Hpe : el_pending s' = 0).
  { unfold el_pending. rewrite Hdone, sum_list_with_replicate. simpl. lia. }
  split.
  - apply Helected. lia.
  - destruct (Hfull Hst) as [[_ ?]|?]; [lia|done].
Qed.

End ElectionProofs.

(** * The bucket directory *)

Section DirectoryProofs.
Context `{GCEnv}.

(** The search of one array finds the first free entry. *)
Lemma claim_slot_Some count : forall i result slots j slots',
  claim_slot count i result slots = Some (j, slots') ->
  i <= j < i + count /\ slots !! j = Some None /\
  (forall k, i <= k < j -> exists b, slots !! k = Some (Some b)) /\
  slots' = <[j := Some result]> slots.
Proof.
  induction count as [|count IH]; intros i result slots j slots' Hc;
    simpl in Hc; [done|].
  destruct (slots !! i) as [[b|]|] eqn:Hi; [| |done].
  - apply IH in Hc as (Hj & Hfree & Hocc & Hs).
    split; [lia|]. split; [done|]. split; [|done].
    intros k Hk. destruct (decide (k = i)) as [->|Hne]; [by exists b|].
    apply Hocc. lia.
  - simplify_eq. split; [lia|]. split; [done|]. split; [|done].
    intros k Hk. lia.
Qed.

Lemma claim_slot_None count : forall i result slots,
  claim_slot count i result slots = None -> i + count <= length slots ->
  forall k, i <= k < i + count -> exists b, slots !! k = Some (Some b).
Proof.
  induction count as [|count IH]; intros i result slots Hc Hlen k Hk;
    simpl in Hc; [lia|].
  destruct (slots !! i) as [[b|]|] eqn:Hi.
  - destruct (decide (k = i)) as [->|Hne]; [by exists b|].
    apply (IH (S i) result slots Hc); lia.
  - done.
  - apply lookup_ge_None in Hi. lia.
Qed.

Lemma claim_slot_free count : forall i result slots k,
  i <= k < i + count -> slots !! k = Some None ->
  is_Some (claim_slot count i result slots).
Proof.
  induction count as [|count IH]; intros i result slots k Hk Hfree; [lia|].
  simpl. destruct (slots !! i) as [[b|]|] eqn:Hi.
  - apply (IH (S i) result slots k); [|done].
    destruct (decide (k = i)) as [->|?]; [congruence|lia].
  - done.
  - apply lookup_ge_None in Hi. apply lookup_lt_Some in Hfree. lia.
Qed.

Lemma directory_slots_cons n chain :
  directory_slots (n :: chain) = node_slots n ++ directory_slots chain.
Proof. done. Qed.

Lemma directory_slots_app chain1 chain2 :
  directory_slots (chain1 ++ chain2)
  = directory_slots chain1 ++ directory_slots chain2.
Proof. unfold directory_slots. by rewrite fmap_app, concat_app. Qed.

Lemma chain_ok_length size : forall chain offset,
  chain_ok size offset chain ->
  length (directory_slots chain) = length chain * size.
Proof.
  intros chain. induction chain as [|n chain IH]; intros offset Hok; [done|].
  destruct Hok as (Hlen & _ & Hok). rewrite directory_slots_cons, length_app.
  rewrite (IH _ Hok). simpl. lia.
Qed.

Lemma chain_ok_last size : forall chain offset n,
  chain_ok size offset chain -> last chain = Some n ->
  node_dwMaxIndex n = offset + length chain * size.
Proof.
  intros chain. induction chain as [|a chain IH]; intros offset n Hok Hlast;
    [done|].
  destruct Hok as (Hlen & Hmax & Hok).
  destruct chain as [|b chain].
  - simpl in Hlast. simplify_eq. simpl. lia.
  - rewrite last_cons_cons in Hlast. rewrite (IH _ _ Hok Hlast). simpl. lia.
Qed.

Lemma chain_ok_app size : forall chain1 offset chain2,
  chain_ok size offset chain1 ->
  chain_ok size (offset + length chain1 * size) chain2 ->
  chain_ok size offset (chain1 ++ chain2).
Proof.
  intros chain1. induction chain1 as [|n chain1 IH]; intros offset chain2 H1 H2.
  - simpl in *. by rewrite Nat.add_0_r in H2.
  - destruct H1 as (Hlen & Hmax & H1). simpl. split_and!; [done|done|].
    apply IH; [done|]. simpl in H2.
    by replace (offset + size + length chain1 * size)
      with (offset + (size + length chain1 * size)) by lia.
Qed.

(** The walk along the chain finds the free entry of lowest index. *)
Lemma claim_slot_in_chain_Some size result : forall walk offset walk' index,
  chain_ok size offset walk ->
  claim_slot_in_chain size result walk offset = Some (walk', index) ->
  exists pos, index = offset + pos /\
    directory_slots walk !! pos = Some None /\
    (forall k, k < pos -> exists b, directory_slots walk !! k = Some (Some b)) /\
    directory_slots walk' = <[pos := Some result]> (directory_slots walk) /\
    chain_ok size offset walk'.
Proof.
  intros walk. induction walk as [|n rest IH]; intros offset walk' index Hok Hc;
    simpl in Hc; [done|].
  destruct Hok as (Hlen & Hmax & Hok).
  destruct (claim_slot size 0 result (node_slots n)) as [[i slots]|] eqn:Hclaim.
  - simplify_eq. apply claim_slot_Some in Hclaim as (Hi & Hfree & Hocc & ->).
    exists i. rewrite !directory_slots_cons. simpl.
    pose proof (lookup_lt_Some _ _ _ Hfree) as Hlt.
    split; [lia|]. split; [by rewrite lookup_app_l|]. split; [|split].
    + intros k Hk. rewrite lookup_app_l by lia. apply Hocc. lia.
    + by rewrite insert_app_l.
    + split; [by rewrite length_insert|]. split; done.
  - destruct (claim_slot_in_chain size result rest (node_dwMaxIndex n))
      as [[rest' idx]|] eqn:Hrest; simpl in Hc; [|done].
    simplify_eq. rewrite Hmax in Hrest.
    destruct (IH _ _ _ Hok Hrest) as (pos & -> & Hfree & Hocc & Hslots & Hok').
    exists (length (node_slots n) + pos). rewrite !directory_slots_cons.
    split; [lia|]. split; [|split; [|split]].
    + by rewrite lookup_app_r, Nat.add_sub' by lia.
    + intros k Hk. destruct (decide (k < length (node_slots n))) as [Hin|Hout].
      * rewrite lookup_app_l by done.
        eapply claim_slot_None; [exact Hclaim|lia|lia].
      * rewrite lookup_app_r by lia. apply Hocc. lia.
    + by rewrite insert_app_r, Hslots.
    + simpl. done.
Qed.

Lemma claim_slot_in_chain_None size result : forall walk offset,
  chain_ok size offset walk ->
  claim_slot_in_chain size result walk offset = None ->
  forall k, k < length (directory_slots walk) ->
    exists b, directory_slots walk !! k = Some (Some b).
Proof.
  intros walk. induction walk as [|n rest IH]; intros offset Hok Hc k Hk;
    simpl in *; [lia|].
  destruct Hok as (Hlen & Hmax & Hok).
  destruct (claim_slot size 0 result (node_slots n)) as [[i slots]|] eqn:Hclaim;
    [done|].
  destruct (claim_slot_in_chain size result rest (node_dwMaxIndex n))
    as [[rest' idx]|] eqn:Hrest; simpl in Hc; [done|].
  rewrite directory_slots_cons in Hk |- *. rewrite length_app in Hk.
  destruct (decide (k < length (node_slots n))) as [Hin|Hout].
  - rewrite lookup_app_l by done.
    eapply claim_slot_None; [exact Hclaim|lia|lia].
  - rewrite lookup_app_r by lia. rewrite Hmax in Hrest.
    apply (IH _ Hok Hrest). lia.
Qed.

(** *** Allocation *)

Lemma dir_alloc_success d :
  dir_results d !! 0 <> Some false ->
  dir_alloc d =
  (Some (dir_next d),
   dir_set_alloc (dir_next d :: dir_live d) (S (dir_next d))
                 (drop 1 (dir_results d)) d).
Proof.
  intros Hok. unfold dir_alloc.
  destruct (dir_results d) as [|[] rest]; simpl in *; try done.
Qed.

Lemma dir_alloc_failure d :
  dir_results d !! 0 = Some false ->
  dir_alloc d =
  (None, dir_set_alloc (dir_live d) (dir_next d) (drop 1 (dir_results d)) d).
Proof.
  intros Hfail. unfold dir_alloc.
  destruct (dir_results d) as [|[] rest]; simpl in *; try done.
Qed.

Lemma bucket_object_set_eq bucket bo d :
  bucket_object bucket (set_bucket_object bucket bo d) = bo.
Proof. unfold bucket_object, set_bucket_object. simpl. by rewrite lookup_insert_eq. Qed.

Lemma bucket_object_set_ne bucket bucket' bo d :
  bucket' <> bucket ->
  bucket_object bucket' (set_bucket_object bucket bo d) = bucket_object bucket' d.
Proof.
  intros Hne. unfold bucket_object, set_bucket_object. simpl.
  by rewrite lookup_insert_ne.
Qed.

Lemma bucket_object_set_alloc bucket live next results d :
  bucket_object bucket (dir_set_alloc live next results d)
  = bucket_object bucket d.
Proof. done. Qed.

Lemma bucket_object_set_chain bucket chain d :
  bucket_object bucket (dir_set_chain chain d) = bucket_object bucket d.
Proof. done. Qed.

(** The blocks a run has allocated: those from [next] up to the next
    block of the state it ends in. *)
Lemma dir_create_handle_tables_success count : forall uCPUindex result d,
  false ∉ take count (dir_results d) ->
  uCPUindex + count <= length (bo_tables (bucket_object result d)) ->
  exists d',
    dir_create_handle_tables count uCPUindex result d = (true, d') /\
    dir_results d' = drop count (dir_results d) /\
    dir_chain d' = dir_chain d /\ dir_contexts d' = dir_contexts d /\
    dir_next d' = dir_next d + count /\
    (forall b, b ∈ dir_live d' <->
               b ∈ dir_live d \/ dir_next d <= b < dir_next d + count) /\
    (forall bucket, bucket <> result ->
       bucket_object bucket d' = bucket_object bucket d) /\
    bo_pTable (bucket_object result d') = bo_pTable (bucket_object result d) /\
    bo_HandleTableIndex (bucket_object result d')
    = bo_HandleTableIndex (bucket_object result d) /\
    length (bo_tables (bucket_object result d'))
    = length (bo_tables (bucket_object result d)) /\
    (forall k, k < uCPUindex \/ uCPUindex + count <= k ->
       bo_tables (bucket_object result d') !! k
       = bo_tables (bucket_object result d) !! k) /\
    (forall k, uCPUindex <= k < uCPUindex + count ->
       bo_tables (bucket_object result d') !! k
       = Some (Some (dir_next d + (k - uCPUindex)))).
Proof.
  induction count as [|count IH]; intros i result d Hok Hlen.
  - exists d. simpl. rewrite drop_0, Nat.add_0_r.
    split_and!; try done; [|intros k Hk; lia].
    intros b. split; [by left|]. intros [?|?]; [done|lia].
  - apply not_elem_of_take_S in Hok as [Hhead Hrest].
    simpl. rewrite (dir_alloc_success d Hhead).
    match goal with
    | |- context [dir_create_handle_tables count (S i) result ?s] =>
        destruct (IH (S i) result s)
          as (d' & Hc & Hres & Hchain & Hctx & Hnext & Hlive & Hother & HpT
              & Hidx & Hlen' & Hkeep & Hnew);
          [exact Hrest
          |rewrite bucket_object_set_eq; simpl; rewrite length_insert;
           unfold bucket_object in *; simpl in *; lia|]
    end.
    rewrite bucket_object_set_eq in HpT, Hidx, Hlen', Hkeep.
    simpl in Hres, Hchain, Hctx, Hnext, Hlive, HpT, Hidx, Hlen', Hkeep, Hnew.
    rewrite length_insert in Hlen'.
    exists d'. rewrite Hc. split_and!; try done.
    + by rewrite Hres, drop_drop.
    + lia.
    + intros b. rewrite Hlive, elem_of_cons. split.
      * intros [[->|?]|?]; [right; lia|by left|right; lia].
      * intros [?|?]; [left; by right|].
        destruct (decide (b = dir_next d)) as [->|?]; [left; by left|right; lia].
    + intros bucket Hne. rewrite (Hother bucket Hne).
      by rewrite bucket_object_set_ne.
    + intros k Hk. rewrite Hkeep by lia.
      rewrite list_lookup_insert_ne by lia. done.
    + intros k Hk. destruct (decide (k = i)) as [->|Hne].
      * rewrite Hkeep by lia. rewrite list_lookup_insert_eq by
          (unfold bucket_object in *; simpl in *; lia).
        by rewrite Nat.sub_diag, Nat.add_0_r.
      * rewrite Hnew by lia. do 2 f_equal. lia.
Qed.

(** *** Installing a bucket *)

Lemma install_bucket_spec size result n_slots fuel d :
  0 < size -> 2 <= fuel -> dir_chain d <> [] ->
  chain_ok size 0 (dir_chain d) ->
  false ∉ take 2 (dir_results d) ->
  exists d',
    install_bucket fuel size result n_slots 0 0 d = Some (true, d') /\
    let slots := directory_slots (dir_chain d) in
    let index := bo_HandleTableIndex (bucket_object result d') in
    (forall k, k < index -> exists b, slots !! k = Some (Some b)) /\
    ((slots !! index = Some None /\
      directory_slots (dir_chain d') = <[index := Some result]> slots /\
      dir_live d' = dir_live d /\ dir_next d' = dir_next d)
     \/
     (index = length slots /\
      directory_slots (dir_chain d')
      = slots ++ <[0 := Some result]> (replicate size None) /\
      dir_live d' = S (dir_next d) :: dir_next d :: dir_live d /\
      dir_next d' = S (S (dir_next d)))) /\
    chain_ok size 0 (dir_chain d') /\
    dir_contexts d' = dir_contexts d /\
    bo_pTable (bucket_object result d') = bo_pTable (bucket_object result d) /\
    bo_tables (bucket_object result d') = bo_tables (bucket_object result d) /\
    (forall bucket, bucket <> result ->
       bucket_object bucket d' = bucket_object bucket d).
Proof.
  intros Hsize Hfuel Hne Hok Hres.
  destruct fuel as [|[|fuel]]; [lia|lia|].
  cbn [install_bucket]. rewrite drop_0.
  destruct (claim_slot_in_chain size result (dir_chain d) 0)
    as [[walk' index]|] eqn:Hclaim.
  - destruct (claim_slot_in_chain_Some size result _ _ _ _ Hok Hclaim)
      as (pos & -> & Hfree & Hocc & Hslots & Hok').
    eexists. split; [done|]. cbv zeta.
    rewrite !bucket_object_set_chain, !bucket_object_set_eq.
    cbn [bo_HandleTableIndex bo_pTable bo_tables dir_chain dir_set_chain
         dir_live dir_next dir_contexts set_bucket_object take app].
    replace (0 + pos) with pos by lia.
    split; [done|]. split; [left; split_and!; done|].
    split; [done|]. split; [done|]. split; [done|]. split; [done|].
    intros bucket Hb.
    by rewrite bucket_object_set_chain, bucket_object_set_ne.
  - pose proof (claim_slot_in_chain_None size result _ _ Hok Hclaim) as Hfull.
    destruct (last (dir_chain d)) as [l|] eqn:Hlast;
      [|by apply last_None in Hlast].
    cbn [mbind option_bind].
    apply not_elem_of_take_S in Hres as [Hr0 Hres].
    apply not_elem_of_take_S in Hres as [Hr1 _].
    rewrite (dir_alloc_success d Hr0).
    match goal with
    | |- context [dir_alloc ?s] =>
        rewrite (dir_alloc_success s) by exact Hr1
    end.
    cbn [install_bucket dir_chain dir_set_chain dir_set_alloc].
    rewrite drop_app_length. cbn [claim_slot_in_chain node_slots].
    destruct size as [|size]; [lia|].
    cbn [claim_slot replicate lookup list_lookup CompareExchangePointer].
    simpl.
    pose proof (chain_ok_last _ _ _ _ Hok Hlast) as Hmax. simpl in Hmax.
    pose proof (chain_ok_length _ _ _ Hok) as Hlen.
    eexists. split; [done|]. cbv zeta.
    rewrite !bucket_object_set_chain, !bucket_object_set_eq.
    cbn [bo_HandleTableIndex bo_pTable bo_tables dir_chain dir_set_chain
         dir_set_alloc dir_live dir_next dir_contexts set_bucket_object].
    rewrite take_app_length.
    split; [intros k Hk; apply Hfull; lia|].
    split.
    { right. split_and!; [lia| |done|done].
      rewrite directory_slots_app. unfold directory_slots at 2. simpl.
      by rewrite app_nil_r. }
    split.
    { apply chain_ok_app; [done|]. simpl. rewrite length_replicate.
      split_and!; [done|lia|done]. }
    split; [done|]. split; [done|]. split; [done|].
    intros bucket Hb.
    by rewrite bucket_object_set_chain, bucket_object_set_ne.
Qed.

Lemma not_elem_of_take_add (a b : nat) (l : list bool) :
  (false ∉ take (a + b) l) <->
  (false ∉ take a l) /\ (false ∉ take b (drop a l)).
Proof. rewrite <- take_take_drop, not_elem_of_app. done. Qed.

(** X14.  [Ref_InitializeHandleTableBucket], run by one thread, installs a
    bucket at the free entry of lowest index.  In a well-formed directory,
    when no allocation fails, it returns true; the bucket's
    [HandleTableIndex] is the lowest index whose entry was null, and that
    entry now holds the bucket while every other entry is as it was.
    When every entry was taken, one node of
    [INITIAL_HANDLE_TABLE_ARRAY_SIZE] entries is appended and the bucket
    takes its first entry, so that the index is the number of entries
    there were.  The directory stays well-formed.  The bucket has a table
    array with one live handle table for each of [getNumberOfSlots]
    slots, every block that was live still is, and no other bucket
    changes. *)
Theorem Ref_InitializeHandleTableBucket_installs
    (fuel INITIAL_HANDLE_TABLE_ARRAY_SIZE bucket : nat) (d : Directory) :
  0 < INITIAL_HANDLE_TABLE_ARRAY_SIZE -> 2 <= fuel ->
  dir_chain d <> [] ->
  chain_ok INITIAL_HANDLE_TABLE_ARRAY_SIZE 0 (dir_chain d) ->
  false ∉ take (1 + getNumberOfSlots + 2) (dir_results d) ->
  exists d',
    Ref_InitializeHandleTableBucket fuel INITIAL_HANDLE_TABLE_ARRAY_SIZE bucket d
    = Some (true, d') /\
    let slots := directory_slots (dir_chain d) in
    let bo := bucket_object bucket d' in
    let index := bo_HandleTableIndex bo in
    (forall k, k < index -> exists b, slots !! k = Some (Some b)) /\
    ((slots !! index = Some None /\
      directory_slots (dir_chain d') = <[index := Some bucket]> slots /\
      dir_next d' = dir_next d + 1 + getNumberOfSlots)
     \/
     (index = length slots /\
      directory_slots (dir_chain d')
      = slots ++ <[0 := Some bucket]>
                   (replicate INITIAL_HANDLE_TABLE_ARRAY_SIZE None) /\
      dir_next d' = dir_next d + 1 + getNumberOfSlots + 2)) /\
    chain_ok INITIAL_HANDLE_TABLE_ARRAY_SIZE 0 (dir_chain d') /\
    bo_pTable bo = Some (dir_next d) /\
    length (bo_tables bo) = getNumberOfSlots /\
    (forall k, k < getNumberOfSlots ->
       bo_tables bo !! k = Some (Some (dir_next d + 1 + k))) /\
    (forall b, b ∈ dir_live d' <->
               b ∈ dir_live d \/ dir_next d <= b < dir_next d') /\
    dir_contexts d' = dir_contexts d /\
    (forall bucket', bucket' <> bucket ->
       bucket_object bucket' d' = bucket_object bucket' d).
Proof.
  intros Hsize Hfuel Hne Hok Hres.
  apply not_elem_of_take_add in Hres as [Hres Hres2].
  apply not_elem_of_take_S in Hres as [Hr0 Hres1].
  unfold Ref_InitializeHandleTableBucket.
  match goal with
  | |- context [dir_alloc ?s] => rewrite (dir_alloc_success s) by exact Hr0
  end.
  rewrite !bucket_object_set_eq, ?bucket_object_set_alloc.
  cbn [bo_tables bo_HandleTableIndex bo_pTable].
  match goal with
  | |- context [dir_create_handle_tables ?c ?i ?r ?s] =>
      destruct (dir_create_handle_tables_success c i r s)
        as (d1 & -> & Hres' & Hchain & Hctx & Hnext & Hlive & Hother & HpT
            & Hidx & Hlen & Hkeep & Hnew)
  end.
  { exact Hres1. }
  { rewrite bucket_object_set_eq. simpl. by rewrite length_replicate. }
  rewrite bucket_object_set_eq in HpT, Hidx, Hlen, Hkeep.
  cbn [dir_results dir_chain dir_contexts dir_next dir_live set_bucket_object
       dir_set_alloc bo_pTable bo_tables bo_HandleTableIndex]
    in Hres', Hchain, Hctx, Hnext, Hlive, HpT, Hidx, Hlen, Hkeep, Hnew.
  rewrite length_replicate in Hlen.
  destruct (dir_chain d1) as [|n0 chain0] eqn:Hc1; [congruence|].
  rewrite <- Hc1 in Hchain.
  destruct (install_bucket_spec INITIAL_HANDLE_TABLE_ARRAY_SIZE bucket
              getNumberOfSlots fuel d1 Hsize Hfuel)
    as (d' & -> & Hocc & Hcases & Hok' & Hctx' & HpT' & Htables' & Hother');
    [congruence|by rewrite Hchain| |].
  { by rewrite Hres', drop_drop. }
  cbv zeta in Hocc, Hcases. rewrite Hchain in Hocc, Hcases.
  exists d'. split; [done|]. cbv zeta.
  split; [done|].
  assert (Hnext' : dir_next d' = dir_next d + 1 + getNumberOfSlots \/
                   dir_next d' = dir_next d + 1 + getNumberOfSlots + 2).
  { destruct Hcases as [(_ & _ & _ & ->)|(_ & _ & _ & ->)]; lia. }
  split.
  { destruct Hcases as [(? & ? & _ & ->)|(? & ? & _ & ->)];
      [left|right]; split_and!; try done; lia. }
  split; [done|]. rewrite HpT', Htables'.
  split; [done|]. split; [done|].
  split.
  { intros k Hk. rewrite Hnew by lia. do 2 f_equal. lia. }
  split.
  { intros b.
    destruct Hcases as [(_ & _ & -> & ->)|(_ & _ & -> & ->)];
      rewrite ?elem_of_cons, Hlive, ?elem_of_cons, Hnext; split.
    - intros [[->|?]|?]; [right; lia|by left|right; lia].
    - intros [?|?]; [left; by right|].
      destruct (decide (b = dir_next d)) as [->|?]; [left; by left|right; lia].
    - intros [->|[->|[[->|?]|?]]]; try (right; lia). by left.
    - intros [?|?]; [do 2 right; left; by right|].
      destruct (decide (b = S (S (dir_next d) + getNumberOfSlots)))
        as [->|?]; [by left|].
      destruct (decide (b = S (dir_next d) + getNumberOfSlots))
        as [->|?]; [right; by left|].
      destruct (decide (b = dir_next d)) as [->|?];
        [do 2 right; left; by left|].
      do 3 right. lia. }
  split; [congruence|].
  intros bucket' Hb. rewrite (Hother' _ Hb), (Hother _ Hb).
  rewrite !bucket_object_set_ne by done.
  by rewrite bucket_object_set_alloc, bucket_object_set_ne.
Qed.

Lemma dir_release_Some b d d' :
  dir_release b d = Some d' ->
  b ∈ dir_live d /\
  d' = dir_set_alloc (filter (fun x => x <> b) (dir_live d))
                     (dir_next d) (dir_results d) d.
Proof. unfold dir_release. case_bool_decide; naive_solver. Qed.

Lemma dir_release_live b d :
  b ∈ dir_live d ->
  dir_release b d
  = Some (dir_set_alloc (filter (fun x => x <> b) (dir_live d))
                        (dir_next d) (dir_results d) d).
Proof. intros Hlive. unfold dir_release. by rewrite bool_decide_eq_true_2. Qed.

(** *** When an allocation fails *)

Lemma dir_create_handle_tables_failure count :
  forall uCPUindex result d q rest,
  dir_results d = replicate q true ++ false :: rest -> q < count ->
  uCPUindex + count <= length (bo_tables (bucket_object result d)) ->
  exists d',
    dir_create_handle_tables count uCPUindex result d = (false, d') /\
    dir_chain d' = dir_chain d /\ dir_contexts d' = dir_contexts d /\
    dir_next d' = dir_next d + q /\
    (forall b, b ∈ dir_live d' <->
               b ∈ dir_live d \/ dir_next d <= b < dir_next d + q) /\
    (forall bucket, bucket <> result ->
       bucket_object bucket d' = bucket_object bucket d) /\
    bo_pTable (bucket_object result d') = bo_pTable (bucket_object result d) /\
    length (bo_tables (bucket_object result d'))
    = length (bo_tables (bucket_object result d)) /\
    (forall k, k < uCPUindex \/ uCPUindex + q < k ->
       bo_tables (bucket_object result d') !! k
       = bo_tables (bucket_object result d) !! k) /\
    (forall k, uCPUindex <= k < uCPUindex + q ->
       bo_tables (bucket_object result d') !! k
       = Some (Some (dir_next d + (k - uCPUindex)))) /\
    bo_tables (bucket_object result d') !! (uCPUindex + q) = Some None.
Proof.
  induction count as [|count IH]; intros i result d q rest Hres Hq Hlen; [lia|].
  cbn [dir_create_handle_tables].
  destruct q as [|q].
  - rewrite dir_alloc_failure by (by rewrite Hres).
    eexists. split; [done|].
    rewrite !bucket_object_set_eq, ?bucket_object_set_alloc.
    cbn [dir_chain dir_contexts dir_next dir_live set_bucket_object
         dir_set_alloc bo_pTable bo_tables].
    rewrite !Nat.add_0_r, length_insert.
    split_and!; try done.
    + intros b. split; [by left|]. intros [?|?]; [done|lia].
    + intros bucket Hne. by rewrite bucket_object_set_ne.
    + intros k Hk. rewrite list_lookup_insert_ne by lia. done.
    + intros k Hk. lia.
    + rewrite list_lookup_insert_eq by lia. done.
  - rewrite dir_alloc_success by (by rewrite Hres).
    match goal with
    | |- context [dir_create_handle_tables count (S i) result ?s] =>
        destruct (IH (S i) result s q rest)
          as (d' & Hc & Hchain & Hctx & Hnext & Hlive & Hother & HpT
              & Hlen' & Hkeep & Hnew & Hfail)
    end.
    { cbn [dir_results set_bucket_object dir_set_alloc]. by rewrite Hres. }
    { lia. }
    { rewrite bucket_object_set_eq. cbn [bo_tables].
      rewrite length_insert, bucket_object_set_alloc. lia. }
    rewrite bucket_object_set_eq in HpT, Hlen', Hkeep.
    rewrite bucket_object_set_alloc in HpT, Hlen', Hkeep.
    cbn [dir_chain dir_contexts dir_next dir_live set_bucket_object
         dir_set_alloc bo_pTable bo_tables]
      in Hchain, Hctx, Hnext, Hlive, HpT, Hlen', Hkeep, Hnew.
    rewrite length_insert in Hlen'.
    exists d'. rewrite Hc. split_and!; try done.
    + lia.
    + intros b. rewrite Hlive, elem_of_cons. split.
      * intros [[->|?]|?]; [right; lia|by left|right; lia].
      * intros [?|?]; [left; by right|].
        destruct (decide (b = dir_next d)) as [->|?]; [left; by left|right; lia].
    + intros bucket Hne. rewrite (Hother bucket Hne).
      by rewrite bucket_object_set_ne.
    + intros k Hk. rewrite Hkeep by lia.
      rewrite list_lookup_insert_ne by lia. done.
    + intros k Hk. destruct (decide (k = i)) as [->|Hne].
      * rewrite Hkeep by lia. rewrite list_lookup_insert_eq by lia.
        by rewrite Nat.sub_diag, Nat.add_0_r.
      * rewrite Hnew by lia. do 2 f_equal. lia.
    + by rewrite <- Nat.add_succ_comm.
Qed.

Lemma destroy_created_tables_spec : forall tables d,
  (forall i j t, tables !! i = Some (Some t) -> tables !! j = Some (Some t) ->
                 i = j) ->
  (forall t, Some t ∈ tables -> t ∈ dir_live d) ->
  exists d',
    destroy_created_tables tables d = Some d' /\
    (forall b, b ∈ dir_live d' <-> b ∈ dir_live d /\ Some b ∉ tables) /\
    dir_chain d' = dir_chain d /\ dir_buckets d' = dir_buckets d /\
    dir_contexts d' = dir_contexts d /\ dir_next d' = dir_next d.
Proof.
  induction tables as [|[t|] tables IH]; intros d Hinj Hlive.
  - exists d. split_and!; try done. intros b. rewrite elem_of_nil. tauto.
  - cbn [destroy_created_tables].
    rewrite dir_release_live by (apply Hlive; by left).
    cbn [mbind option_bind].
    match goal with
    | |- context [destroy_created_tables tables ?s] =>
        destruct (IH s) as (d' & -> & Hlive' & ? & ? & ? & ?)
    end.
    { intros i j t' Hi Hj.
      assert (S i = S j) by (by apply (Hinj (S i) (S j) t')). lia. }
    { intros t' Ht'. cbn [dir_live dir_set_alloc].
      apply list_elem_of_filter. split; [|apply Hlive; by right].
      intros ->. apply list_elem_of_lookup in Ht' as [j Hj].
      by specialize (Hinj 0 (S j) t eq_refl Hj). }
    exists d'. split_and!; try done.
    intros b. rewrite Hlive'. cbn [dir_live dir_set_alloc].
    rewrite list_elem_of_filter, elem_of_cons.
    split; [intros [[? ?] ?]; split; [done|]; intros [?|?]; simplify_eq; done|].
    intros [? Hn]. split; [split; [|done]|]; intros ?; apply Hn;
      [left; by subst|by right].
  - cbn [destroy_created_tables].
    destruct (IH d) as (d' & -> & Hlive' & ? & ? & ? & ?).
    { intros i j t' Hi Hj.
      assert (S i = S j) by (by apply (Hinj (S i) (S j) t')). lia. }
    { intros t' Ht'. apply Hlive. by right. }
    exists d'. split_and!; try done.
    intros b. rewrite Hlive', elem_of_cons.
    split; [intros [? ?]; split; [done|]; intros [?|?]; done|].
    intros [? Hn]. split; [done|]. intros ?. apply Hn. by right.
Qed.

(** The destructor of the holder gives back the table array and the
    tables created so far. *)
Lemma dir_HandleTableBucketHolder_dtor_spec result n_slots pT base q d :
  bo_pTable (bucket_object result d) = Some pT ->
  length (bo_tables (bucket_object result d)) = n_slots ->
  (forall k, k < q ->
     bo_tables (bucket_object result d) !! k = Some (Some (base + k))) ->
  (forall k, q <= k < n_slots ->
     bo_tables (bucket_object result d) !! k = Some None) ->
  pT < base -> pT ∈ dir_live d ->
  (forall k, k < q -> base + k ∈ dir_live d) ->
  exists d',
    dir_HandleTableBucketHolder_dtor result n_slots false d = Some d' /\
    (forall b, b ∈ dir_live d' <->
               b ∈ dir_live d /\ b <> pT /\ ~ (base <= b < base + q)) /\
    dir_chain d' = dir_chain d /\ dir_buckets d' = dir_buckets d /\
    dir_contexts d' = dir_contexts d /\ dir_next d' = dir_next d.
Proof.
  intros HpT Hlen Hnew Hnone Hbase HpTlive Hlive.
  unfold dir_HandleTableBucketHolder_dtor. rewrite HpT.
  rewrite firstn_all2 by lia.
  assert (Hentry : forall k t,
            bo_tables (bucket_object result d) !! k = Some (Some t) ->
            k < q /\ t = base + k).
  { intros k t Hk.
    assert (Hlt : k < n_slots)
      by (rewrite <- Hlen; exact (lookup_lt_Some _ _ _ Hk)).
    destruct (decide (k < q)) as [Hin|Hout].
    - rewrite Hnew in Hk by done. by simplify_eq.
    - rewrite Hnone in Hk by lia. done. }
  destruct (destroy_created_tables_spec (bo_tables (bucket_object result d)) d)
    as (d1 & -> & Hlive1 & Hchain1 & Hbuckets1 & Hctx1 & Hnext1).
  { intros i j t Hi Hj. apply Hentry in Hi as [? ->].
    apply Hentry in Hj as [? ?]. lia. }
  { intros t Ht. apply list_elem_of_lookup in Ht as [k Hk].
    apply Hentry in Hk as [? ->]. by apply Hlive. }
  cbn [mbind option_bind].
  assert (Hin : forall b, Some b ∈ bo_tables (bucket_object result d)
                          <-> base <= b < base + q).
  { intros b. rewrite list_elem_of_lookup. split.
    - intros [k Hk]. apply Hentry in Hk as [? ->]. lia.
    - intros Hb. exists (b - base). rewrite Hnew by lia.
      do 2 f_equal. lia. }
  rewrite dir_release_live.
  2:{ apply Hlive1. split; [done|]. rewrite Hin. lia. }
  eexists. split; [done|].
  cbn [dir_chain dir_buckets dir_contexts dir_next dir_live dir_set_alloc].
  split_and!; try done.
  intros b. rewrite list_elem_of_filter, Hlive1, Hin. tauto.
Qed.

(** X19.  A call of [Ref_InitializeHandleTableBucket] that fails gives
    back what it has allocated.  Let the first allocation to fail be that
    of the table array, of one of the handle tables or, when every entry
    of the directory is taken, of the new node or of its bucket array.
    Then the call returns false, the chain and its entries are as they
    were, and exactly the blocks that were live before the call are live
    after it: the destructor of the holder has destroyed the handle tables
    and deleted the table array, and the node has been deleted.  No other
    bucket is written.  The bucket itself keeps in [pTable] the address of
    the table array, which is no longer live, whenever that array had been
    allocated. *)
Theorem Ref_InitializeHandleTableBucket_failure_releases
    (fuel INITIAL_HANDLE_TABLE_ARRAY_SIZE bucket : nat) (d : Directory)
    (p : nat) (rest : list bool) :
  0 < fuel -> dir_chain d <> [] ->
  chain_ok INITIAL_HANDLE_TABLE_ARRAY_SIZE 0 (dir_chain d) ->
  (forall b, b ∈ dir_live d -> b < dir_next d) ->
  dir_results d = replicate p true ++ false :: rest ->
  p <= getNumberOfSlots \/
  (p <= getNumberOfSlots + 2 /\
   forall k, k < length (directory_slots (dir_chain d)) ->
             exists b, directory_slots (dir_chain d) !! k = Some (Some b)) ->
  exists d',
    Ref_InitializeHandleTableBucket fuel INITIAL_HANDLE_TABLE_ARRAY_SIZE bucket d
    = Some (false, d') /\
    dir_chain d' = dir_chain d /\
    (forall b, b ∈ dir_live d' <-> b ∈ dir_live d) /\
    dir_contexts d' = dir_contexts d /\
    (forall bucket', bucket' <> bucket ->
       bucket_object bucket' d' = bucket_object bucket' d) /\
    (0 < p -> bo_pTable (bucket_object bucket d') = Some (dir_next d) /\
              dir_next d ∉ dir_live d').
Proof.
  intros Hfuel Hne Hok Hfresh Hres Hp.
  assert (Hgone : dir_next d ∉ dir_live d)
    by (intros Hin; apply Hfresh in Hin; lia).
  unfold Ref_InitializeHandleTableBucket.
  destruct p as [|p].
  { (* the table array *)
    rewrite dir_alloc_failure
      by (cbn [dir_results set_bucket_object]; by rewrite Hres).
    eexists. split; [done|].
    cbn [dir_chain dir_live dir_contexts set_bucket_object dir_set_alloc].
    split_and!; try done; [|lia].
    intros bucket' Hb. rewrite bucket_object_set_ne by done.
    by rewrite bucket_object_set_alloc, bucket_object_set_ne. }
  rewrite dir_alloc_success
    by (cbn [dir_results set_bucket_object]; by rewrite Hres).
  rewrite !bucket_object_set_eq, ?bucket_object_set_alloc.
  cbn [bo_tables bo_HandleTableIndex bo_pTable].
  set (d0 := set_bucket_object bucket _ (set_bucket_object bucket _
               (dir_set_alloc _ _ _ (set_bucket_object bucket _ d)))).
  assert (Hres0 : dir_results d0 = replicate p true ++ false :: rest).
  { subst d0. cbn [dir_results set_bucket_object dir_set_alloc].
    by rewrite Hres. }
  assert (Hbo0 : bucket_object bucket d0
                 = mkBucketObject (Some (dir_next d))
                     (replicate getNumberOfSlots None)
                     (bo_HandleTableIndex (bucket_object bucket d))).
  { subst d0. rewrite bucket_object_set_eq. f_equal.
    by rewrite bucket_object_set_eq. }
  assert (Hother0 : forall bucket', bucket' <> bucket ->
            bucket_object bucket' d0 = bucket_object bucket' d).
  { intros bucket' Hb. subst d0. rewrite !bucket_object_set_ne by done.
    by rewrite bucket_object_set_alloc, bucket_object_set_ne. }
  assert (Hchain0 : dir_chain d0 = dir_chain d) by done.
  assert (Hctx0 : dir_contexts d0 = dir_contexts d) by done.
  assert (Hnext0 : dir_next d0 = S (dir_next d)) by done.
  assert (Hlive0 : dir_live d0 = dir_next d :: dir_live d) by done.
  clearbody d0.
  destruct (decide (p < getNumberOfSlots)) as [Hcreate|Hcreated].
  { (* one of the handle tables *)
    destruct (dir_create_handle_tables_failure getNumberOfSlots 0 bucket d0
                p rest Hres0 Hcreate)
      as (d1 & -> & Hchain & Hctx & Hnext & Hlive & Hother & HpT & Hlen
          & Hkeep & Hnew & Hfail).
    { rewrite Hbo0. cbn [bo_tables]. by rewrite length_replicate. }
    rewrite Hbo0 in HpT, Hlen, Hkeep. cbn [bo_pTable bo_tables] in HpT, Hlen, Hkeep.
    rewrite length_replicate in Hlen.
    destruct (dir_HandleTableBucketHolder_dtor_spec bucket getNumberOfSlots
                (dir_next d) (S (dir_next d)) p d1)
      as (d2 & -> & Hlive2 & Hchain2 & Hbuckets2 & Hctx2 & Hnext2);
      [done|done| | |lia| | |].
    { intros k Hk. rewrite Hnew by lia. do 2 f_equal. lia. }
    { intros k Hk. destruct (decide (k = p)) as [->|Hkp]; [done|].
      rewrite Hkeep by lia. apply lookup_replicate_2. lia. }
    { apply Hlive. left. rewrite Hlive0. by left. }
    { intros k Hk. apply Hlive. right. lia. }
    cbn [mbind option_bind]. exists d2. split; [done|].
    assert (Hsame : forall b, b ∈ dir_live d2 <-> b ∈ dir_live d).
    { intros b. rewrite Hlive2, Hlive, Hlive0, elem_of_cons, Hnext0. split.
      - intros [[[->|?]|?] [? ?]]; [done|done|lia].
      - intros Hb. pose proof (Hfresh b Hb). split; [left; by right|lia]. }
    split_and!; try done; try congruence.
    - intros bucket' Hb. unfold bucket_object at 1. rewrite Hbuckets2.
      fold (bucket_object bucket' d1). rewrite Hother by done.
      by apply Hother0.
    - intros _. split; [|by rewrite Hsame].
      unfold bucket_object. rewrite Hbuckets2. exact HpT. }
  (* the chain is full, and the node or its array cannot be allocated *)
  destruct Hp as [Hp|[Hp Hfull]]; [lia|].
  assert (Hsplit : p = getNumberOfSlots + (p - getNumberOfSlots)) by lia.
  rewrite Hsplit, replicate_add, <- app_assoc in Hres0.
  destruct (dir_create_handle_tables_success getNumberOfSlots 0 bucket d0)
    as (d1 & -> & Hres1 & Hchain & Hctx & Hnext & Hlive & Hother & HpT
        & Hidx & Hlen & Hkeep & Hnew).
  { rewrite Hres0, take_app_length' by (by rewrite length_replicate).
    intros Hin. by apply elem_of_replicate in Hin as [? _]. }
  { rewrite Hbo0. cbn [bo_tables]. by rewrite length_replicate. }
  rewrite Hres0, drop_app_length' in Hres1 by (by rewrite length_replicate).
  rewrite Hbo0 in HpT, Hlen. cbn [bo_pTable bo_tables] in HpT, Hlen.
  rewrite length_replicate in Hlen.
  destruct (dir_chain d1) as [|n0 chain0] eqn:Hc1; [congruence|].
  rewrite <- Hc1 in *. clear n0 chain0 Hc1.
  destruct fuel as [|fuel]; [lia|]. cbn [install_bucket]. rewrite drop_0.
  destruct (claim_slot_in_chain INITIAL_HANDLE_TABLE_ARRAY_SIZE bucket
              (dir_chain d1) 0) as [[walk' index]|] eqn:Hclaim.
  { rewrite Hchain, Hchain0 in Hclaim.
    destruct (claim_slot_in_chain_Some _ _ _ _ _ _ Hok Hclaim)
      as (pos & _ & Hfree & _).
    destruct (Hfull pos) as [b Hb]; [by eapply lookup_lt_Some|congruence]. }
  destruct (last (dir_chain d1)) as [l|] eqn:Hlast.
  2:{ apply last_None in Hlast. congruence. }
  cbn [mbind option_bind].
  assert (HpTlive : dir_next d ∈ dir_live d1).
  { apply Hlive. left. rewrite Hlive0. by left. }
  assert (Htables : forall k, k < getNumberOfSlots ->
            bo_tables (bucket_object bucket d1) !! k
            = Some (Some (S (dir_next d) + k))).
  { intros k Hk. rewrite Hnew by lia. do 2 f_equal. lia. }
  destruct (decide (p = getNumberOfSlots)) as [Hnode|Harray].
  - (* the node *)
    replace (p - getNumberOfSlots) with 0 in Hres1 by lia.
    rewrite dir_alloc_failure by (by rewrite Hres1).
    set (d2 := dir_set_alloc _ _ _ d1).
    destruct (dir_HandleTableBucketHolder_dtor_spec bucket getNumberOfSlots
                (dir_next d) (S (dir_next d)) getNumberOfSlots d2)
      as (d3 & -> & Hlive3 & Hchain3 & Hbuckets3 & Hctx3 & Hnext3);
      [done|done|done|intros k Hk; lia|lia|done| |].
    { intros k Hk. apply Hlive. right. lia. }
    cbn [mbind option_bind]. exists d3. split; [done|].
    assert (Hsame : forall b, b ∈ dir_live d3 <-> b ∈ dir_live d).
    { intros b. rewrite Hlive3. unfold d2. cbn [dir_live dir_set_alloc].
      rewrite Hlive, Hlive0, elem_of_cons, Hnext0. split.
      - intros [[[->|?]|?] [? ?]]; [done|done|lia].
      - intros Hb. pose proof (Hfresh b Hb). split; [left; by right|lia]. }
    split_and!; try done; try congruence.
    + rewrite Hchain3. unfold d2. cbn [dir_chain dir_set_alloc]. congruence.
    + rewrite Hctx3. unfold d2. cbn [dir_contexts dir_set_alloc]. congruence.
    + intros bucket' Hb. unfold bucket_object at 1. rewrite Hbuckets3.
      fold (bucket_object bucket' d2). unfold d2.
      rewrite bucket_object_set_alloc, Hother by done. by apply Hother0.
    + intros _. split; [|by rewrite Hsame].
      unfold bucket_object. rewrite Hbuckets3. exact HpT.
  - (* the bucket array of the node *)
    replace (p - getNumberOfSlots) with 1 in Hres1 by lia.
    rewrite dir_alloc_success by (by rewrite Hres1).
    rewrite dir_alloc_failure
      by (cbn [dir_results dir_set_alloc]; by rewrite Hres1).
    rewrite dir_release_live by (cbn [dir_live dir_set_alloc]; by left).
    cbn [mbind option_bind dir_live dir_next dir_results dir_set_alloc].
    set (d2 := dir_set_alloc _ _ _ _).
    assert (Hlive2 : forall b, b ∈ dir_live d2 <-> b ∈ dir_live d1).
    { intros b. unfold d2. cbn [dir_live dir_set_alloc].
      rewrite list_elem_of_filter, elem_of_cons. split.
      - intros [? [?|?]]; done.
      - intros Hb. split; [|by right]. intros ->.
        apply Hlive in Hb as [Hb|Hb]; [|lia].
        rewrite Hlive0, elem_of_cons in Hb. destruct Hb as [?|Hb]; [lia|].
        apply Hfresh in Hb. lia. }
    destruct (dir_HandleTableBucketHolder_dtor_spec bucket getNumberOfSlots
                (dir_next d) (S (dir_next d)) getNumberOfSlots d2)
      as (d3 & -> & Hlive3 & Hchain3 & Hbuckets3 & Hctx3 & Hnext3);
      [done|done|done|intros k Hk; lia|lia|by apply Hlive2| |].
    { intros k Hk. apply Hlive2, Hlive. right. lia. }
    cbn [mbind option_bind]. exists d3. split; [done|].
    assert (Hsame : forall b, b ∈ dir_live d3 <-> b ∈ dir_live d).
    { intros b. rewrite Hlive3, Hlive2, Hlive, Hlive0, elem_of_cons, Hnext0.
      split.
      - intros [[[->|?]|?] [? ?]]; [done|done|lia].
      - intros Hb. pose proof (Hfresh b Hb). split; [left; by right|lia]. }
    split_and!; try done; try congruence.
    + rewrite Hchain3. unfold d2. cbn [dir_chain dir_set_alloc]. congruence.
    + rewrite Hctx3. unfold d2. cbn [dir_contexts dir_set_alloc]. congruence.
    + intros bucket' Hb. unfold bucket_object at 1. rewrite Hbuckets3.
      fold (bucket_object bucket' d2). unfold d2.
      rewrite !bucket_object_set_alloc, Hother by done. by apply Hother0.
    + intros _. split; [|by rewrite Hsame].
      unfold bucket_object. rewrite Hbuckets3. exact HpT.
Qed.

(** *** Removing and destroying a bucket *)

Lemma remove_from_chain_out size pBucket index : forall walk offset,
  chain_ok size offset walk -> index < offset ->
  remove_from_chain pBucket index walk offset = walk.
Proof.
  induction walk as [|n rest IH]; intros offset Hok Hlt; [done|].
  destruct Hok as (Hlen & Hmax & Hrest). cbn [remove_from_chain].
  assert (Hle : (offset <=? index) = false) by (apply Nat.leb_gt; lia).
  rewrite Hle, andb_false_r. cbn [andb]. f_equal.
  apply IH; [by rewrite Hmax|lia].
Qed.

Lemma remove_from_chain_spec size pBucket index : forall walk offset,
  chain_ok size offset walk -> offset <= index ->
  directory_slots (remove_from_chain pBucket index walk offset)
  = (if bool_decide (directory_slots walk !! (index - offset)
                     = Some (Some pBucket))
     then <[index - offset := None]> (directory_slots walk)
     else directory_slots walk) /\
  chain_ok size offset (remove_from_chain pBucket index walk offset) /\
  (directory_slots walk !! (index - offset) <> Some (Some pBucket) ->
   remove_from_chain pBucket index walk offset = walk).
Proof.
  induction walk as [|n rest IH]; intros offset Hok Hle.
  - cbn [remove_from_chain]. by rewrite bool_decide_eq_false_2.
  - destruct Hok as (Hlen & Hmax & Hrest). cbn [remove_from_chain].
    rewrite !directory_slots_cons.
    assert (Hge : (offset <=? index) = true) by (apply Nat.leb_le; lia).
    rewrite Hge, andb_true_r.
    destruct (index <? node_dwMaxIndex n) eqn:Hlt.
    + apply Nat.ltb_lt in Hlt. cbn [andb].
      rewrite (lookup_app_l (node_slots n)) by lia.
      case_bool_decide as Hhere.
      * rewrite directory_slots_cons. cbn [node_slots set_node_slots].
        split; [by rewrite insert_app_l by lia|].
        split; [|done].
        cbn [chain_ok node_slots node_dwMaxIndex set_node_slots].
        by rewrite length_insert.
      * rewrite (remove_from_chain_out size); [|by rewrite Hmax|done].
        rewrite directory_slots_cons. done.
    + apply Nat.ltb_ge in Hlt. cbn [andb].
      destruct (IH (node_dwMaxIndex n)) as (Hslots & Hok' & Habsent);
        [by rewrite Hmax|lia|].
      rewrite (lookup_app_r (node_slots n)) by lia.
      replace (index - offset - length (node_slots n))
        with (index - node_dwMaxIndex n) by lia.
      rewrite directory_slots_cons, Hslots.
      split.
      { case_bool_decide; [|done].
        rewrite insert_app_r_alt by lia. do 2 f_equal. lia. }
      split.
      { cbn [chain_ok]. split_and!; [done|done|by rewrite <- Hmax]. }
      intros Hno. by rewrite Habsent.
Qed.

(** X15.  [Ref_RemoveHandleTableBucket] clears the entry a bucket's index
    names only if that entry holds this very bucket.  In a well-formed
    directory the entry of index [HandleTableIndex] becomes null when it
    held [pBucket], and no entry changes otherwise (the index is out of
    range, or the entry is null or was given to another bucket).  No
    other entry changes, no block is released, no bucket object is
    written, the directory stays well-formed, and removing the bucket a
    second time changes nothing. *)
Theorem Ref_RemoveHandleTableBucket_clears_own_entry
    (INITIAL_HANDLE_TABLE_ARRAY_SIZE pBucket : nat) (d : Directory) :
  chain_ok INITIAL_HANDLE_TABLE_ARRAY_SIZE 0 (dir_chain d) ->
  let index := bo_HandleTableIndex (bucket_object pBucket d) in
  let slots := directory_slots (dir_chain d) in
  let d' := Ref_RemoveHandleTableBucket pBucket d in
  directory_slots (dir_chain d')
  = (if bool_decide (slots !! index = Some (Some pBucket))
     then <[index := None]> slots else slots) /\
  chain_ok INITIAL_HANDLE_TABLE_ARRAY_SIZE 0 (dir_chain d') /\
  dir_live d' = dir_live d /\ dir_buckets d' = dir_buckets d /\
  Ref_RemoveHandleTableBucket pBucket d' = d'.
Proof.
  intros Hok index slots d'.
  destruct (remove_from_chain_spec INITIAL_HANDLE_TABLE_ARRAY_SIZE pBucket
              index (dir_chain d) 0 Hok) as (Hslots & Hok' & _); [lia|].
  rewrite Nat.sub_0_r in Hslots.
  split; [exact Hslots|]. split; [exact Hok'|]. split; [done|]. split; [done|].
  unfold d', Ref_RemoveHandleTableBucket.
  rewrite !bucket_object_set_chain. fold index.
  cbn [dir_chain dir_set_chain].
  destruct (remove_from_chain_spec INITIAL_HANDLE_TABLE_ARRAY_SIZE pBucket
              index (remove_from_chain pBucket index (dir_chain d) 0) 0 Hok')
    as (_ & _ & Habsent); [lia|].
  rewrite Habsent; [done|].
  rewrite Nat.sub_0_r, Hslots. fold slots. clear Hslots Habsent.
  case_bool_decide as Hhere; [|done].
  destruct (decide (index < length slots)) as [Hin|Hout].
  - by rewrite list_lookup_insert_eq.
  - rewrite lookup_ge_None_2; [done|]. rewrite length_insert. lia.
Qed.

Lemma destroy_tables_spec tables : forall ts uCPUindex d,
  (forall k t, ts !! k = Some t -> tables !! (uCPUindex + k) = Some (Some t)) ->
  NoDup ts -> (forall b, b ∈ ts -> b ∈ dir_live d) ->
  exists d',
    destroy_tables (length ts) uCPUindex tables d = Some d' /\
    (forall b, b ∈ dir_live d' <-> b ∈ dir_live d /\ b ∉ ts) /\
    dir_chain d' = dir_chain d /\ dir_buckets d' = dir_buckets d /\
    dir_next d' = dir_next d /\ dir_results d' = dir_results d /\
    dir_contexts d' = dir_contexts d.
Proof.
  induction ts as [|t ts IH]; intros i d Htables Hnodup Hlive.
  - exists d. split_and!; try done. intros b. rewrite elem_of_nil. tauto.
  - apply NoDup_cons in Hnodup as [Hfresh Hnodup].
    cbn [length destroy_tables].
    assert (Hhead : tables !! i = Some (Some t)).
    { specialize (Htables 0 t eq_refl). by rewrite Nat.add_0_r in Htables. }
    rewrite Hhead. cbn [mjoin option_join mbind option_bind].
    rewrite dir_release_live by (apply Hlive; by left).
    cbn [mbind option_bind].
    match goal with
    | |- context [destroy_tables _ _ _ ?s] =>
        destruct (IH (S i) s) as (d' & -> & Hlive' & ? & ? & ? & ? & ?)
    end.
    { intros k t' Hk. replace (S i + k) with (i + S k) by lia.
      by apply Htables. }
    { done. }
    { intros b Hb. cbn [dir_live dir_set_alloc].
      apply list_elem_of_filter. split; [by intros ->|].
      apply Hlive. by right. }
    exists d'. split_and!; try done.
    intros b. rewrite Hlive'. cbn [dir_live dir_set_alloc].
    rewrite list_elem_of_filter, elem_of_cons. tauto.
Qed.

Lemma destroy_tables_live tables : forall count uCPUindex d d',
  destroy_tables count uCPUindex tables d = Some d' ->
  forall b, b ∈ dir_live d' -> b ∈ dir_live d.
Proof.
  induction count as [|count IH]; intros i d d' Hd b Hb.
  - by simplify_eq/=.
  - cbn [destroy_tables] in Hd.
    destruct (mjoin (tables !! i)) as [t|]; [|done].
    cbn [mbind option_bind] in Hd.
    destruct (dir_release t d) as [d1|] eqn:Hrel; [|done].
    cbn [mbind option_bind] in Hd.
    apply dir_release_Some in Hrel as [_ ->].
    specialize (IH _ _ _ Hd b Hb). cbn [dir_live dir_set_alloc] in IH.
    by apply list_elem_of_filter in IH as [_ ?].
Qed.

(** X16.  [Ref_DestroyHandleTableBucket] takes the bucket out of the
    directory and releases its table array and its handle tables, and
    only these.  For a bucket whose table array and [getNumberOfSlots]
    handle tables are distinct live blocks, the call has a result: the
    live blocks are those there were but for these, the entry of the
    bucket is cleared as [Ref_RemoveHandleTableBucket] clears it, no node
    leaves the chain, and the bucket object still holds the pointers it
    held.  So destroying the same bucket once more releases blocks that
    are no longer live, which has no defined behaviour. *)
Theorem Ref_DestroyHandleTableBucket_releases
    (INITIAL_HANDLE_TABLE_ARRAY_SIZE pBucket : nat) (d : Directory)
    (pTable : block) (tables : list block) :
  chain_ok INITIAL_HANDLE_TABLE_ARRAY_SIZE 0 (dir_chain d) ->
  bo_pTable (bucket_object pBucket d) = Some pTable ->
  length tables = getNumberOfSlots ->
  (forall k t, tables !! k = Some t ->
     bo_tables (bucket_object pBucket d) !! k = Some (Some t)) ->
  NoDup (pTable :: tables) ->
  (forall b, b ∈ pTable :: tables -> b ∈ dir_live d) ->
  exists d',
    Ref_DestroyHandleTableBucket pBucket d = Some d' /\
    (forall b, b ∈ dir_live d' <-> b ∈ dir_live d /\ b ∉ pTable :: tables) /\
    dir_chain d' = dir_chain (Ref_RemoveHandleTableBucket pBucket d) /\
    length (dir_chain d') = length (dir_chain d) /\
    dir_buckets d' = dir_buckets d /\
    Ref_DestroyHandleTableBucket pBucket d' = None.
Proof.
  intros Hok HpT Hlen Htables Hnodup Hlive.
  apply NoDup_cons in Hnodup as [Hfresh Hnodup].
  unfold Ref_DestroyHandleTableBucket at 1.
  assert (Hbo0 : bucket_object pBucket (Ref_RemoveHandleTableBucket pBucket d)
                 = bucket_object pBucket d) by done.
  rewrite Hbo0, HpT. cbn [mbind option_bind]. rewrite <- Hlen.
  destruct (destroy_tables_spec (bo_tables (bucket_object pBucket d))
              tables 0 (Ref_RemoveHandleTableBucket pBucket d))
    as (d1 & -> & Hlive1 & Hchain1 & Hbuckets1 & Hnext1 & Hres1 & Hctx1).
  { done. }
  { done. }
  { intros b Hb. change (b ∈ dir_live d). apply Hlive. by right. }
  change (dir_live (Ref_RemoveHandleTableBucket pBucket d))
    with (dir_live d) in Hlive1.
  change (dir_buckets (Ref_RemoveHandleTableBucket pBucket d))
    with (dir_buckets d) in Hbuckets1.
  cbn [mbind option_bind].
  rewrite dir_release_live
    by (apply Hlive1; split; [apply Hlive; by left|done]).
  eexists. split; [done|].
  cbn [dir_live dir_chain dir_buckets dir_set_alloc dir_set_chain].
  split.
  { intros b. rewrite list_elem_of_filter, Hlive1, elem_of_cons. tauto. }
  split; [done|].
  split.
  { rewrite Hchain1. unfold Ref_RemoveHandleTableBucket.
    cbn [dir_chain dir_set_chain]. clear. generalize 0.
    induction (dir_chain d) as [|n rest IH]; intros offset; [done|].
    cbn [remove_from_chain].
    destruct (_ && _); cbn [length]; [done|]. by rewrite IH. }
  split; [done|].
  unfold Ref_DestroyHandleTableBucket.
  match goal with
  | |- context [bucket_object pBucket (Ref_RemoveHandleTableBucket pBucket ?s)] =>
      assert (Hbo : bucket_object pBucket (Ref_RemoveHandleTableBucket pBucket s)
                    = bucket_object pBucket d)
        by (unfold bucket_object, Ref_RemoveHandleTableBucket; cbn;
            by rewrite Hbuckets1);
      rewrite Hbo;
      assert (Hgone : pTable ∉ dir_live (Ref_RemoveHandleTableBucket pBucket s))
  end.
  { cbn [Ref_RemoveHandleTableBucket dir_live dir_set_chain dir_set_alloc].
    rewrite list_elem_of_filter. tauto. }
  rewrite HpT. cbn [mbind option_bind].
  destruct (destroy_tables _ _ _ _) as [d2|] eqn:Hd2; [|done].
  cbn [mbind option_bind]. unfold dir_release.
  rewrite bool_decide_eq_false_2; [done|].
  intros Hin. apply Hgone. by eapply destroy_tables_live.
Qed.

(** *** Shutting down *)

Lemma delete_bucket_arrays_spec : forall walk d,
  NoDup (node_pBuckets <$> walk) ->
  (forall b, b ∈ node_pBuckets <$> walk -> b ∈ dir_live d) ->
  exists d',
    delete_bucket_arrays walk d = Some d' /\
    (forall b, b ∈ dir_live d' <->
               b ∈ dir_live d /\ b ∉ node_pBuckets <$> walk) /\
    dir_buckets d' = dir_buckets d /\ dir_contexts d' = dir_contexts d /\
    dir_next d' = dir_next d /\ dir_results d' = dir_results d.
Proof.
  induction walk as [|n rest IH]; intros d Hnodup Hlive.
  - exists d. split_and!; try done. intros b. rewrite fmap_nil, elem_of_nil.
    tauto.
  - rewrite fmap_cons in Hnodup, Hlive.
    apply NoDup_cons in Hnodup as [Hfresh Hnodup].
    cbn [delete_bucket_arrays].
    rewrite dir_release_live by (apply Hlive; by left).
    cbn [mbind option_bind].
    match goal with
    | |- context [delete_bucket_arrays rest ?s] =>
        destruct (IH s) as (d' & -> & Hlive' & ? & ? & ? & ?)
    end.
    { done. }
    { intros b Hb. cbn [dir_live dir_set_alloc].
      apply list_elem_of_filter. split; [by intros ->|].
      apply Hlive. by right. }
    exists d'. split_and!; try done.
    intros b. rewrite Hlive', fmap_cons. cbn [dir_live dir_set_alloc].
    rewrite list_elem_of_filter, elem_of_cons. tauto.
Qed.

(** X17.  [Ref_Shutdown] releases the array of dependent handle contexts
    and the bucket array of every node of the chain, and nothing else.
    When these are distinct live blocks the call has a result: the chain
    is empty and [g_pDependentHandleContexts] is null; a block is live
    afterwards exactly when it was live and is none of these, so that the
    handle tables of the buckets, which are to be destroyed by their
    owners, and the nodes that [Ref_InitializeHandleTableBucket] appended
    are still allocated.  A second call changes nothing. *)
Theorem Ref_Shutdown_releases_arrays (d : Directory) :
  let released := option_list (dir_contexts d)
                  ++ (node_pBuckets <$> dir_chain d) in
  NoDup released ->
  (forall b, b ∈ released -> b ∈ dir_live d) ->
  exists d',
    Ref_Shutdown d = Some d' /\
    dir_chain d' = [] /\ dir_contexts d' = None /\
    (forall b, b ∈ dir_live d' <-> b ∈ dir_live d /\ b ∉ released) /\
    dir_buckets d' = dir_buckets d /\
    Ref_Shutdown d' = Some d'.
Proof.
  intros released Hnodup Hlive. subst released.
  apply NoDup_app in Hnodup as (Hnc & Hdisj & Hnw).
  assert (Hgoal : exists d',
    Ref_Shutdown d = Some d' /\
    dir_chain d' = [] /\ dir_contexts d' = None /\
    (forall b, b ∈ dir_live d' <->
               b ∈ dir_live d /\
               b ∉ option_list (dir_contexts d)
                     ++ (node_pBuckets <$> dir_chain d)) /\
    dir_buckets d' = dir_buckets d).
  { unfold Ref_Shutdown.
    destruct (dir_contexts d) as [c|] eqn:Hc.
    - rewrite dir_release_live
        by (apply Hlive, elem_of_app; left; by apply list_elem_of_here).
      cbn [mbind option_bind dir_chain dir_set_contexts dir_set_alloc].
      destruct (dir_chain d) as [|n rest] eqn:Hchain.
      + eexists. split; [done|]. cbn.
        split_and!; try done. intros b.
        rewrite list_elem_of_filter, list_elem_of_singleton. tauto.
      + rewrite <- Hchain in *.
        match goal with
        | |- context [delete_bucket_arrays _ ?s] =>
            destruct (delete_bucket_arrays_spec (dir_chain d) s)
              as (d2 & Hd2 & Hlive2 & Hb2 & Hc2 & _)
        end.
        { done. }
        { intros b Hb. cbn [dir_live dir_set_contexts dir_set_alloc].
          apply list_elem_of_filter. split.
          - intros ->. apply (Hdisj c); [by apply list_elem_of_here|done].
          - apply Hlive, elem_of_app. by right. }
        rewrite Hchain in Hd2 |- *. rewrite Hd2. rewrite <- Hchain.
        cbn [mbind option_bind]. eexists. split; [done|].
        cbn [dir_chain dir_contexts dir_live dir_buckets dir_set_chain
             dir_set_contexts dir_set_alloc] in Hlive2, Hb2, Hc2 |- *.
        split_and!; try done. intros b.
        rewrite Hlive2, list_elem_of_filter, not_elem_of_app.
        change (option_list (Some c)) with [c].
        rewrite list_elem_of_singleton. tauto.
    - cbn [mbind option_bind].
      destruct (dir_chain d) as [|n rest] eqn:Hchain.
      + exists d. rewrite Hchain, Hc. split_and!; try done.
        intros b. cbn. rewrite elem_of_nil. tauto.
      + rewrite <- Hchain in *.
        destruct (delete_bucket_arrays_spec (dir_chain d) d)
          as (d2 & Hd2 & Hlive2 & Hb2 & Hc2 & _).
        { done. }
        { intros b Hb. apply Hlive, elem_of_app. by right. }
        rewrite Hchain in Hd2 |- *. rewrite Hd2. rewrite <- Hchain.
        cbn [mbind option_bind]. eexists. split; [done|].
        cbn [dir_chain dir_contexts dir_live dir_buckets dir_set_chain].
        split_and!; try done. congruence. }
  destruct Hgoal as (d' & Hrun & Hchain' & Hctx' & Hlive' & Hbuckets').
  exists d'. split_and!; try done.
  unfold Ref_Shutdown. rewrite Hctx'. cbn [mbind option_bind].
  by rewrite Hchain'.
Qed.

End DirectoryProofs.

(** * The theorems at work on the example collector *)

Section Examples.
#[local] Existing Instance example_env.

Lemma example_mark_monotone : monotone_oracle example_mark.
Proof.
  split.
  - intros o sc fl g. unfold example_mark. simpl.
    rewrite Z.eqb_refl. simpl. apply orb_true_r.
  - intros o sc fl g x. unfold example_mark. simpl.
    destruct (x =? 0)%Z; simpl; [done|]. intros ->. apply orb_true_r.
Qed.

(** The dependent handles 20 -> 30 and 10 -> 20 with only 10 marked: the
    secondaries 20 and then 30 are promoted, in three rounds. *)
Example dependent_scan_is_transitive :
  Ref_ScanDependentHandlesForPromotion 2 0 example_dependents
    (example_state [10%Z]) = None /\
  (fun r => (r.1.1, r.1.2, gc_heap r.2, host_calls r.2)) <$>
    Ref_ScanDependentHandlesForPromotion 3 0 example_dependents
      (example_state [10%Z])
  = Some (true, example_dependents, [30; 20; 10]%Z,
          [CallPromote 30 0; CallPromote 20 0]).
Proof. split; vm_compute; reflexivity. Qed.


(** C2 on the example: primary 10 is marked, secondary 20 is not. *)
Lemma PromoteDependentHandle_step_example :
  let st := example_state [10%Z] in
  let d := Ref_GetDependentHandleContext example_sc in
  let r := PromoteDependentHandle 10 20 example_sc example_mark st in
  (10%Z <> NULL -> IsPromoted (gc_heap st) 10 = true ->
   IsPromoted (gc_heap st) 20 = false ->
     r.1 = (10%Z, (example_mark 20%Z example_sc 0%Z (gc_heap st)).1) /\
     gc_heap r.2 = (example_mark 20%Z example_sc 0%Z (gc_heap st)).2 /\
     host_calls r.2 = CallPromote 20 0 :: host_calls st /\
     native_mem r.2 = native_mem st /\
     g_pDependentHandleContexts r.2
       = <[d := set_fPromoted true example_ctx]> (g_pDependentHandleContexts st) /\
     fPromoted_at d r.2 = true /\
     fUnpromotedPrimaries_at d r.2 = fUnpromotedPrimaries_at d st) /\
  (10%Z <> NULL -> IsPromoted (gc_heap st) 10 = false ->
     r.1 = (10%Z, 20%Z) /\
     r.2 = set_contexts
             (<[d := set_fUnpromotedPrimaries true example_ctx]>
                (g_pDependentHandleContexts st)) st /\
     fUnpromotedPrimaries_at d r.2 = true /\
     fPromoted_at d r.2 = fPromoted_at d st) /\
  (10%Z = NULL -> r = (10%Z, 20%Z, st)) /\
  (10%Z <> NULL -> IsPromoted (gc_heap st) 10 = true ->
   IsPromoted (gc_heap st) 20 = true -> r = (10%Z, 20%Z, st)).
Proof.
  apply (PromoteDependentHandle_step 10%Z 20%Z example_sc example_mark
           (example_state [10%Z]) example_ctx).
  reflexivity.
Defined.

Example PromoteDependentHandle_promotes_secondary :
  (fun r => (r.1, gc_heap r.2, fPromoted_at 0 r.2)) 
    (PromoteDependentHandle 10 20 example_sc example_mark (example_state [10%Z]))
  = ((10, 20)%Z, [20; 10]%Z, true).
Proof. vm_compute. reflexivity. Qed.

(** C3 on the example: with only 10 marked, the handle 20 -> 30 is cleared
    and the handle 10 -> 20 is kept. *)
Lemma Ref_ScanDependentHandlesForClearing_clears_example :
  exists map',
    Ref_ScanDependentHandlesForClearing 0 2 example_sc
      example_dependents (example_state [10%Z])
    = Some (map', example_state [10%Z]) /\
    forall c i k j h,
      handle_at example_dependents c i k j = Some h ->
      hType h = HNDTYPE_DEPENDENT ->
      visited example_sc k ->
      exists h', handle_at map' c i k j = Some h' /\
        hType h' = HNDTYPE_DEPENDENT /\
        (IsPromoted (gc_heap (example_state [10%Z])) (hObj h) = false ->
         hObj h' = NULL /\ hExtra h' = NULL) /\
        (IsPromoted (gc_heap (example_state [10%Z])) (hObj h) = true -> h' = h) /\
        (IsPromoted (gc_heap (example_state [10%Z])) (hObj h') = false ->
         hObj h' = NULL /\ hExtra h' = NULL).
Proof.
  apply (Ref_ScanDependentHandlesForClearing_clears 0 2 example_sc
           example_dependents (example_state [10%Z])).
  apply Nat.lt_0_succ.
Defined.

Example dependent_clearing_run :
  fst <$> Ref_ScanDependentHandlesForClearing 0 2 example_sc
            example_dependents (example_state [10%Z])
  = Some [ mkNode
             [ Some (mkBucket
                       [ Some [ mkHandle HNDTYPE_DEPENDENT 0 0;
                                mkHandle HNDTYPE_DEPENDENT 10 20;
                                mkHandle HNDTYPE_DEPENDENT 0 0 ];
                         Some [ mkHandle HNDTYPE_DEPENDENT 0 0 ] ]
                       0);
               None ]
             10 ].
Proof. vm_compute. reflexivity. Qed.

(** C4 on the example: 50 is marked, nothing else. *)
Lemma weak_check_clears_unpromoted_example :
  exists mapA mapR,
    Ref_CheckAlive 0 2 example_sc example_handles (example_state [50%Z])
    = Some (mapA, example_state [50%Z]) /\
    Ref_CheckReachable 0 2 example_sc example_handles (example_state [50%Z])
    = Some (mapR, example_state [50%Z]) /\
    (forall c i k j h,
       handle_at example_handles c i k j = Some h ->
       weak_class (hType h) = true ->
       visited example_sc k ->
       (hType h ∈ Ref_CheckAlive_types ->
        exists h', handle_at mapA c i k j = Some h' /\
          hType h' = hType h /\ hExtra h' = hExtra h /\
          (IsPromoted (gc_heap (example_state [50%Z])) (hObj h) = false ->
           hObj h' = NULL) /\
          (IsPromoted (gc_heap (example_state [50%Z])) (hObj h) = true ->
           hObj h' = hObj h)) /\
       (hType h ∈ Ref_CheckReachable_types ->
        exists h', handle_at mapR c i k j = Some h' /\
          hType h' = hType h /\ hExtra h' = hExtra h /\
          (IsPromoted (gc_heap (example_state [50%Z])) (hObj h) = false ->
           hObj h' = NULL) /\
          (IsPromoted (gc_heap (example_state [50%Z])) (hObj h) = true ->
           hObj h' = hObj h))) /\
    (forall t, weak_class t = true ->
       (t = HNDTYPE_WEAK_NATIVE_COM -> FEATURE_WEAK_NATIVE_COM_HANDLES = true) ->
       t ∈ Ref_CheckAlive_types \/ t ∈ Ref_CheckReachable_types).
Proof.
  apply (weak_check_clears_unpromoted 0 2 example_sc example_handles
           (example_state [50%Z])).
  apply Nat.lt_0_succ.
Defined.

(** The weak-short handle to the marked 50 keeps it, the one to 54 reads
    null. *)
Example weak_short_clearing_run :
  (fun r => (handle_at r.1 0 1 1 0, handle_at r.1 0 1 1 4)) <$>
    Ref_CheckAlive 0 2 example_sc example_handles (example_state [50%Z])
  = Some (Some (mkHandle HNDTYPE_WEAK_SHORT 50 0),
          Some (mkHandle HNDTYPE_WEAK_SHORT 0 0)).
Proof. vm_compute. reflexivity. Qed.

(** C5 as the spec has it fails: [Ref_CheckReachable] nulls a RefCounted
    handle whose referent is not promoted. *)
Lemma weak_check_clears_RefCounted :
  Ref_CheckReachable 0 2 example_sc
    (example_single (mkHandle HNDTYPE_REFCOUNTED 30 0)) (example_state [])
  = Some (example_single (mkHandle HNDTYPE_REFCOUNTED 0 0), example_state []).
Proof. vm_compute. reflexivity. Qed.

(** C5, as amended, on the example. *)
Lemma weak_check_applies_to_example :
  exists mapA mapR,
    Ref_CheckAlive 0 2 example_sc example_handles (example_state [50%Z])
    = Some (mapA, example_state [50%Z]) /\
    Ref_CheckReachable 0 2 example_sc example_handles (example_state [50%Z])
    = Some (mapR, example_state [50%Z]) /\
    (forall c i k j h, handle_at example_handles c i k j = Some h ->
       (visited example_sc k ->
        handle_at mapA c i k j =
          Some (if weak_checked Ref_CheckAlive_types VHT_WEAK_SHORT h
                then check_promoted_result (example_state [50%Z]) h else h) /\
        handle_at mapR c i k j =
          Some (if weak_checked Ref_CheckReachable_types VHT_WEAK_LONG h
                then check_promoted_result (example_state [50%Z]) h else h)) /\
       (~ visited example_sc k ->
        handle_at mapA c i k j = Some h /\ handle_at mapR c i k j = Some h)) /\
    (forall t, t ∈ Ref_CheckAlive_types <->
       t = HNDTYPE_WEAK_SHORT \/
       (FEATURE_WEAK_NATIVE_COM_HANDLES = true /\ t = HNDTYPE_WEAK_NATIVE_COM)) /\
    (forall t, t ∈ Ref_CheckReachable_types <->
       t = HNDTYPE_WEAK_LONG \/
       (FEATURE_REFCOUNTED_HANDLES = true /\ t = HNDTYPE_REFCOUNTED) \/
       t = HNDTYPE_WEAK_INTERIOR_POINTER).
Proof.
  apply (weak_check_applies_to 0 2 example_sc example_handles
           (example_state [50%Z])).
  apply Nat.lt_0_succ.
Defined.



(** C7 on the example: the object at [0x5000] moves to [0x6000] and the
    interior pointer [0x5008] follows to [0x6008]. *)
Example weak_interior_pointer_follows :
  (fun r => (r.1, native_mem r.2 !!! 16%Z))
    (UpdateWeakInteriorHandle 0x5000 16 example_sc example_relocate
       (set_mem (<[16%Z := 0x5008%Z]> ∅) (example_state [])))
  = ((0x6000, 16)%Z, 0x6008%Z).
Proof. vm_compute. reflexivity. Qed.

(** A displacement that wraps: the object moves down across zero. *)
Example weak_interior_pointer_wraps :
  wrap (wrap (0x10 + wrap (0xFFFFFFFFFFFFF000 - 0x8)) - 0xFFFFFFFFFFFFF000)
  = wrap (0x10 - 0x8).
Proof. vm_compute. reflexivity. Qed.


(** The ref-counted pass at work: 30 is even, so the engine keeps it and it
    is promoted; 31 is asked about and left; with a concurrent scan
    context neither is looked at. *)
Example ref_counted_pass_run :
  (fun r => host_calls r.2) <$>
    Ref_TraceNormalRoots 0 2 example_sc example_mark
      (example_single (mkHandle HNDTYPE_REFCOUNTED 30 0)) (example_state [])
  = Some [CallPromote 30 0; CallRefCountedHandleCallbacks 30] /\
  (fun r => host_calls r.2) <$>
    Ref_TraceNormalRoots 0 2 example_sc example_mark
      (example_single (mkHandle HNDTYPE_REFCOUNTED 31 0)) (example_state [])
  = Some [CallRefCountedHandleCallbacks 31] /\
  (fun r => host_calls r.2) <$>
    Ref_TraceNormalRoots 0 2 example_sc_concurrent example_mark
      (example_single (mkHandle HNDTYPE_REFCOUNTED 30 0)) (example_state [])
  = Some [].
Proof. split_and!; vm_compute; reflexivity. Qed.

(** C9 on the example: two slots, the sixth allocation fails. *)
Example Ref_Initialize_context_failure_run :
  Ref_Initialize 10
    (before_Ref_Initialize [true; true; true; true; true; false])
  = Some (false,
          mkInitState [4; 3; 2] 5 [] (Some 0) 10 None (Some 1) None
            [Some 1; None; None; None; None; None; None; None; None; None]
            (Some 2) [Some 3; Some 4] 0).
Proof. vm_compute. reflexivity. Qed.

(** C10 on the example, with a promote callback that relocates. *)
Lemma PromoteRefCounted_leaves_slot_example :
  (forall o e s,
     (PromoteRefCounted o e example_sc example_relocate s).1 = (o, e)) /\
  (exists map' st',
     Ref_TraceNormalRoots 0 2 example_sc example_relocate example_handles
       (example_state []) = Some (map', st') /\
     forall c i k j h,
       handle_at example_handles c i k j = Some h ->
       hType h = HNDTYPE_REFCOUNTED ->
       handle_at map' c i k j = Some h) /\
  (forall o e s,
     (UpdatePointer o e example_sc example_relocate s).1
     = ((example_relocate o example_sc 0%Z (gc_heap s)).1, e)) /\
  (FEATURE_REFCOUNTED_HANDLES = true ->
   HNDTYPE_REFCOUNTED ∈ Ref_UpdatePointers_types).
Proof.
  apply (PromoteRefCounted_leaves_slot 0 2 example_sc example_relocate
           example_handles (example_state [])).
  apply Nat.lt_0_succ.
Defined.

(** The relocating callback moves the Strong handle's word and not the
    RefCounted one's. *)
Example ref_counted_slot_run :
  (fun r => (handle_at r.1 0 1 0 0, handle_at r.1 0 1 0 2)) <$>
    Ref_TraceNormalRoots 0 2 example_sc example_relocate example_handles
      (example_state [])
  = Some (Some (mkHandle HNDTYPE_STRONG 0x100a 0),
          Some (mkHandle HNDTYPE_REFCOUNTED 30 0)).
Proof. vm_compute. reflexivity. Qed.

End Examples.

(** * The further theorems at work on the example collector *)

Section MoreExamples.
#[local] Existing Instance example_env.
#[local] Existing Instance example_host.

(** X1 on the example: one worker, object 50 marked. *)
Lemma weak_check_idempotent_example :
  (exists map1 map2,
     Ref_CheckAlive 0 2 example_sc example_handles (example_state [50%Z])
     = Some (map1, example_state [50%Z]) /\
     Ref_CheckAlive 0 2 example_sc map1 (example_state [50%Z])
     = Some (map2, example_state [50%Z]) /\
     forall c i k j, handle_at map2 c i k j = handle_at map1 c i k j) /\
  (exists map1 map2,
     Ref_CheckReachable 0 2 example_sc example_handles (example_state [50%Z])
     = Some (map1, example_state [50%Z]) /\
     Ref_CheckReachable 0 2 example_sc map1 (example_state [50%Z])
     = Some (map2, example_state [50%Z]) /\
     forall c i k j, handle_at map2 c i k j = handle_at map1 c i k j).
Proof.
  apply (weak_check_idempotent 0 2 example_sc example_handles
           (example_state [50%Z])).
  simpl. lia.
Defined.

(** X2 on the example. *)
Lemma weak_checks_commute_example :
  exists mapA mapAR mapR mapRA,
    Ref_CheckAlive 0 2 example_sc example_handles (example_state [50%Z])
    = Some (mapA, example_state [50%Z]) /\
    Ref_CheckReachable 0 2 example_sc mapA (example_state [50%Z])
    = Some (mapAR, example_state [50%Z]) /\
    Ref_CheckReachable 0 2 example_sc example_handles (example_state [50%Z])
    = Some (mapR, example_state [50%Z]) /\
    Ref_CheckAlive 0 2 example_sc mapR (example_state [50%Z])
    = Some (mapRA, example_state [50%Z]) /\
    forall c i k j, handle_at mapAR c i k j = handle_at mapRA c i k j.
Proof.
  apply (weak_checks_commute 0 2 example_sc example_handles
           (example_state [50%Z])).
  simpl. lia.
Defined.

(** X3 on the example: only object 10 is marked; 60 -> 70 is cleared. *)
Lemma dependent_handles_settled_example :
  exists bound r map1 st1 map2,
    (forall fuel, bound < fuel ->
       Ref_ScanDependentHandlesForPromotion fuel 0 example_dependents
         (example_state [10%Z]) = Some (r, map1, st1)) /\
    Ref_ScanDependentHandlesForClearing 0 2 (m_pScanContext example_ctx)
      map1 st1 = Some (map2, st1) /\
    (forall c i k j h,
       handle_at map2 c i k j = Some h -> hType h = HNDTYPE_DEPENDENT ->
       k < getNumberOfSlots ->
       (IsPromoted (gc_heap st1) (hObj h) = false ->
        hObj h = NULL /\ hExtra h = NULL) /\
       (hObj h <> NULL ->
        IsPromoted (gc_heap st1) (hObj h) = true /\
        IsPromoted (gc_heap st1) (hExtra h) = true)) /\
    (forall c i k j,
       match handle_at example_dependents c i k j with
       | None => handle_at map2 c i k j = None
       | Some h =>
           exists h2, handle_at map2 c i k j = Some h2 /\
             hType h2 = hType h /\
             (hType h <> HNDTYPE_DEPENDENT \/ ~ k < getNumberOfSlots ->
              h2 = h) /\
             (hType h = HNDTYPE_DEPENDENT -> k < getNumberOfSlots ->
              (IsPromoted (gc_heap st1) (hObj h) = false ->
               hObj h2 = NULL /\ hExtra h2 = NULL) /\
              (IsPromoted (gc_heap st1) (hObj h) = true ->
               hObj h2 = hObj h /\
               (hObj h <> NULL ->
                IsPromoted (gc_heap st1) (hExtra h2) = true) /\
               (hObj h = NULL -> hExtra h2 = hExtra h)))
       end).
Proof.
  apply (dependent_handles_settled 0 example_ctx 0 2 example_dependents
           (example_state [10%Z])).
  - reflexivity.
  - reflexivity.
  - reflexivity.
  - reflexivity.
  - exact example_mark_monotone.
Defined.

(** The two scans at work: 20 -> 30 and 10 -> 20 stay, with 20 and 30
    promoted; 60 -> 70 is cleared; the handle with a null primary keeps
    its secondary. *)
Example dependent_handles_settled_run :
  ('(_, map1, st1) ← Ref_ScanDependentHandlesForPromotion 3 0
                       [ mkNode
                           [ Some (mkBucket
                                     [ Some [ mkHandle HNDTYPE_DEPENDENT 20 30;
                                              mkHandle HNDTYPE_DEPENDENT 10 20;
                                              mkHandle HNDTYPE_DEPENDENT 0 5 ];
                                       Some [ mkHandle HNDTYPE_DEPENDENT 60 70 ] ]
                                     0) ]
                           10 ]
                       (example_state [10%Z]);
   '(map2, st2) ← Ref_ScanDependentHandlesForClearing 0 2 example_sc map1 st1;
   Some (map2, gc_heap st2))
  = Some ([ mkNode
              [ Some (mkBucket
                        [ Some [ mkHandle HNDTYPE_DEPENDENT 20 30;
                                 mkHandle HNDTYPE_DEPENDENT 10 20;
                                 mkHandle HNDTYPE_DEPENDENT 0 5 ];
                          Some [ mkHandle HNDTYPE_DEPENDENT 0 0 ] ]
                        0) ]
              10 ],
          [30; 20; 10]%Z).
Proof. vm_compute. reflexivity. Qed.

(** X4 on the example: worker 0 of two scans the strong handles. *)
Lemma workers_scan_disjoint_tables_example :
  (forall k, k < getNumberOfSlots ->
     exists w0, w0 < 2 /\ visited (mkScanContext w0 2 false) k /\
       forall w', w' < 2 -> visited (mkScanContext w' 2 false) k ->
                  w' = w0) /\
  exists map' st',
    scan_handle_tables
      (fun hTable => HndScanHandlesForGC hTable PromoteObject
                       (mkScanContext 0 2 false) example_mark
                       [HNDTYPE_STRONG] 1 0 2 0)
      (mkScanContext 0 2 false) example_handles (example_state [])
    = Some (map', st') /\
    forall w' c i k j, w' < 2 -> w' <> 0 ->
      visited (mkScanContext w' 2 false) k ->
      handle_at map' c i k j = handle_at example_handles c i k j.
Proof.
  apply (workers_scan_disjoint_tables PromoteObject example_mark
           [HNDTYPE_STRONG] 1 0 2 0 2 0 false example_handles
           (example_state [])).
  - reflexivity.
  - lia.
Defined.

(** X7 on the example: the table array cannot be allocated. *)
Lemma Ref_Initialize_early_failure_example :
  let st := before_Ref_Initialize (replicate 2 true ++ false :: []) in
  (2 < 2 ->
   exists r,
     Ref_Initialize 2 st = Some (false, r) /\
     map_pBuckets r = None /\ map_dwMaxIndex r = 0 /\ map_pNext r = None /\
     dh_contexts_ptr r = None /\
     g_gcGlobalHandleStore r = None /\ live_blocks r = []) /\
  (2 <= 2 -> Ref_Initialize 2 st = None).
Proof.
  apply (Ref_Initialize_early_failure 2 2 []).
  simpl. lia.
Defined.

(** The store cannot be allocated: a clean failure.  A handle table
    cannot be created: the holder reads the deleted store. *)
Example Ref_Initialize_early_failure_run :
  Ref_Initialize 2 (before_Ref_Initialize [true; false])
  = Some (false, mkInitState [] 1 [] None 0 None None None
                   [None; None] None [] 0) /\
  Ref_Initialize 2 (before_Ref_Initialize [true; true; true; true; false])
  = None.
Proof. split; vm_compute; reflexivity. Qed.

(** X8 on the example: the strong variable handles traced by a single
    thread. *)
Lemma TraceVariableHandlesBySingleThread_in_sync_example :
  TraceVariableHandlesBySingleThread PromoteObject example_sc example_mark
    VHT_STRONG 0 2 0 example_handles (example_state [])
  = TraceVariableHandles PromoteObject example_sc example_mark
      VHT_STRONG 0 2 0 example_handles (example_state []) /\
  forall k, visited example_sc k <-> k < getNumberOfSlots.
Proof.
  apply (TraceVariableHandlesBySingleThread_in_sync PromoteObject example_sc
           example_mark VHT_STRONG 0 2 0 example_handles (example_state [])).
  - reflexivity.
  - reflexivity.
Defined.

(** X10 on the example: every object moves up by [0x1000]. *)
Lemma relocation_moves_each_handle_once_example :
  exists uCount' map1 st1 map2 st2 map3 st3 map4 st4,
    Ref_UpdatePointers 0 2 example_sc example_relocate 0 example_pinned
      (example_state [])
    = Some (uCount', map1, st1) /\
    Ref_UpdatePinnedPointers 0 2 example_sc example_relocate map1 st1
    = Some (map2, st2) /\
    Ref_ScanDependentHandlesForRelocation 0 2 example_sc example_relocate
      map2 st2
    = Some (map3, st3) /\
    Ref_ScanWeakInteriorPointersForRelocation 0 2 example_sc example_relocate
      map3 st3
    = Some (map4, st4) /\
    forall c i k j,
      match handle_at example_pinned c i k j with
      | None => handle_at map4 c i k j = None
      | Some h =>
          (visited example_sc k ->
           (hType h = HNDTYPE_VARIABLE ->
            Z.land (hExtra h) VHT_not_pinned = 0%Z \/
            Z.land (hExtra h) VHT_PINNED = 0%Z) ->
           handle_at map4 c i k j = Some (relocate_handle example_moved h)) /\
          (visited example_sc k ->
           FEATURE_VARIABLE_HANDLES = true -> hType h = HNDTYPE_VARIABLE ->
           Z.land (hExtra h) VHT_not_pinned <> 0%Z ->
           Z.land (hExtra h) VHT_PINNED <> 0%Z ->
           handle_at map4 c i k j
           = Some (mkHandle (hType h) (example_moved (example_moved (hObj h)))
                            (hExtra h))) /\
          (~ visited example_sc k -> handle_at map4 c i k j = Some h)
      end.
Proof.
  apply (relocation_moves_each_handle_once 0 2 example_sc example_relocate
           example_moved 0 example_pinned (example_state [])).
  - intros o sc fl g. reflexivity.
  - simpl. lia.
Defined.

(** The variable handle that is both strong and pinned moves twice. *)
Example relocation_moves_strong_pinned_twice :
  (fun r => handle_at r.1 0 0 0 3) <$>
    ('(_, map1, st1) ← Ref_UpdatePointers 0 2 example_sc example_relocate 0
                         example_pinned (example_state []);
     Ref_UpdatePinnedPointers 0 2 example_sc example_relocate map1 st1)
  = Some (Some (mkHandle HNDTYPE_VARIABLE 0x2028 0xC00)).
Proof. vm_compute. reflexivity. Qed.


Example pinning_roots_run :
  (fun r => host_calls r.2) <$>
    Ref_TracePinningRoots 0 2 example_sc example_mark example_pinned
      (example_state [])
  = Some [CallPromote 40 2; CallPromote 30 2; CallPromote 70 2;
          CallPromote 20 0; CallPromote 10 2].
Proof. vm_compute. reflexivity. Qed.

(** X12 on the example: marking adds eight bytes for each object. *)
Lemma Ref_ScanSizedRefHandles_records_size_example :
  exists map' st',
    Ref_ScanSizedRefHandles 0 2 example_sc example_mark example_pinned
      (example_state []) = Some (map', st') /\
    host_calls (example_state []) `suffix_of` host_calls st' /\
    forall c i k j h, handle_at example_pinned c i k j = Some h ->
      (visited example_sc k -> hType h = HNDTYPE_SIZEDREF ->
       exists g,
         let r := example_mark (hObj h) example_sc 0%Z g in
         handle_at map' c i k j =
         Some (mkHandle HNDTYPE_SIZEDREF r.1
                 (wrap (GetPromotedBytes r.2 (thread_number example_sc)
                        - GetPromotedBytes g (thread_number example_sc)))) /\
         CallPromote (hObj h) 0 ∈ host_calls st') /\
      (~ visited example_sc k \/ hType h <> HNDTYPE_SIZEDREF ->
       handle_at map' c i k j = Some h).
Proof.
  apply (Ref_ScanSizedRefHandles_records_size 0 2 example_sc example_mark
           example_pinned (example_state [])).
  simpl. lia.
Defined.

Example sized_ref_run :
  (fun r => handle_at r.1 0 0 0 5) <$>
    Ref_ScanSizedRefHandles 0 2 example_sc example_mark example_pinned
      (example_state [])
  = Some (Some (mkHandle HNDTYPE_SIZEDREF 60 8)).
Proof. vm_compute. reflexivity. Qed.

(** X13 on the example: worker 0 increments first and is elected. *)
Lemma Ref_UpdatePointers_elects_one_example :
  (exists w, w < GetNumberOfHeaps /\ el_bDo (mkElection 0 [2; 2] [0]) = [w]) /\
  el_uCount (mkElection 0 [2; 2] [0]) = 0%Z.
Proof.
  apply (Ref_UpdatePointers_elects_one example_schedule
           (mkElection 0 [2; 2] [0])).
  - simpl. lia.
  - simpl. lia.
  - reflexivity.
  - reflexivity.
Defined.

(** X14 on the example: both entries are taken, the chain grows by a node
    and the bucket at address 11 receives index 2. *)
Lemma Ref_InitializeHandleTableBucket_installs_example :
  exists d',
    Ref_InitializeHandleTableBucket 2 2 11 example_directory
    = Some (true, d') /\
    let slots := directory_slots (dir_chain example_directory) in
    let bo := bucket_object 11 d' in
    let index := bo_HandleTableIndex bo in
    (forall k, k < index -> exists b, slots !! k = Some (Some b)) /\
    ((slots !! index = Some None /\
      directory_slots (dir_chain d') = <[index := Some 11]> slots /\
      dir_next d' = dir_next example_directory + 1 + getNumberOfSlots)
     \/
     (index = length slots /\
      directory_slots (dir_chain d')
      = slots ++ <[0 := Some 11]> (replicate 2 None) /\
      dir_next d' = dir_next example_directory + 1 + getNumberOfSlots + 2)) /\
    chain_ok 2 0 (dir_chain d') /\
    bo_pTable bo = Some (dir_next example_directory) /\
    length (bo_tables bo) = getNumberOfSlots /\
    (forall k, k < getNumberOfSlots ->
       bo_tables bo !! k = Some (Some (dir_next example_directory + 1 + k))) /\
    (forall b, b ∈ dir_live d' <->
               b ∈ dir_live example_directory \/
               dir_next example_directory <= b < dir_next d') /\
    dir_contexts d' = dir_contexts example_directory /\
    (forall bucket', bucket' <> 11 ->
       bucket_object bucket' d' = bucket_object bucket' example_directory).
Proof.
  apply (Ref_InitializeHandleTableBucket_installs 2 2 11 example_directory).
  - lia.
  - lia.
  - discriminate.
  - simpl. lia.
  - apply (bool_decide_unpack _). vm_compute. exact I.
Defined.

Example install_bucket_run :
  (fun r => (r.1, directory_slots (dir_chain r.2), dir_live r.2,
             bucket_object 11 r.2))
    <$> Ref_InitializeHandleTableBucket 2 2 11 example_directory
  = Some (true, [Some 7; Some 9; Some 11; None], [9; 8; 7; 6; 5; 4; 3; 2; 1; 0],
          mkBucketObject (Some 5) [Some 6; Some 7] 2).
Proof. vm_compute. reflexivity. Qed.

(** X19 on the example: the second handle table cannot be created. *)
Lemma Ref_InitializeHandleTableBucket_failure_releases_example :
  exists d',
    Ref_InitializeHandleTableBucket 2 2 11 example_directory_failing
    = Some (false, d') /\
    dir_chain d' = dir_chain example_directory_failing /\
    (forall b, b ∈ dir_live d' <-> b ∈ dir_live example_directory_failing) /\
    dir_contexts d' = dir_contexts example_directory_failing /\
    (forall bucket', bucket' <> 11 ->
       bucket_object bucket' d'
       = bucket_object bucket' example_directory_failing) /\
    (0 < 2 -> bo_pTable (bucket_object 11 d')
              = Some (dir_next example_directory_failing) /\
              dir_next example_directory_failing ∉ dir_live d').
Proof.
  apply (Ref_InitializeHandleTableBucket_failure_releases 2 2 11
           example_directory_failing 2 []).
  - lia.
  - discriminate.
  - simpl. lia.
  - intros b Hb. simpl in Hb.
    repeat (apply elem_of_cons in Hb as [->|Hb]; [simpl; lia|]).
    by apply elem_of_nil in Hb.
  - reflexivity.
  - left. vm_compute. lia.
Defined.

Example install_bucket_failure_run :
  (fun r => (r.1, directory_slots (dir_chain r.2), dir_live r.2,
             bucket_object 11 r.2))
    <$> Ref_InitializeHandleTableBucket 2 2 11 example_directory_failing
  = Some (false, [Some 7; Some 9], [4; 3; 2; 1; 0],
          mkBucketObject (Some 5) [Some 6; None] 0).
Proof. vm_compute. reflexivity. Qed.

(** X15 on the example: the bucket at address 9 leaves entry 1. *)
Lemma Ref_RemoveHandleTableBucket_clears_own_entry_example :
  let index := bo_HandleTableIndex (bucket_object 9 example_directory) in
  let slots := directory_slots (dir_chain example_directory) in
  let d' := Ref_RemoveHandleTableBucket 9 example_directory in
  directory_slots (dir_chain d')
  = (if bool_decide (slots !! index = Some (Some 9))
     then <[index := None]> slots else slots) /\
  chain_ok 2 0 (dir_chain d') /\
  dir_live d' = dir_live example_directory /\
  dir_buckets d' = dir_buckets example_directory /\
  Ref_RemoveHandleTableBucket 9 d' = d'.
Proof.
  apply (Ref_RemoveHandleTableBucket_clears_own_entry 2 9 example_directory).
  simpl. lia.
Defined.

(** X16 on the example: blocks 1, 2 and 3 are released. *)
Lemma Ref_DestroyHandleTableBucket_releases_example :
  exists d',
    Ref_DestroyHandleTableBucket 9 example_directory = Some d' /\
    (forall b, b ∈ dir_live d' <->
               b ∈ dir_live example_directory /\ b ∉ 1 :: [2; 3]) /\
    dir_chain d'
    = dir_chain (Ref_RemoveHandleTableBucket 9 example_directory) /\
    length (dir_chain d') = length (dir_chain example_directory) /\
    dir_buckets d' = dir_buckets example_directory /\
    Ref_DestroyHandleTableBucket 9 d' = None.
Proof.
  apply (Ref_DestroyHandleTableBucket_releases 2 9 example_directory 1 [2; 3]).
  - simpl. lia.
  - reflexivity.
  - reflexivity.
  - intros [|[|k]] t Ht; vm_compute in Ht |- *; congruence.
  - apply (bool_decide_unpack _). vm_compute. exact I.
  - intros b Hb. apply (bool_decide_unpack _).
    apply (bool_decide_pack _) in Hb.
    revert Hb. vm_compute. destruct b as [|[|[|[|b]]]]; vm_compute; tauto.
Defined.

Example destroy_bucket_run :
  (fun d => (directory_slots (dir_chain d), dir_live d))
    <$> Ref_DestroyHandleTableBucket 9 example_directory
  = Some ([Some 7; None], [4; 0]).
Proof. vm_compute. reflexivity. Qed.

(** X17 on the example: blocks 4 and 0 are released, the handle tables of
    the bucket stay. *)
Lemma Ref_Shutdown_releases_arrays_example :
  let released := option_list (dir_contexts example_directory)
                  ++ (node_pBuckets <$> dir_chain example_directory) in
  exists d',
    Ref_Shutdown example_directory = Some d' /\
    dir_chain d' = [] /\ dir_contexts d' = None /\
    (forall b, b ∈ dir_live d' <->
               b ∈ dir_live example_directory /\ b ∉ released) /\
    dir_buckets d' = dir_buckets example_directory /\
    Ref_Shutdown d' = Some d'.
Proof.
  apply (Ref_Shutdown_releases_arrays example_directory).
  - apply (bool_decide_unpack _). vm_compute. exact I.
  - intros b Hb. apply (bool_decide_unpack _).
    apply (bool_decide_pack _) in Hb.
    revert Hb. vm_compute. destruct b as [|[|[|[|[|b]]]]]; vm_compute; tauto.
Defined.

Example shutdown_run :
  dir_live <$> Ref_Shutdown example_directory = Some [3; 2; 1].
Proof. vm_compute. reflexivity. Qed.

End MoreExamples.

Section WorkstationExamples.
#[local] Existing Instance example_workstation.

(** X5 on the workstation collector: a scan context that claims to be
    worker 3 of 4 scans what worker 0 of 1 scans, table 0. *)
Lemma workstation_scan_ignores_worker_example :
  (forall k, visited (mkScanContext 3 4 false) k <-> k = 0) /\
  scan_handle_tables (scan_table example_workstation_visit)
    (mkScanContext 3 4 false) example_handles example_workstation_state
  = scan_handle_tables (scan_table example_workstation_visit)
      (mkScanContext 0 1 false) example_handles example_workstation_state /\
  exists map' st',
    scan_handle_tables (scan_table example_workstation_visit)
      (mkScanContext 3 4 false) example_handles example_workstation_state
    = Some (map', st') /\
    forall c i k j,
      match handle_at example_handles c i k j with
      | None => handle_at map' c i k j = None
      | Some h =>
          (k = 0 ->
           exists s, handle_at map' c i k j
                     = Some (example_workstation_visit h s).1) /\
          (k <> 0 -> handle_at map' c i k j = Some h)
      end.
Proof.
  apply (workstation_scan_ignores_worker example_workstation_visit
           (scan_table example_workstation_visit)
           (scan_table example_workstation_visit)
           (mkScanContext 3 4 false) (mkScanContext 0 1 false)
           example_handles example_workstation_state).
  - reflexivity.
  - simpl. lia.
  - simpl. lia.
  - intros t s. reflexivity.
  - intros t s. reflexivity.
Defined.

(** Worker 3 of 4 moves the strong handle of table 0 and leaves the weak
    handle of table 1. *)
Example workstation_scan_run :
  (fun r => (handle_at r.1 0 1 0 0, handle_at r.1 0 1 1 0)) <$>
    scan_handle_tables (scan_table example_workstation_visit)
      (mkScanContext 3 4 false) example_handles example_workstation_state
  = Some (Some (mkHandle HNDTYPE_STRONG 0x100A 0),
          Some (mkHandle HNDTYPE_WEAK_SHORT 50 0)).
Proof. vm_compute. reflexivity. Qed.

End WorkstationExamples.
